(** * FSM-driven interactor: regions, actions and raw-event dispatch

    A shallow embedding of the TypeScript sources
      - [Region.ts]        (class [Region]: geometry, image loading, damage),
      - [Action.ts]        (class [Action]: [execute], [bindRegion]),
      - [FSMInteractor.ts] (class [FSMInteractor]: [pick], [dispatchRawEvent]),
    followed by the properties of the event-translation engine.

    Conventions of the embedding.
      - JavaScript objects are mutable and shared, so [Region] and
        [HTMLImageElement] objects live in a heap and are named by
        references; [===] on objects is equality of references.
      - A JavaScript [number] is modelled by an integer of [Z] (pixel
        coordinates and sizes).
      - Methods run in a small state-and-output monad [M]: the state is the
        heap together with the static image cache, the output is the list of
        calls that leave the modelled classes ([damage] notifications,
        [Err.emit], [console.log], DOM calls, image requests).
      - [_startImageLoad] is an [async] method.  It runs synchronously up to
        its [await]; the browser later fires [onload] or [onerror] on the
        image, which are the environment steps [img_onload] and
        [img_onerror].
      - The listeners that a region installs on the canvas for drawing and
        the closures that [moveMenu] installs on the document are
        functions of the state they share, called once for each event the
        browser delivers; they return what they paint. *)

From stdpp Require Import gmap strings list functions.
From Stdlib Require Import ZArith.

Local Open Scope Z_scope.

(** ** References and small value types *)

Definition RegionRef := nat.
Definition ImageRef := nat.
(** [FSM] and [Root] objects are only held as back references here. *)
Definition FSMRef := nat.
Definition RootRef := nat.

(** The part of a DOM [MouseEvent] the sources read. *)
Record MouseEvent := { offsetX : Z; offsetY : Z }.

(** [EventType] of [EventSpec.ts], as used by [dispatchRawEvent]. *)
Inductive EventType :=
| enter | exit | press | move_inside | release | release_none | rightClick.

#[global] Instance EventType_eq_dec : EqDecision EventType.
Proof. solve_decision. Defined.

#[global] Instance MouseEvent_eq_dec : EqDecision MouseEvent.
Proof. solve_decision. Defined.

Definition EventType_str (e : EventType) : string :=
  match e with
  | enter => "enter" | exit => "exit" | press => "press"
  | move_inside => "move_inside" | release => "release"
  | release_none => "release_none" | rightClick => "rightClick"
  end.

(** ** Heap objects *)

(** An [HTMLImageElement].  [img_listener] is the region captured as [this]
    by the [onload]/[onerror] closures installed on the image;
    [img_loading] holds between the assignment of [src] and the load
    outcome. *)
Record Image := {
  img_src : string;
  img_width : Z;
  img_height : Z;
  img_listener : option RegionRef;
  img_loading : bool
}.

(** The fields of a [Region] object (the canvas, the off-screen buffer and
    the brush colour and width only serve drawing and are left out). *)
Record Region := {
  _name : string;
  _parent : option FSMRef;
  _imageLoc : string;
  _x : Z;
  _y : Z;
  _w : Z;
  _h : Z;
  _loaded : bool;
  _loadError : bool;
  _resizedByImage : bool;
  _image : option ImageRef;
  _setted : bool;
  _tool : string;
  _drawingLine : bool;
  _cursorX : Z;
  _cursorY : Z
}.

Record World := {
  regionHeap : RegionRef -> Region;
  nextRegion : RegionRef;
  imageHeap : ImageRef -> Image;
  nextImage : ImageRef;
  (** [Region._imageCache : Map<string, HTMLImageElement | undefined>] *)
  _imageCache : gmap string (option ImageRef)
}.

(** What a [console.log] argument can be in these sources. *)
Inductive LogArg :=
| LogStr (s : string)
| LogRegionDebug (r : option Region)     (* [evtReg?.debugString()] *).

(** Calls that leave the modelled classes. *)
Inductive Effect :=
| RegionDamage (r : RegionRef)            (* [Region.damage()] entered on [r] *)
| FSMDamage (p : FSMRef)                  (* [parent.damage()] of a region *)
| RootDamage (p : RootRef)                (* [parent.damage()] of an interactor *)
| ErrEmit (msg : string)                  (* [Err.emit(msg)] *)
| ConsoleLog (args : list LogArg)
| ImageRequest (i : ImageRef) (src : string)   (* [img.src = ...] *)
| AddListeners (r : RegionRef) (tool : string)
| RemoveListeners (r : RegionRef)
| ShowColorWheel (r : RegionRef) (evt : option MouseEvent)
| MoveMenu (r : RegionRef) (regionLs : list RegionRef).

(** ** The monad of methods *)

Definition M (A : Type) : Type := World -> A * World * list Effect.

#[global] Instance M_ret : MRet M := fun A a w => (a, w, []).

#[global] Instance M_bind : MBind M := fun A B k m w =>
  let '(a, w1, e1) := m w in
  let '(b, w2, e2) := k a w1 in
  (b, w2, e1 ++ e2).

Definition emit (e : Effect) : M unit := fun w => (tt, w, [e]).

Definition result {A} (x : A * World * list Effect) : A := x.1.1.
Definition world_of {A} (x : A * World * list Effect) : World := x.1.2.
Definition effects_of {A} (x : A * World * list Effect) : list Effect := x.2.

(** Field updates. *)

Definition with_parent (v : option FSMRef) (r : Region) : Region :=
  {| _name := _name r; _parent := v; _imageLoc := _imageLoc r;
     _x := _x r; _y := _y r; _w := _w r; _h := _h r;
     _loaded := _loaded r; _loadError := _loadError r;
     _resizedByImage := _resizedByImage r; _image := _image r;
     _setted := _setted r; _tool := _tool r; _drawingLine := _drawingLine r;
     _cursorX := _cursorX r; _cursorY := _cursorY r |}.

Definition with_imageLoc (v : string) (r : Region) : Region :=
  {| _name := _name r; _parent := _parent r; _imageLoc := v;
     _x := _x r; _y := _y r; _w := _w r; _h := _h r;
     _loaded := _loaded r; _loadError := _loadError r;
     _resizedByImage := _resizedByImage r; _image := _image r;
     _setted := _setted r; _tool := _tool r; _drawingLine := _drawingLine r;
     _cursorX := _cursorX r; _cursorY := _cursorY r |}.

Definition with_x (v : Z) (r : Region) : Region :=
  {| _name := _name r; _parent := _parent r; _imageLoc := _imageLoc r;
     _x := v; _y := _y r; _w := _w r; _h := _h r;
     _loaded := _loaded r; _loadError := _loadError r;
     _resizedByImage := _resizedByImage r; _image := _image r;
     _setted := _setted r; _tool := _tool r; _drawingLine := _drawingLine r;
     _cursorX := _cursorX r; _cursorY := _cursorY r |}.

Definition with_y (v : Z) (r : Region) : Region :=
  {| _name := _name r; _parent := _parent r; _imageLoc := _imageLoc r;
     _x := _x r; _y := v; _w := _w r; _h := _h r;
     _loaded := _loaded r; _loadError := _loadError r;
     _resizedByImage := _resizedByImage r; _image := _image r;
     _setted := _setted r; _tool := _tool r; _drawingLine := _drawingLine r;
     _cursorX := _cursorX r; _cursorY := _cursorY r |}.

Definition with_w (v : Z) (r : Region) : Region :=
  {| _name := _name r; _parent := _parent r; _imageLoc := _imageLoc r;
     _x := _x r; _y := _y r; _w := v; _h := _h r;
     _loaded := _loaded r; _loadError := _loadError r;
     _resizedByImage := _resizedByImage r; _image := _image r;
     _setted := _setted r; _tool := _tool r; _drawingLine := _drawingLine r;
     _cursorX := _cursorX r; _cursorY := _cursorY r |}.

Definition with_h (v : Z) (r : Region) : Region :=
  {| _name := _name r; _parent := _parent r; _imageLoc := _imageLoc r;
     _x := _x r; _y := _y r; _w := _w r; _h := v;
     _loaded := _loaded r; _loadError := _loadError r;
     _resizedByImage := _resizedByImage r; _image := _image r;
     _setted := _setted r; _tool := _tool r; _drawingLine := _drawingLine r;
     _cursorX := _cursorX r; _cursorY := _cursorY r |}.

Definition with_loaded (v : bool) (r : Region) : Region :=
  {| _name := _name r; _parent := _parent r; _imageLoc := _imageLoc r;
     _x := _x r; _y := _y r; _w := _w r; _h := _h r;
     _loaded := v; _loadError := _loadError r;
     _resizedByImage := _resizedByImage r; _image := _image r;
     _setted := _setted r; _tool := _tool r; _drawingLine := _drawingLine r;
     _cursorX := _cursorX r; _cursorY := _cursorY r |}.

Definition with_loadError (v : bool) (r : Region) : Region :=
  {| _name := _name r; _parent := _parent r; _imageLoc := _imageLoc r;
     _x := _x r; _y := _y r; _w := _w r; _h := _h r;
     _loaded := _loaded r; _loadError := v;
     _resizedByImage := _resizedByImage r; _image := _image r;
     _setted := _setted r; _tool := _tool r; _drawingLine := _drawingLine r;
     _cursorX := _cursorX r; _cursorY := _cursorY r |}.

Definition with_image (v : option ImageRef) (r : Region) : Region :=
  {| _name := _name r; _parent := _parent r; _imageLoc := _imageLoc r;
     _x := _x r; _y := _y r; _w := _w r; _h := _h r;
     _loaded := _loaded r; _loadError := _loadError r;
     _resizedByImage := _resizedByImage r; _image := v;
     _setted := _setted r; _tool := _tool r; _drawingLine := _drawingLine r;
     _cursorX := _cursorX r; _cursorY := _cursorY r |}.

(** The four fields written together by the listener set-up and removal. *)
Definition with_drawing (setted : bool) (tool : string) (drawingLine : bool)
    (cursor : Z * Z) (r : Region) : Region :=
  {| _name := _name r; _parent := _parent r; _imageLoc := _imageLoc r;
     _x := _x r; _y := _y r; _w := _w r; _h := _h r;
     _loaded := _loaded r; _loadError := _loadError r;
     _resizedByImage := _resizedByImage r; _image := _image r;
     _setted := setted; _tool := tool; _drawingLine := drawingLine;
     _cursorX := cursor.1; _cursorY := cursor.2 |}.

Definition with_regionHeap (h : RegionRef -> Region) (w : World) : World :=
  {| regionHeap := h; nextRegion := nextRegion w; imageHeap := imageHeap w;
     nextImage := nextImage w; _imageCache := _imageCache w |}.

Definition with_imageHeap (h : ImageRef -> Image) (w : World) : World :=
  {| regionHeap := regionHeap w; nextRegion := nextRegion w; imageHeap := h;
     nextImage := nextImage w; _imageCache := _imageCache w |}.

Definition get_region (r : RegionRef) : M Region :=
  fun w => (regionHeap w r, w, []).

Definition upd_region (r : RegionRef) (f : Region -> Region) : M unit :=
  fun w => (tt, with_regionHeap (<[r := f (regionHeap w r)]> (regionHeap w)) w, []).

Definition get_image (i : ImageRef) : M Image :=
  fun w => (imageHeap w i, w, []).

Definition upd_image (i : ImageRef) (f : Image -> Image) : M unit :=
  fun w => (tt, with_imageHeap (<[i := f (imageHeap w i)]> (imageHeap w)) w, []).

(** [new Image()]: a fresh element, no source, no size, no listeners. *)
Definition blank_Image : Image :=
  {| img_src := ""; img_width := 0; img_height := 0;
     img_listener := None; img_loading := false |}.

Definition new_Image : M ImageRef := fun w =>
  (nextImage w,
   {| regionHeap := regionHeap w; nextRegion := nextRegion w;
      imageHeap := <[nextImage w := blank_Image]> (imageHeap w);
      nextImage := S (nextImage w); _imageCache := _imageCache w |},
   []).

(** A region object before its constructor has run. *)
Definition blank_Region : Region :=
  {| _name := ""; _parent := None; _imageLoc := "";
     _x := 0; _y := 0; _w := 0; _h := 0;
     _loaded := false; _loadError := false;
     _resizedByImage := false; _image := None;
     _setted := false; _tool := ""; _drawingLine := false;
     _cursorX := -1; _cursorY := -1 |}.

Definition alloc_Region (init : Region) : M RegionRef := fun w =>
  (nextRegion w,
   {| regionHeap := <[nextRegion w := init]> (regionHeap w);
      nextRegion := S (nextRegion w);
      imageHeap := imageHeap w; nextImage := nextImage w;
      _imageCache := _imageCache w |},
   []).

(** The state of a page in which nothing has been created yet. *)
Definition empty_World : World :=
  {| regionHeap := fun _ => blank_Region; nextRegion := 0%nat;
     imageHeap := fun _ => blank_Image; nextImage := 0%nat;
     _imageCache := ∅ |}.

(** Modelled from the spec: [Err.emit] ([Err.ts] is not among the sources).
    The spec calls it a non-fatal diagnostic channel: the message is
    reported and the call returns.  The sources agree: in
    [FSMInteractor.startLoadFromJson] the statements after [Err.emit(...)]
    reset [_fsm] and return. *)
Definition Err_emit (msg : string) : M unit := emit (ErrEmit msg).

(** ** Class [Region] *)

Module Region.

(** [pick(localX, localY)]: the point is given in the region's own
    coordinates. *)
Definition pick (rg : Region) (localX localY : Z) : bool :=
  (0 <=? localX) && (localX <=? _w rg) && (0 <=? localY) && (localY <=? _h rg).

(** [damage()]: pass the notification to the parent FSM, when there is one. *)
Definition damage (r : RegionRef) : M unit :=
  emit (RegionDamage r);;
  rg ← get_region r;
  match _parent rg with
  | Some p => emit (FSMDamage p)
  | None => mret tt
  end.

(** The setters [set x], [set y], [set w], [set h], [set size],
    [set parent]. *)
Definition set_x (r : RegionRef) (v : Z) : M unit :=
  rg ← get_region r;
  if bool_decide (_x rg = v) then mret tt
  else upd_region r (with_x v);; damage r.

Definition set_y (r : RegionRef) (v : Z) : M unit :=
  rg ← get_region r;
  if bool_decide (_y rg = v) then mret tt
  else upd_region r (with_y v);; damage r.

Definition set_w (r : RegionRef) (v : Z) : M unit :=
  rg ← get_region r;
  if bool_decide (_w rg = v) then mret tt
  else upd_region r (with_w v);; damage r.

Definition set_h (r : RegionRef) (v : Z) : M unit :=
  rg ← get_region r;
  if bool_decide (_h rg = v) then mret tt
  else upd_region r (with_h v);; damage r.

Definition set_size (r : RegionRef) (v : Z * Z) : M unit :=
  rg ← get_region r;
  if bool_decide (v.1 ≠ _w rg) || bool_decide (v.2 ≠ _h rg) then
    upd_region r (with_w v.1);;
    upd_region r (with_h v.2);;
    damage r
  else mret tt.

Definition set_parent (r : RegionRef) (v : option FSMRef) : M unit :=
  rg ← get_region r;
  if bool_decide (_parent rg = v) then mret tt
  else upd_region r (with_parent v);; damage r.

(** [_resizeFromImage()] *)
Definition _resizeFromImage (r : RegionRef) : M unit :=
  rg ← get_region r;
  match _image rg with
  | Some i =>
      if _resizedByImage rg && _loaded rg then
        im ← get_image i;
        set_size r (img_width im, img_height im)
      else mret tt
  | None => mret tt
  end.

(** The static cache methods. *)
Definition _imageIsCached (imageLoc : string) : M bool :=
  fun w => (bool_decide (is_Some (_imageCache w !! imageLoc)), w, []).

Definition _imageFromCache (imageLoc : string) : M (option ImageRef) :=
  fun w => (default None (_imageCache w !! imageLoc), w, []).

Definition _cacheImage (imageLoc : string) (img : option ImageRef) : M unit :=
  fun w =>
    (tt,
     {| regionHeap := regionHeap w; nextRegion := nextRegion w;
        imageHeap := imageHeap w; nextImage := nextImage w;
        _imageCache := <[imageLoc := img]> (_imageCache w) |},
     []).

(** [_startImageLoad()], up to its [await].  In the last branch the method
    leaves a pending load behind: the image carries the two closures and
    its [src] has been assigned. *)
Definition _startImageLoad (r : RegionRef) : M unit :=
  rg ← get_region r;
  if bool_decide (_imageLoc rg = "") then
    upd_region r (with_image None);;
    upd_region r (with_loaded true);;
    upd_region r (with_loadError false);;
    _resizeFromImage r;;
    damage r
  else
    cached ← _imageIsCached (_imageLoc rg);
    if cached : bool then
      img ← _imageFromCache (_imageLoc rg);
      upd_region r (with_image img);;
      upd_region r (with_loaded true);;
      upd_region r (with_loadError false);;
      _resizeFromImage r;;
      damage r
    else
      i ← new_Image;
      upd_region r (with_image (Some i));;
      upd_region r (with_loaded false);;
      upd_region r (with_loadError false);;
      (* img.onload = ...; img.onerror = ...; img.src = this._imageLoc *)
      upd_image i (fun im =>
        {| img_src := _imageLoc rg; img_width := img_width im;
           img_height := img_height im; img_listener := Some r;
           img_loading := true |});;
      emit (ImageRequest i (_imageLoc rg)).

(** The statements of [_startImageLoad] after the [await]; they run when
    the awaited promise is resolved. *)
Definition _startImageLoad_resume (r : RegionRef) : M unit :=
  rg ← get_region r;
  _cacheImage (_imageLoc rg) (if _loadError rg then None else _image rg);;
  damage r.

(** The browser finished loading image [i], of natural size [nw] x [nh]:
    the [onload] closure runs ([resolve], then the two statements after
    it), and the resolved promise resumes [_startImageLoad]. *)
Definition img_onload (i : ImageRef) (nw nh : Z) : M unit :=
  im ← get_image i;
  if img_loading im then
    upd_image i (fun im =>
      {| img_src := img_src im; img_width := nw; img_height := nh;
         img_listener := img_listener im; img_loading := false |});;
    match img_listener im with
    | Some r =>
        upd_region r (with_loaded true);;
        _resizeFromImage r;;
        _startImageLoad_resume r
    | None => mret tt
    end
  else mret tt.

(** The browser failed to load image [i]: the [onerror] closure runs.  It
    calls [reject], so the [await] throws inside [_startImageLoad], which
    has no handler: the statements after the [await] are never run. *)
Definition img_onerror (i : ImageRef) : M unit :=
  im ← get_image i;
  if img_loading im then
    upd_image i (fun im =>
      {| img_src := img_src im; img_width := img_width im;
         img_height := img_height im;
         img_listener := img_listener im; img_loading := false |});;
    match img_listener im with
    | Some r =>
        upd_region r (with_loadError true);;
        upd_region r (with_loaded true);;
        rg ← get_region r;
        Err_emit ("Load of image from " +:+ _imageLoc rg +:+ " failed")
    | None => mret tt
    end
  else mret tt.

(** [set imageLoc] *)
Definition set_imageLoc (r : RegionRef) (v : string) : M unit :=
  rg ← get_region r;
  if bool_decide (v ≠ _imageLoc rg) then
    upd_region r (with_imageLoc v);;
    _startImageLoad r
  else mret tt.

(** The constructor. *)
Definition new (name imageLoc : string) (x y w h : Z)
    (parent : option FSMRef) : M RegionRef :=
  let resizedByImage := (w <? 0) || (h <? 0) in
  let w := if w <? 0 then 0 else w in
  let h := if h <? 0 then 0 else h in
  r ← alloc_Region
        {| _name := name; _parent := parent; _imageLoc := imageLoc;
           _x := x; _y := y; _w := w; _h := h;
           _loaded := false; _loadError := false;
           _resizedByImage := resizedByImage; _image := None;
           _setted := false; _tool := ""; _drawingLine := false;
           _cursorX := -1; _cursorY := -1 |};
  _startImageLoad r;;
  mret r.

(** [startDraw(type)], with [_setupCanvasEventHandlers] inlined. *)
Definition startDraw (r : RegionRef) (type : string) : M unit :=
  rg ← get_region r;
  if _setted rg then mret tt
  else
    upd_region r (fun rg =>
      with_drawing true type (_drawingLine rg) (_cursorX rg, _cursorY rg) rg);;
    emit (AddListeners r type).

(** [removeListeners()] *)
Definition removeListeners (r : RegionRef) : M unit :=
  emit (RemoveListeners r);;
  upd_region r (with_drawing false "" false (-1, -1)).

(** [showColorWheel(evt)] and [moveMenu(regionLs)] build DOM widgets and
    install document listeners; nothing of the region changes during the
    call. *)
Definition showColorWheel (r : RegionRef) (evt : option MouseEvent) : M unit :=
  emit (ShowColorWheel r evt).

Definition moveMenu (r : RegionRef) (regionLs : list RegionRef) : M unit :=
  emit (MoveMenu r regionLs).

End Region.

(** Number of [Region.damage()] calls on [r] in an output. *)
Definition is_RegionDamage (r : RegionRef) (e : Effect) : bool :=
  match e with
  | RegionDamage r' => bool_decide (r' = r)
  | _ => false
  end.

Definition damage_calls (r : RegionRef) (es : list Effect) : nat :=
  length (List.filter (is_RegionDamage r) es).

Definition is_ImageRequest (e : Effect) : bool :=
  match e with ImageRequest _ _ => true | _ => false end.

Definition image_requests (es : list Effect) : nat :=
  length (List.filter is_ImageRequest es).

(** ** Class [Action] *)

(** How a method call ends. *)
Inductive Completion :=
| Normal
| Throw (msg : string).

Module Action.

Record t := {
  _actType : string;
  _onRegionName : string;
  _param : string;
  _onRegion : option RegionRef;
  _regionLs : list RegionRef
}.

(** [new Action(actType, regionName, param)] *)
Definition new (actType regionName param : string) : t :=
  {| _actType := actType; _onRegionName := regionName; _param := param;
     _onRegion := None; _regionLs := [] |}.


(** [this.onRegion?.m(...)] and [if (this.onRegion) {...}] *)
Definition on_region (a : t) (m : RegionRef -> M unit) : M unit :=
  match _onRegion a with
  | Some r => m r
  | None => mret tt
  end.

(** A [switch] over strings in which every [case] ends in [break]. *)
Fixpoint switch {A} (s : string) (cases : list (string * A)) (dflt : A) : A :=
  match cases with
  | [] => dflt
  | (label, body) :: rest =>
      if bool_decide (s = label) then body else switch s rest dflt
  end.

Definition log (args : list LogArg) : M unit := emit (ConsoleLog args).

(** The [case]s of [execute] in [Action.ts]. *)
Definition execute_cases (a : t) (evtType : EventType)
    (evtReg : option RegionRef) (evt : option MouseEvent)
  : list (string * M unit) :=
  [ ("set_image", on_region a (fun r => Region.set_imageLoc r (_param a)));
    ("clear_image", on_region a (fun r => Region.set_imageLoc r ""));
    ("print", log [LogStr (_param a)]);
    ("print_event",
       fun w =>
         log [LogStr "Current event: "; LogStr (_param a);
              LogStr (EventType_str evtType);
              LogRegionDebug (regionHeap w <$> evtReg)] w);
    ("draw_line",
       log [LogStr "action: draw_line"];;
       on_region a (fun r => Region.startDraw r "line"));
    ("draw_rect",
       log [LogStr "action: draw_rect"];;
       on_region a (fun r => Region.startDraw r "rect"));
    ("draw_circle",
       log [LogStr "action: draw_circle"];;
       on_region a (fun r => Region.startDraw r "circle"));
    ("erase",
       log [LogStr "action: erase"];;
       on_region a (fun r => Region.startDraw r "erase"));
    ("stopCurrentDrawing",
       log [LogStr "stopCurrentDrawing"];;
       on_region a Region.removeListeners);
    ("select_color", on_region a (fun r => Region.showColorWheel r evt));
    ("draw_free",
       log [LogStr "action: draw free"];;
       on_region a (fun r => Region.startDraw r "free"));
    ("move_menu", on_region a (fun r => Region.moveMenu r (_regionLs a))) ].

(** [execute(evtType, evtReg, evt)] of [Action.ts].  Its [switch] has no
    [default] clause. *)
Definition execute (a : t) (evtType : EventType) (evtReg : option RegionRef)
    (evt : option MouseEvent) : M Completion :=
  if bool_decide (_actType a = "none") then mret Normal
  else
    log [LogStr "evtType:"; LogStr (EventType_str evtType)];;
    log [LogStr "actType:"; LogStr (_actType a)];;
    switch (_actType a) (execute_cases a evtType evtReg evt) (mret tt);;
    mret Normal.

(** [execute] as it stands in the compiled [Action.js] kept next to the
    sources, which was built from an earlier revision of [Action.ts]: fewer
    cases, and a [default] clause that throws.  The region methods called
    are those of [Region] above. *)
Definition execute_js_cases (a : t) (evtType : EventType)
    (evtReg : option RegionRef) (evt : option MouseEvent)
  : list (string * M Completion) :=
  let done (m : M unit) : M Completion := m;; mret Normal in
  [ ("set_image", done (on_region a (fun r => Region.set_imageLoc r (_param a))));
    ("clear_image", done (on_region a (fun r => Region.set_imageLoc r "")));
    ("print", done (log [LogStr (_param a)]));
    ("print_event",
       done (fun w =>
         log [LogStr "Current event: "; LogStr (_param a);
              LogStr (EventType_str evtType);
              LogRegionDebug (regionHeap w <$> evtReg)] w));
    ("draw_line",
       done (log [LogStr "action: draw_line"];;
             on_region a (fun r => Region.startDraw r "line")));
    ("draw_rect",
       done (log [LogStr "action: draw_rect"];;
             on_region a (fun r => Region.startDraw r "rect")));
    ("draw_circle",
       done (log [LogStr "action: draw_circle"];;
             on_region a (fun r => Region.startDraw r "circle")));
    ("erase",
       done (log [LogStr "action: erase"];;
             on_region a (fun r => Region.startDraw r "erase")));
    ("stopCurrentDrawing",
       done (log [LogStr "stopCurrentDrawing"];;
             on_region a Region.removeListeners));
    ("select_color", done (on_region a (fun r => Region.showColorWheel r evt))) ].

Definition execute_js (a : t) (evtType : EventType) (evtReg : option RegionRef)
    (evt : option MouseEvent) : M Completion :=
  if bool_decide (_actType a = "none") then mret Normal
  else
    log [LogStr (EventType_str evtType)];;
    log [LogStr (_actType a)];;
    switch (_actType a) (execute_js_cases a evtType evtReg evt)
      (mret (Throw ("Unknown action type: " +:+ _actType a))).

(** The [for ... of] loop of [bindRegion]: the first region of the list
    whose name is the action's region name. *)
Fixpoint bindRegion_loop (a : t) (regionList : list RegionRef)
  : M (option RegionRef) :=
  match regionList with
  | [] => mret None
  | region :: rest =>
      rg ← get_region region;
      if bool_decide (_name rg = _onRegionName a) then mret (Some region)
      else bindRegion_loop a rest
  end.

(** [bindRegion(regionList)]; the result is the action object after the
    call. *)
Definition bindRegion (a : t) (regionList : list RegionRef) : M t :=
  let a :=
    {| _actType := _actType a; _onRegionName := _onRegionName a;
       _param := _param a; _onRegion := _onRegion a;
       _regionLs := regionList |} in
  found ← bindRegion_loop a regionList;
  match found with
  | Some region =>
      mret {| _actType := _actType a; _onRegionName := _onRegionName a;
              _param := _param a; _onRegion := Some region;
              _regionLs := _regionLs a |}
  | None =>
      if bool_decide (_actType a = "none") || bool_decide (_actType a = "print")
         || bool_decide (_actType a = "print_event")
      then
        mret {| _actType := _actType a; _onRegionName := _onRegionName a;
                _param := _param a; _onRegion := None;
                _regionLs := _regionLs a |}
      else
        Err_emit ("Region '" +:+ _onRegionName a
                  +:+ "' in action does not match any region.");;
        mret a
  end.

End Action.

(** ** Class [FSM], as far as [FSMInteractor] uses it *)

(** [FSM.ts] is not among the sources.  [FSMInteractor] reads
    [fsm.regions], the regions in drawing order, and calls
    [fsm.actOnEvent(evtType, region?, evt?)], which may change the FSM
    object, the regions and the image cache and may produce output. *)
Class FSMClass := {
  FSM : Type;
  regions : FSM -> list RegionRef;
  actOnEvent :
    FSM -> EventType -> option RegionRef -> option MouseEvent -> M FSM
}.

(** ** Class [FSMInteractor] *)

(** The first argument of [dispatchRawEvent]. *)
Inductive RawEvent := Press | Move | Release | RightClick.

(** One call [fsm.actOnEvent(evtType, region, evt)]. *)
Record Call := {
  call_type : EventType;
  call_region : option RegionRef;
  call_evt : option MouseEvent
}.

#[global] Instance Call_eq_dec : EqDecision Call.
Proof. solve_decision. Defined.

Module FSMInteractor.
Section WithFSM.
Context `{FSMClass}.

(** The object's fields, under the names of their getters. *)
Record t := {
  fsm : option FSM;
  x : Z;
  y : Z;
  parent : option RootRef;
  bookkeeping : list RegionRef
}.

(** The constructor; [_bookkeeping] starts as the empty array.  (The back
    reference [fsm.parent = this] is a field of the FSM object.) *)
Definition new (fsm0 : option FSM) (x0 y0 : Z) (parent0 : option RootRef) : t :=
  {| fsm := fsm0; x := x0; y := y0; parent := parent0; bookkeeping := [] |}.

(** [damage()] *)
Definition damage (it : t) : M unit :=
  match parent it with
  | Some p => emit (RootDamage p)
  | None => mret tt
  end.

(** The loop of [pick]: [pickList.unshift(region)] puts a picked region at
    the front of the list built so far. *)
Fixpoint pick_loop (heap : RegionRef -> Region) (rs : list RegionRef)
    (localX localY : Z) (pickList : list RegionRef) : list RegionRef :=
  match rs with
  | [] => pickList
  | region :: rest =>
      let regionX := localX - _x (heap region) in
      let regionY := localY - _y (heap region) in
      if Region.pick (heap region) regionX regionY
      then pick_loop heap rest localX localY (region :: pickList)
      else pick_loop heap rest localX localY pickList
  end.

(** [pick(localX, localY)]; it only reads the regions. *)
Definition pick (it : t) (localX localY : Z) (w : World) : list RegionRef :=
  match fsm it with
  | None => []
  | Some f => pick_loop (regionHeap w) (regions f) localX localY []
  end.

(** [rs.forEach(x => fsm.actOnEvent(evtType, x, evt))].  The FSM object is
    threaded through the calls, and each call is appended to the record of
    the calls made so far. *)
Fixpoint forEach_actOnEvent (evtType : EventType) (evt : option MouseEvent)
    (rs : list RegionRef) (st : FSM * list Call) : M (FSM * list Call) :=
  match rs with
  | [] => mret st
  | r :: rest =>
      f ← actOnEvent st.1 evtType (Some r) evt;
      forEach_actOnEvent evtType evt rest
        (f, st.2 ++ [{| call_type := evtType; call_region := Some r;
                        call_evt := evt |}])
  end.

(** [this.bookkeeping = v] where [v] is an array created during the call,
    hence never [===] to the array held before: the setter stores it and
    declares damage. *)
Definition set_bookkeeping (it : t) (f : FSM) (v : list RegionRef) : M t :=
  let it' := {| fsm := Some f; x := x it; y := y it; parent := parent it;
                bookkeeping := v |} in
  damage it';;
  mret it'.

(** The [switch (what)] statement of [dispatchRawEvent]. *)
Definition switch_what (what : RawEvent) (evt : MouseEvent)
    (currRegions : list RegionRef) (st : FSM * list Call)
  : M (FSM * list Call) :=
  match what with
  | RightClick => forEach_actOnEvent rightClick (Some evt) currRegions st
  | Press => forEach_actOnEvent press None currRegions st
  | Move => forEach_actOnEvent move_inside None currRegions st
  | Release =>
      if bool_decide (0 < length currRegions)%nat then
        forEach_actOnEvent release None currRegions st
      else
        f ← actOnEvent st.1 release_none None None;
        mret (f, st.2 ++ [{| call_type := release_none;
                             call_region := None; call_evt := None |}])
  end.

(** [dispatchRawEvent(what, localX, localY, evt)].  The result is the
    interactor after the call together with the calls made to
    [fsm.actOnEvent], in the order they were made. *)
Definition dispatchRawEvent (it : t) (what : RawEvent) (localX localY : Z)
    (evt : MouseEvent) : M (t * list Call) :=
  match fsm it with
  | None => mret (it, [])
  | Some f =>
      currRegions ← (fun w => (pick it localX localY w, w, []));
      let enterRegions := filter (fun x => x ∉ bookkeeping it) currRegions in
      let exitRegions := filter (fun y => y ∉ currRegions) (bookkeeping it) in
      st ← forEach_actOnEvent exit None exitRegions (f, []);
      st ← forEach_actOnEvent enter None enterRegions st;
      st ← switch_what what evt currRegions st;
      it' ← set_bookkeeping it st.1 currRegions;
      mret (it', st.2)
  end.

End WithFSM.
End FSMInteractor.

(** ** Vocabulary of the properties *)

(** A list of regions is in reverse drawing order when it can be obtained
    from the reversed region list of the FSM by dropping elements. *)
Definition reverse_draw_order `{FSMClass} (f : FSM) (l : list RegionRef) : Prop :=
  l `sublist_of` reverse (regions f).

(** The calls of one kind made on each region of a list, in list order. *)
Definition calls_on (evtType : EventType) (evt : option MouseEvent)
    (rs : list RegionRef) : list Call :=
  (fun r => {| call_type := evtType; call_region := Some r; call_evt := evt |})
    <$> rs.

(** An FSM double that keeps its regions and records the events it is
    sent: enough to run the dispatcher on concrete inputs. *)
Definition recording_FSM : FSMClass :=
  {| FSM := list RegionRef * list Call;
     regions := fst;
     actOnEvent := fun f evtType region evt =>
       mret (f.1, f.2 ++ [{| call_type := evtType; call_region := region;
                             call_evt := evt |}]) |}.

(** A page with two overlapping regions without image: [A] (reference 0)
    is the box from (0,0) to (10,10), and [B] (reference 1), drawn after
    it, the box from (5,5) to (15,15). *)
Definition two_regions : World :=
  world_of
    ((Region.new "A" "" 0 0 10 10 None;;
      Region.new "B" "" 5 5 10 10 None) empty_World).

(** What [dispatchRawEvent] sends after the exit and enter events, for a
    raw event [what] and the regions [cur] under the pointer. *)
Definition kind_calls (what : RawEvent) (evt : MouseEvent)
    (cur : list RegionRef) : list Call :=
  match what with
  | Press => calls_on press None cur
  | Move => calls_on move_inside None cur
  | RightClick => calls_on rightClick (Some evt) cur
  | Release =>
      match cur with
      | [] => [{| call_type := release_none; call_region := None;
                  call_evt := None |}]
      | _ :: _ => calls_on release None cur
      end
  end.

(** Making a list of calls on the FSM, one after the other. *)
Fixpoint feed `{FSMClass} (cs : list Call) (f : FSM) : M FSM :=
  match cs with
  | [] => mret f
  | c :: rest =>
      f' ← actOnEvent f (call_type c) (call_region c) (call_evt c);
      feed rest f'
  end.

(** The regions of the interactor's FSM, in drawing order. *)
Definition drawn `{FSMClass} (it : FSMInteractor.t) : list RegionRef :=
  match FSMInteractor.fsm it with
  | Some f => regions f
  | None => []
  end.

(** The point [(localX, localY)] of the interactor lies in the box of
    region [r]. *)
Definition under (w : World) (localX localY : Z) (r : RegionRef) : Prop :=
  Region.pick (regionHeap w r)
    (localX - _x (regionHeap w r)) (localY - _y (regionHeap w r)) = true.

#[global] Instance under_dec w lx ly r : Decision (under w lx ly r).
Proof. unfold under. apply _. Defined.

Section DispatchVocabulary.
Context `{FSMClass}.

(** The regions left and the regions entered between two frames. *)
Definition exited (it : FSMInteractor.t) (cur : list RegionRef) : list RegionRef :=
  filter (fun y => y ∉ cur) (FSMInteractor.bookkeeping it).

Definition entered (it : FSMInteractor.t) (cur : list RegionRef) : list RegionRef :=
  filter (fun x => x ∉ FSMInteractor.bookkeeping it) cur.

Definition all_calls (it : FSMInteractor.t) (what : RawEvent) (evt : MouseEvent)
    (cur : list RegionRef) : list Call :=
  calls_on exit None (exited it cur)
  ++ calls_on enter None (entered it cur)
  ++ kind_calls what evt cur.


End DispatchVocabulary.

(** The action types that need no region. *)
Definition region_optional (actType : string) : Prop :=
  actType ∈ ["none"; "print"; "print_event"].


(** The invariant: a region whose load failed counts as loaded. *)
Definition load_flags_ok (w : World) : Prop :=
  forall r, _loadError (regionHeap w r) = true -> _loaded (regionHeap w r) = true.

(** A computation keeps the invariant. *)
Definition keeps {A} (m : M A) : Prop :=
  forall w, load_flags_ok w -> load_flags_ok (world_of (m w)).

(** The operations on regions, as the rest of the program and the browser
    can perform them. *)
Inductive Op :=
| OpNew (name imageLoc : string) (x y w h : Z) (parent : option FSMRef)
| OpSetX (r : RegionRef) (v : Z)
| OpSetY (r : RegionRef) (v : Z)
| OpSetW (r : RegionRef) (v : Z)
| OpSetH (r : RegionRef) (v : Z)
| OpSetSize (r : RegionRef) (v : Z * Z)
| OpSetParent (r : RegionRef) (v : option FSMRef)
| OpSetImageLoc (r : RegionRef) (v : string)
| OpStartDraw (r : RegionRef) (type : string)
| OpRemoveListeners (r : RegionRef)
| OpExecute (a : Action.t) (evtType : EventType) (evtReg : option RegionRef)
    (evt : option MouseEvent)
| OpImgLoad (i : ImageRef) (nw nh : Z)
| OpImgError (i : ImageRef).

Definition step (op : Op) : M unit :=
  match op with
  | OpNew name imageLoc x y w h parent =>
      Region.new name imageLoc x y w h parent;; mret tt
  | OpSetX r v => Region.set_x r v
  | OpSetY r v => Region.set_y r v
  | OpSetW r v => Region.set_w r v
  | OpSetH r v => Region.set_h r v
  | OpSetSize r v => Region.set_size r v
  | OpSetParent r v => Region.set_parent r v
  | OpSetImageLoc r v => Region.set_imageLoc r v
  | OpStartDraw r type => Region.startDraw r type
  | OpRemoveListeners r => Region.removeListeners r
  | OpExecute a evtType evtReg evt =>
      Action.execute a evtType evtReg evt;; mret tt
  | OpImgLoad i nw nh => Region.img_onload i nw nh
  | OpImgError i => Region.img_onerror i
  end.

Fixpoint run (ops : list Op) : M unit :=
  match ops with
  | [] => mret tt
  | op :: rest => step op;; run rest
  end.

(** [m], run from [w], ends with a result, a state and an output that
    satisfy [Q]. *)
Definition ends {A} (m : M A) (w : World)
    (Q : A -> World -> list Effect -> Prop) : Prop :=
  Q (result (m w)) (world_of (m w)) (effects_of (m w)).

(** What the rest of a region's state is, apart from its box. *)
Definition load_state (rg : Region)
  : string * bool * bool * option ImageRef * option FSMRef :=
  (_imageLoc rg, _loaded rg, _loadError rg, _image rg, _parent rg).

(** What [damage()] passes on for a region with parent [p]. *)
Definition parent_damage (p : option FSMRef) : list Effect :=
  match p with
  | Some p => [FSMDamage p]
  | None => []
  end.

(** [set size] and [_resizeFromImage] change the box of [r] and nothing
    else, and request no image. *)
Definition only_resized (r : RegionRef) (w : World)
    (_ : unit) (w' : World) (es : list Effect) : Prop :=
  image_requests es = 0%nat
  /\ load_state (regionHeap w' r) = load_state (regionHeap w r)
  /\ _imageCache w' = _imageCache w
  /\ nextImage w' = nextImage w.

(** The four numeric properties, to state their setters' behaviour once. *)
Inductive NumField := Fx | Fy | Fw | Fh.

Definition num_get (fld : NumField) (rg : Region) : Z :=
  match fld with
  | Fx => _x rg | Fy => _y rg | Fw => _w rg | Fh => _h rg
  end.

Definition num_with (fld : NumField) (v : Z) (rg : Region) : Region :=
  match fld with
  | Fx => with_x v rg | Fy => with_y v rg
  | Fw => with_w v rg | Fh => with_h v rg
  end.

Definition num_set (fld : NumField) : RegionRef -> Z -> M unit :=
  match fld with
  | Fx => Region.set_x | Fy => Region.set_y
  | Fw => Region.set_w | Fh => Region.set_h
  end.

(** The scenario of C2: a region asks for a location, the load fails, and
    a second region asks for the same location. *)
Definition second_region_after_failure (loc : string)
  : M (RegionRef * RegionRef) :=
  r1 ← Region.new "first" loc 0 0 10 10 None;
  rg1 ← get_region r1;
  match _image rg1 with
  | Some i => Region.img_onerror i
  | None => mret tt
  end;;
  r2 ← Region.new "second" loc 0 0 10 10 None;
  mret (r1, r2).

(** ** The other setters of [FSMInteractor] *)

Module FSMInteractorSetters.
Section WithFSM.
Context `{FSMClass}.

(** [set x], [set y] *)
Definition set_x (it : FSMInteractor.t) (v : Z) : M FSMInteractor.t :=
  if bool_decide (FSMInteractor.x it = v) then mret it
  else
    let it' := {| FSMInteractor.fsm := FSMInteractor.fsm it;
                  FSMInteractor.x := v;
                  FSMInteractor.y := FSMInteractor.y it;
                  FSMInteractor.parent := FSMInteractor.parent it;
                  FSMInteractor.bookkeeping := FSMInteractor.bookkeeping it |} in
    FSMInteractor.damage it';; mret it'.

Definition set_y (it : FSMInteractor.t) (v : Z) : M FSMInteractor.t :=
  if bool_decide (FSMInteractor.y it = v) then mret it
  else
    let it' := {| FSMInteractor.fsm := FSMInteractor.fsm it;
                  FSMInteractor.x := FSMInteractor.x it;
                  FSMInteractor.y := v;
                  FSMInteractor.parent := FSMInteractor.parent it;
                  FSMInteractor.bookkeeping := FSMInteractor.bookkeeping it |} in
    FSMInteractor.damage it';; mret it'.

(** [set position]: its last statement, [this.parent?.damage;], reads the
    method and does not call it. *)
Definition set_position (it : FSMInteractor.t) (v : Z * Z) : M FSMInteractor.t :=
  if bool_decide (v.1 ≠ FSMInteractor.x it) || bool_decide (v.2 ≠ FSMInteractor.y it)
  then
    mret {| FSMInteractor.fsm := FSMInteractor.fsm it;
            FSMInteractor.x := v.1;
            FSMInteractor.y := v.2;
            FSMInteractor.parent := FSMInteractor.parent it;
            FSMInteractor.bookkeeping := FSMInteractor.bookkeeping it |}
  else mret it.

(** [set parent]: [damage()] runs after the assignment, on the new parent. *)
Definition set_parent (it : FSMInteractor.t) (v : option RootRef)
  : M FSMInteractor.t :=
  if bool_decide (FSMInteractor.parent it = v) then mret it
  else
    let it' := {| FSMInteractor.fsm := FSMInteractor.fsm it;
                  FSMInteractor.x := FSMInteractor.x it;
                  FSMInteractor.y := FSMInteractor.y it;
                  FSMInteractor.parent := v;
                  FSMInteractor.bookkeeping := FSMInteractor.bookkeeping it |} in
    FSMInteractor.damage it';; mret it'.

End WithFSM.
End FSMInteractorSetters.

(** What an interactor with parent [p] passes on when it declares damage. *)
Definition root_damage (p : option RootRef) : list Effect :=
  match p with
  | Some p => [RootDamage p]
  | None => []
  end.



(** Region [r] of [w'] is [g] of what it was in [w], and the other regions
    are as they were. *)
Definition updated (r : RegionRef) (g : Region -> Region) (w w' : World) : Prop :=
  regionHeap w' r = g (regionHeap w r)
  /\ forall r', r' <> r -> regionHeap w' r' = regionHeap w r'.

(** A region with the size [v]. *)
Definition with_size (v : Z * Z) (rg : Region) : Region :=
  with_h v.2 (with_w v.1 rg).

(** What [_resizeFromImage] makes of a region, given the images of [w]. *)
Definition resize_to (w : World) (rg : Region) : Region :=
  match _image rg with
  | Some i =>
      if _resizedByImage rg && _loaded rg
      then with_size (img_width (imageHeap w i), img_height (imageHeap w i)) rg
      else rg
  | None => rg
  end.

(** The position and the size of a region. *)
Definition box (rg : Region) : Z * Z * Z * Z := (_x rg, _y rg, _w rg, _h rg).

(** A region that takes the cache entry [img] as its image: loaded, no
    error, and resized to the image when it follows its image's size. *)
Definition adopt (w : World) (img : option ImageRef) (rg : Region) : Region :=
  resize_to w (with_loadError false (with_loaded true (with_image img rg))).

(** An image element once its load has ended: with its natural size when
    it succeeded, as it was when it failed. *)
Definition loaded_Image (nw nh : Z) (im : Image) : Image :=
  {| img_src := img_src im; img_width := nw; img_height := nh;
     img_listener := img_listener im; img_loading := false |}.

Definition failed_Image (im : Image) : Image :=
  {| img_src := img_src im; img_width := img_width im;
     img_height := img_height im;
     img_listener := img_listener im; img_loading := false |}.

(** A page on which region [A] (reference 0), which follows the size of its
    image, has loaded ["./a.png"] (image 0, 40 by 50), and region [B]
    (reference 1) has no image. *)
Definition loaded_page : World :=
  world_of
    ((Region.new "A" "./a.png" 0 0 (-1) (-1) None;;
      Region.img_onload 0%nat 40 50;;
      Region.new "B" "" 5 5 (-1) (-1) None) empty_World).

(** A page on which region [A] (reference 0), which follows the size of its
    image, waits for ["./a.png"] (image 0). *)
Definition pending_page : World :=
  world_of (Region.new "A" "./a.png" 0 0 (-1) (-1) None empty_World).

(** ** What an operation leaves as it was *)

(** [m] takes every state to one that is [R]-related to it. *)
Definition always {A} (R : World -> World -> Prop) (m : M A) : Prop :=
  forall w, R w (world_of (m w)).

(** A change of a region record that keeps its name, its parent, its
    position and the way it takes its size. *)
Definition inert (f : Region -> Region) : Prop :=
  forall rg,
    (_name (f rg), _parent (f rg), _x (f rg), _y (f rg), _resizedByImage (f rg))
    = (_name rg, _parent rg, _x rg, _y rg, _resizedByImage rg).

(** From [w] to [w'] nothing that existed was given up: no object
    disappeared; a region kept its name and the way it takes its size; an
    image element kept its source and the region it notifies, and is as it
    was if its load had ended; a location in the cache stayed in it. *)
Definition lasting (w w' : World) : Prop :=
  (nextRegion w <= nextRegion w')%nat
  /\ (nextImage w <= nextImage w')%nat
  /\ (forall r, (r < nextRegion w)%nat ->
        _name (regionHeap w' r) = _name (regionHeap w r)
        /\ _resizedByImage (regionHeap w' r) = _resizedByImage (regionHeap w r))
  /\ (forall i, (i < nextImage w)%nat ->
        img_src (imageHeap w' i) = img_src (imageHeap w i)
        /\ img_listener (imageHeap w' i) = img_listener (imageHeap w i)
        /\ (img_loading (imageHeap w i) = false ->
              imageHeap w' i = imageHeap w i))
  /\ (forall loc, is_Some (_imageCache w !! loc) ->
        is_Some (_imageCache w' !! loc)).

(** From [w] to [w'] no region was created, the cache is as it was, no
    region but [bound] changed, and [bound] kept its name, its parent, its
    position and the way it takes its size. *)
Definition within (bound : option RegionRef) (w w' : World) : Prop :=
  _imageCache w' = _imageCache w
  /\ nextRegion w' = nextRegion w
  /\ forall r,
       (Some r <> bound -> regionHeap w' r = regionHeap w r)
       /\ (_name (regionHeap w' r), _parent (regionHeap w' r),
           _x (regionHeap w' r), _y (regionHeap w' r),
           _resizedByImage (regionHeap w' r))
          = (_name (regionHeap w r), _parent (regionHeap w r),
             _x (regionHeap w r), _y (regionHeap w r),
             _resizedByImage (regionHeap w r)).

(** Output on the console. *)
Definition is_ConsoleLog (e : Effect) : bool :=
  match e with
  | ConsoleLog _ => true
  | _ => false
  end.

(** [m] changes nothing and only writes on the console. *)
Definition only_logs {A} (m : M A) : Prop :=
  forall w, world_of (m w) = w /\ forallb is_ConsoleLog (effects_of (m w)) = true.

(** The branch of [_startImageLoad] that creates an image element for
    region [r] and requests [loc]. *)
Definition request_image (r : RegionRef) (loc : string) : M unit :=
  i ← new_Image;
  upd_region r (with_image (Some i));;
  upd_region r (with_loaded false);;
  upd_region r (with_loadError false);;
  upd_image i (fun im =>
    {| img_src := loc; img_width := img_width im;
       img_height := img_height im; img_listener := Some r;
       img_loading := true |});;
  emit (ImageRequest i loc).

(** ** Drawing by hand: the canvas listeners of [Region] *)

(** The two surfaces the listeners paint on: the canvas of the page
    ([this.canvas]) and the off-screen buffer ([this._bufferContext]). *)
Inductive Surface := Screen | Buffer.

(** What a listener does outside the region object.  The colour and the
    width of the stroke are left out, except that the eraser paints in
    white. *)
Inductive Paint :=
| Say (what : string) (tool : option string) (x y : Z)   (* [console.log] *)
| ClearScreen                 (* [ctx.clearRect(0, 0, innerWidth, innerHeight)] *)
| ShowBuffer                  (* [ctx.drawImage(this._bufferCanvas, 0, 0)] *)
| Segment (on : Surface) (white : bool) (x0 y0 x1 y1 : Z)
| Rectangle (on : Surface) (x y w h : Z)
| Ellipse (on : Surface) (x y rx ry : Z)    (* turned by a quarter of pi *).

(** What the browser delivers to the three listeners. *)
Inductive Mouse :=
| MouseDown (evt : MouseEvent)
| MouseMove (evt : MouseEvent)
| MouseUp (evt : MouseEvent).

Module RegionDrawing.

(** A listener runs on its region object and paints. *)
Definition Listener : Type := Region -> Region * list Paint.

Definition with_stroke (drawingLine : bool) (cursor : Z * Z) (rg : Region)
  : Region :=
  with_drawing (_setted rg) (_tool rg) drawingLine cursor rg.

(** [drawTools(ctx, evt)] *)
Definition drawTools (ctx : Surface) (evt : MouseEvent) : Listener := fun rg =>
  let moved := with_stroke (_drawingLine rg) (offsetX evt, offsetY evt) rg in
  Action.switch (_tool rg)
    [ ("line",
        (rg, [Segment ctx false (_cursorX rg) (_cursorY rg)
                (offsetX evt) (offsetY evt)]));
      ("rect",
        let width := offsetX evt - _cursorX rg in
        let height := offsetY evt - _cursorY rg in
        (rg, [Rectangle ctx (_cursorX rg) (_cursorY rg) width height]));
      ("circle",
        let w := offsetX evt - _cursorX rg in
        let h := offsetY evt - _cursorY rg in
        let w := if w <? 0 then 0 - w else w in
        let h := if h <? 0 then 0 - h else h in
        (rg, [Ellipse ctx (_cursorX rg) (_cursorY rg) w h]));
      ("erase",
        (moved, [Segment ctx true (_cursorX rg) (_cursorY rg)
                   (offsetX evt) (offsetY evt)]));
      ("free",
        (moved, [Segment ctx false (_cursorX rg) (_cursorY rg)
                   (offsetX evt) (offsetY evt)])) ]
    (rg, []).

(** [_onMouseDown(evt, tool)] *)
Definition _onMouseDown (evt : MouseEvent) (tool : string) : Listener := fun rg =>
  (with_stroke true (offsetX evt, offsetY evt) rg,
   [Say "mouse down:" (Some tool) (offsetX evt) (offsetY evt)]).

(** [_onMouseMove(evt, tool)].  The canvas context of a region is given to
    its constructor and is never absent, so [if (ctx)] is taken. *)
Definition _onMouseMove (evt : MouseEvent) (tool : string) : Listener := fun rg =>
  let said := Say "mouse move:" None (offsetX evt) (offsetY evt) in
  let rg :=
    if bool_decide (_cursorX rg = -1)
    then with_stroke true (offsetX evt, offsetY evt) rg
    else rg in
  if negb (_drawingLine rg) || bool_decide (_tool rg = "") then (rg, [said])
  else
    let '(rg', ps) :=
      if bool_decide (tool = "erase") || bool_decide (tool = "free")
      then drawTools Buffer evt rg
      else drawTools Screen evt rg in
    (rg', said :: ClearScreen :: ShowBuffer :: ps).

(** [_onMouseUp(evt)] *)
Definition _onMouseUp (evt : MouseEvent) : Listener := fun rg =>
  let rg := with_stroke false (_cursorX rg, _cursorY rg) rg in
  let '(rg', ps) := drawTools Buffer evt rg in
  (rg', Say "mouse up:" None (offsetX evt) (offsetY evt) :: ps).

End RegionDrawing.

(** The listeners that [_setupCanvasEventHandlers(tool)] installs, as the
    browser calls them. *)
Definition handle (tool : string) (m : Mouse) : RegionDrawing.Listener :=
  match m with
  | MouseDown evt => RegionDrawing._onMouseDown evt tool
  | MouseMove evt => RegionDrawing._onMouseMove evt tool
  | MouseUp evt => RegionDrawing._onMouseUp evt
  end.

Fixpoint gesture (tool : string) (ms : list Mouse) : RegionDrawing.Listener :=
  fun rg =>
    match ms with
    | [] => (rg, [])
    | m :: rest =>
        let '(rg1, ps) := handle tool m rg in
        let '(rg2, qs) := gesture tool rest rg1 in
        (rg2, ps ++ qs)
    end.

(** What has been painted on the buffer, which holds the drawing. *)
Definition on_buffer (p : Paint) : bool :=
  match p with
  | Segment Buffer _ _ _ _ _ | Rectangle Buffer _ _ _ _
  | Ellipse Buffer _ _ _ _ => true
  | _ => false
  end.

Definition kept (ps : list Paint) : list Paint := List.filter on_buffer ps.

(** The figure from [p0] to [p1] with one of the tools ["line"], ["rect"]
    and ["circle"]. *)
Definition figure (tool : string) (p0 p1 : MouseEvent) : Paint :=
  if bool_decide (tool = "line")
  then Segment Buffer false (offsetX p0) (offsetY p0) (offsetX p1) (offsetY p1)
  else if bool_decide (tool = "rect")
  then Rectangle Buffer (offsetX p0) (offsetY p0)
         (offsetX p1 - offsetX p0) (offsetY p1 - offsetY p0)
  else Ellipse Buffer (offsetX p0) (offsetY p0)
         (Z.abs (offsetX p1 - offsetX p0)) (Z.abs (offsetY p1 - offsetY p0)).

(** The segments that join the points of a list, one after the other. *)
Fixpoint polyline (white : bool) (p : MouseEvent) (ps : list MouseEvent)
  : list Paint :=
  match ps with
  | [] => []
  | q :: rest =>
      Segment Buffer white (offsetX p) (offsetY p) (offsetX q) (offsetY q)
      :: polyline white q rest
  end.

(** A region in the middle of a stroke that began at [(x0, y0)]. *)
Definition mid_stroke (tool : string) (x0 y0 : Z) (rg : Region) : Prop :=
  _tool rg = tool /\ _drawingLine rg = true
  /\ _cursorX rg = x0 /\ _cursorY rg = y0.

(** ** Dragging the menu: the document listeners of [moveMenu] *)

(** What the three closures read of a mouse event: the position on the
    page, and [isInteractiveElement(evt.target)], whether the target is an
    [<input>] element. *)
Record Pointer := { clientX : Z; clientY : Z; onInput : bool }.

Inductive DragEvent :=
| DragDown (evt : Pointer)
| DragMove (evt : Pointer)
| DragUp.

(** The variables that the closures of one [moveMenu] call share, and
    whether the closures are still attached to the document. *)
Record Drag := {
  startX : Z;
  startY : Z;
  dragging : bool;
  initialPositions : list (RegionRef * Z * Z);
  attached : bool
}.

(** What the closures do besides writing to the regions. *)
Inductive DragOut :=
| PreventDefault                               (* [evt.preventDefault()] *)
| RedrawRegions (regionLs : list RegionRef)    (* [this.redrawRegions(regionLs)] *).

Module MoveMenu.

(** The variables when [moveMenu(regionLs)] returns. *)
Definition begin : Drag :=
  {| startX := 0; startY := 0; dragging := false; initialPositions := [];
     attached := true |}.

(** The loop of [onMouseDown] that fills [initialPositions]. *)
Fixpoint record_positions (heap : RegionRef -> Region)
    (regionLs : list RegionRef) : list (RegionRef * Z * Z) :=
  match regionLs with
  | [] => []
  | region :: rest =>
      if bool_decide (_name (heap region) = "canvas")
      then record_positions heap rest
      else (region, _x (heap region), _y (heap region))
           :: record_positions heap rest
  end.

(** The loop of [onMouseMove]: it writes [_x] and [_y] themselves, not
    through the setters. *)
Fixpoint place (offsetX offsetY : Z) (entries : list (RegionRef * Z * Z))
    (heap : RegionRef -> Region) : RegionRef -> Region :=
  match entries with
  | [] => heap
  | (region, x, y) :: rest =>
      place offsetX offsetY rest
        (<[region := with_y (y + offsetY) (with_x (x + offsetX) (heap region))]>
           heap)
  end.

Definition onMouseDown (regionLs : list RegionRef) (evt : Pointer)
    (d : Drag) (w : World) : Drag * World * list DragOut :=
  if onInput evt then (d, w, [])
  else
    ({| startX := clientX evt; startY := clientY evt; dragging := true;
        initialPositions := record_positions (regionHeap w) regionLs;
        attached := attached d |},
     w, [PreventDefault]).

Definition onMouseMove (regionLs : list RegionRef) (evt : Pointer)
    (d : Drag) (w : World) : Drag * World * list DragOut :=
  if negb (dragging d) then (d, w, [])
  else
    let offsetX := clientX evt - startX d in
    let offsetY := clientY evt - startY d in
    (d,
     with_regionHeap
       (place offsetX offsetY (initialPositions d) (regionHeap w)) w,
     [RedrawRegions regionLs]).

Definition onMouseUp (d : Drag) (w : World) : Drag * World * list DragOut :=
  ({| startX := startX d; startY := startY d; dragging := false;
      initialPositions := initialPositions d; attached := false |},
   w, []).

(** The browser delivers an event to the closures that are attached. *)
Definition deliver (regionLs : list RegionRef) (e : DragEvent)
    (d : Drag) (w : World) : Drag * World * list DragOut :=
  if attached d then
    match e with
    | DragDown evt => onMouseDown regionLs evt d w
    | DragMove evt => onMouseMove regionLs evt d w
    | DragUp => onMouseUp d w
    end
  else (d, w, []).

Fixpoint deliver_all (regionLs : list RegionRef) (es : list DragEvent)
    (d : Drag) (w : World) : Drag * World * list DragOut :=
  match es with
  | [] => (d, w, [])
  | e :: rest =>
      let '(d1, w1, o1) := deliver regionLs e d w in
      let '(d2, w2, o2) := deliver_all regionLs rest d1 w1 in
      (d2, w2, o1 ++ o2)
  end.

End MoveMenu.

(** A region moved to [(x, y)]. *)
Definition moved_to (x y : Z) (rg : Region) : Region := with_y y (with_x x rg).

(** The regions that a drag moves: those of the list that are not named
    ["canvas"]. *)
Definition dragged (w : World) (regionLs : list RegionRef) (r : RegionRef)
  : Prop :=
  r ∈ regionLs /\ _name (regionHeap w r) <> "canvas".

(** In [w] the dragged regions are at their positions in [w0] shifted by
    [(dx, dy)], and nothing else about any region differs from [w0]. *)
Definition shifted (w0 : World) (regionLs : list RegionRef) (dx dy : Z)
    (w : World) : Prop :=
  forall r,
    (dragged w0 regionLs r ->
       regionHeap w r
       = moved_to (_x (regionHeap w0 r) + dx) (_y (regionHeap w0 r) + dy)
           (regionHeap w0 r))
    /\ (~ dragged w0 regionLs r -> regionHeap w r = regionHeap w0 r).

(** ** The debugging display of [Action] *)

(** The double quote character. *)
Definition dquote : string := String (Ascii.ascii_of_nat 34) EmptyString.

Module ActionDebug.

(** The loop [for (let i = 0; i < indent; i++) result += indentStr]. *)
Fixpoint indented (indent : nat) (result : string) : string :=
  match indent with
  | O => result
  | S n => indented n (result +:+ "  ")
  end.

(** [debugString(indent)], for a whole number of indent levels. *)
Definition debugString (a : Action.t) (indent : nat) : string :=
  let result := indented indent "" in
  let result :=
    result +:+ (Action._actType a +:+ " " +:+ Action._onRegionName a +:+ " "
                +:+ dquote +:+ Action._param a +:+ dquote) in
  if negb (bool_decide (is_Some (Action._onRegion a)))
     && negb (bool_decide (Action._actType a = "none"))
     && negb (bool_decide (Action._actType a = "print"))
     && negb (bool_decide (Action._actType a = "print_event"))
  then result +:+ " unbound"
  else result.

End ActionDebug.

(** The last character of a string. *)
Fixpoint last_char (s : string) : option Ascii.ascii :=
  match s with
  | EmptyString => None
  | String c EmptyString => Some c
  | String _ rest => last_char rest
  end.

(** [s] ends with [suffix]. *)
Definition ends_with (suffix s : string) : Prop :=
  exists before, s = before +:+ suffix.

(** * Properties *)

(** ** [Region.pick] *)




(** ** Running a sequence of two computations *)

Lemma run_bind {A B} (m : M A) (k : A -> M B) (w : World) :
  (m ≫= k) w
  = (result (k (result (m w)) (world_of (m w))),
     world_of (k (result (m w)) (world_of (m w))),
     effects_of (m w) ++ effects_of (k (result (m w)) (world_of (m w)))).
Proof.
  unfold mbind, M_bind, result, world_of, effects_of.
  destruct (m w) as [[a w1] e1]; simpl.
  destruct (k a w1) as [[b w2] e2]; reflexivity.
Qed.

Lemma run_ret {A} (a : A) (w : World) : (mret a : M A) w = (a, w, []).
Proof. reflexivity. Qed.

(** ** [FSMInteractor.pick] *)

Section InteractorFacts.
Context `{FSMClass}.

Lemma pick_loop_unshift (heap : RegionRef -> Region) (rs : list RegionRef)
    (lx ly : Z) (acc : list RegionRef) :
  FSMInteractor.pick_loop heap rs lx ly acc
  = reverse (filter (fun r => Region.pick (heap r) (lx - _x (heap r))
                                (ly - _y (heap r)) = true) rs) ++ acc.
Proof.
  revert acc. induction rs as [|r rs IH]; intros acc; simpl.
  - reflexivity.
  - rewrite filter_cons. destruct (Region.pick _ _ _) eqn:Hp.
    + rewrite decide_True by reflexivity.
      rewrite IH, reverse_cons, <- app_assoc. reflexivity.
    + rewrite decide_False by discriminate. apply IH.
Qed.

Lemma pick_eq (it : FSMInteractor.t) (lx ly : Z) (w : World) :
  FSMInteractor.pick it lx ly w = reverse (filter (under w lx ly) (drawn it)).
Proof.
  unfold FSMInteractor.pick, drawn. destruct (FSMInteractor.fsm it).
  - rewrite pick_loop_unshift, app_nil_r. reflexivity.
  - reflexivity.
Qed.

(** C5.  [pick] returns the regions of the FSM whose box contains the
    point, each tested at the point translated by the region's position,
    in the reverse of the drawing order: a region drawn later comes
    earlier. *)
Theorem pick_reverse_drawing_order (it : FSMInteractor.t) (lx ly : Z)
    (w : World) :
  FSMInteractor.pick it lx ly w = reverse (filter (under w lx ly) (drawn it))
  /\ (forall r, r ∈ FSMInteractor.pick it lx ly w <->
        r ∈ drawn it /\
        Region.pick (regionHeap w r) (lx - _x (regionHeap w r))
                    (ly - _y (regionHeap w r)) = true)
  /\ FSMInteractor.pick it lx ly w `sublist_of` reverse (drawn it).
Proof.
  rewrite pick_eq. split; [reflexivity|]. split.
  - intros r. rewrite elem_of_reverse, list_elem_of_filter. unfold under. tauto.
  - rewrite <- filter_reverse. apply sublist_filter.
Qed.

End InteractorFacts.

(** ** [FSMInteractor.dispatchRawEvent] *)

Section DispatchFacts.
Context `{FSMClass}.

Lemma feed_app (cs1 cs2 : list Call) (f : FSM) (w : World) :
  feed (cs1 ++ cs2) f w
  = let o1 := feed cs1 f w in
    let o2 := feed cs2 (result o1) (world_of o1) in
    (result o2, world_of o2, effects_of o1 ++ effects_of o2).
Proof.
  revert f w. induction cs1 as [|c cs1 IH]; intros f w; simpl.
  - unfold result, world_of, effects_of; simpl.
    destruct (feed cs2 f w) as [[f2 w2] e2]. reflexivity.
  - unfold mbind, M_bind.
    destruct (actOnEvent f _ _ _ w) as [[f1 w1] e1].
    rewrite IH. unfold result, world_of, effects_of; simpl.
    destruct (feed cs1 f1 w1) as [[f2 w2] e2]. simpl.
    destruct (feed cs2 f2 w2) as [[f3 w3] e3]. simpl.
    rewrite app_assoc. reflexivity.
Qed.

Lemma forEach_feed (evtType : EventType) (evt : option MouseEvent)
    (rs : list RegionRef) (f : FSM) (acc : list Call) (w : World) :
  FSMInteractor.forEach_actOnEvent evtType evt rs (f, acc) w
  = let out := feed (calls_on evtType evt rs) f w in
    ((result out, acc ++ calls_on evtType evt rs), world_of out, effects_of out).
Proof.
  revert f acc w. induction rs as [|r rs IH]; intros f acc w; simpl.
  - rewrite app_nil_r. reflexivity.
  - unfold mbind, M_bind. simpl.
    destruct (actOnEvent f evtType (Some r) evt w) as [[f1 w1] e1].
    rewrite IH. unfold result, world_of, effects_of; simpl.
    destruct (feed _ f1 w1) as [[f2 w2] e2]. simpl.
    rewrite <- app_assoc. reflexivity.
Qed.

Lemma switch_what_feed (what : RawEvent) (evt : MouseEvent)
    (cur : list RegionRef) (f : FSM) (acc : list Call) (w : World) :
  FSMInteractor.switch_what what evt cur (f, acc) w
  = let out := feed (kind_calls what evt cur) f w in
    ((result out, acc ++ kind_calls what evt cur), world_of out, effects_of out).
Proof.
  destruct what; simpl; try apply forEach_feed.
  destruct cur as [|r cur].
  - simpl. unfold mbind, M_bind, result, world_of, effects_of. simpl.
    destruct (actOnEvent f release_none None None w) as [[f1 w1] e1].
    simpl. reflexivity.
  - rewrite bool_decide_eq_true_2 by (simpl; lia). apply forEach_feed.
Qed.

Lemma dispatch_eq (it : FSMInteractor.t) (f : FSM) (what : RawEvent)
    (lx ly : Z) (evt : MouseEvent) (w : World) :
  FSMInteractor.fsm it = Some f ->
  let cur := FSMInteractor.pick it lx ly w in
  let cs := all_calls it what evt cur in
  let out := feed cs f w in
  FSMInteractor.dispatchRawEvent it what lx ly evt w
  = (({| FSMInteractor.fsm := Some (result out);
         FSMInteractor.x := FSMInteractor.x it;
         FSMInteractor.y := FSMInteractor.y it;
         FSMInteractor.parent := FSMInteractor.parent it;
         FSMInteractor.bookkeeping := cur |}, cs),
     world_of out,
     effects_of out
     ++ match FSMInteractor.parent it with
        | Some p => [RootDamage p]
        | None => []
        end).
Proof.
  intros Hf cur cs out.
  unfold FSMInteractor.dispatchRawEvent. rewrite Hf.
  subst out cs. unfold all_calls.
  unfold mbind, M_bind. fold cur. fold (exited it cur) (entered it cur).
  rewrite forEach_feed, feed_app. cbv zeta.
  destruct (feed (calls_on exit None (exited it cur)) f w) as [[f1 w1] e1].
  cbn [result world_of effects_of fst snd].
  rewrite forEach_feed, feed_app. cbv zeta.
  destruct (feed (calls_on enter None (entered it cur)) f1 w1) as [[f2 w2] e2].
  cbn [result world_of effects_of fst snd].
  rewrite switch_what_feed. cbv zeta.
  destruct (feed (kind_calls what evt cur) f2 w2) as [[f3 w3] e3].
  cbn [result world_of effects_of fst snd].
  unfold FSMInteractor.set_bookkeeping, FSMInteractor.damage.
  unfold mbind, M_bind, mret, M_ret, emit. cbn [FSMInteractor.parent].
  destruct (FSMInteractor.parent it); cbn [app];
    rewrite ?app_nil_r, <- ?app_assoc; reflexivity.
Qed.




Lemma pick_in_order (it : FSMInteractor.t) (f : FSM) (lx ly : Z) (w : World) :
  FSMInteractor.fsm it = Some f ->
  reverse_draw_order f (FSMInteractor.pick it lx ly w).
Proof.
  intros Hf. unfold reverse_draw_order.
  rewrite pick_eq. unfold drawn. rewrite Hf.
  rewrite <- filter_reverse. apply sublist_filter.
Qed.

(** C1.  One call of [dispatchRawEvent] on an interactor with an FSM, whose
    bookkeeping was left in reverse drawing order by the frame before,
    calls [fsm.actOnEvent] with: an exit event for every region of the
    bookkeeping that is no longer picked, then an enter event for every
    picked region that was not in the bookkeeping, then the events of the
    raw event's kind; each of the three groups runs through its regions in
    reverse drawing order, and the FSM is left as these calls, made in this
    order, leave it. *)
Theorem dispatch_order (it : FSMInteractor.t) (f : FSM) (what : RawEvent)
    (lx ly : Z) (evt : MouseEvent) (w : World) :
  FSMInteractor.fsm it = Some f ->
  reverse_draw_order f (FSMInteractor.bookkeeping it) ->
  let cur := FSMInteractor.pick it lx ly w in
  let out := FSMInteractor.dispatchRawEvent it what lx ly evt w in
  exists exitRegions enterRegions,
    (result out).2
    = calls_on exit None exitRegions
      ++ calls_on enter None enterRegions
      ++ kind_calls what evt cur
    /\ (forall r, r ∈ exitRegions <->
          r ∈ FSMInteractor.bookkeeping it /\ r ∉ cur)
    /\ (forall r, r ∈ enterRegions <->
          r ∈ cur /\ r ∉ FSMInteractor.bookkeeping it)
    /\ reverse_draw_order f exitRegions
    /\ reverse_draw_order f enterRegions
    /\ reverse_draw_order f cur
    /\ FSMInteractor.fsm (result out).1
       = Some (result (feed (result out).2 f w))
    /\ world_of out = world_of (feed (result out).2 f w).
Proof.
  intros Hf Hbk cur out. subst out.
  rewrite (dispatch_eq it f what lx ly evt w Hf). cbv zeta. fold cur.
  cbn [result world_of fst snd FSMInteractor.fsm].
  exists (exited it cur), (entered it cur).
  split; [reflexivity|]. split; [|split; [|split; [|split; [|split]]]].
  - intros r. unfold exited. rewrite list_elem_of_filter. tauto.
  - intros r. unfold entered. rewrite list_elem_of_filter. tauto.
  - unfold reverse_draw_order in *. etrans; [apply sublist_filter|exact Hbk].
  - unfold reverse_draw_order. etrans; [apply sublist_filter|].
    apply (pick_in_order it f lx ly w Hf).
  - apply (pick_in_order it f lx ly w Hf).
  - split; reflexivity.
Qed.

(** The bookkeeping an interactor starts with is in reverse drawing order,
    and a dispatch leaves it so when [actOnEvent] keeps the region list of
    the FSM: the assumption made on the bookkeeping above holds at every
    frame. *)
Lemma new_bookkeeping_in_order (f : FSM) (x y : Z) (p : option RootRef) :
  reverse_draw_order f
    (FSMInteractor.bookkeeping (FSMInteractor.new (Some f) x y p)).
Proof. apply sublist_nil_l. Qed.

Lemma feed_keeps_regions (cs : list Call) (f : FSM) (w : World) :
  (forall g t r e v, regions (result (actOnEvent g t r e v)) = regions g) ->
  regions (result (feed cs f w)) = regions f.
Proof.
  intros Hkeep. revert f w. induction cs as [|c cs IH]; intros f w.
  - reflexivity.
  - simpl. rewrite run_bind. cbn [result fst]. rewrite IH. apply Hkeep.
Qed.

Lemma dispatch_bookkeeping_in_order (it : FSMInteractor.t) (f : FSM)
    (what : RawEvent) (lx ly : Z) (evt : MouseEvent) (w : World) :
  (forall g t r e v, regions (result (actOnEvent g t r e v)) = regions g) ->
  FSMInteractor.fsm it = Some f ->
  let it' := (result (FSMInteractor.dispatchRawEvent it what lx ly evt w)).1 in
  exists f', FSMInteractor.fsm it' = Some f'
    /\ regions f' = regions f
    /\ FSMInteractor.bookkeeping it' = FSMInteractor.pick it lx ly w
    /\ reverse_draw_order f' (FSMInteractor.bookkeeping it').
Proof.
  intros Hkeep Hf it'. subst it'.
  rewrite (dispatch_eq it f what lx ly evt w Hf). cbv zeta.
  pose proof (feed_keeps_regions
    (all_calls it what evt (FSMInteractor.pick it lx ly w)) f w Hkeep) as Hr.
  unfold result in *.
  cbn [fst snd FSMInteractor.fsm FSMInteractor.bookkeeping].
  eexists. split; [reflexivity|].
  split; [exact Hr|]. split; [reflexivity|].
  unfold reverse_draw_order. rewrite Hr. apply (pick_in_order it f lx ly w Hf).
Qed.


(** C10.  Without an FSM, [dispatchRawEvent] makes no call, leaves the
    interactor (its bookkeeping included) and the state as they are, and
    produces no output, hence no damage; [pick] returns the empty list. *)
Theorem dispatch_without_fsm (x y : Z) (parent : option RootRef)
    (bk : list RegionRef) (what : RawEvent) (lx ly : Z) (evt : MouseEvent)
    (w : World) :
  let it := {| FSMInteractor.fsm := None; FSMInteractor.x := x;
               FSMInteractor.y := y; FSMInteractor.parent := parent;
               FSMInteractor.bookkeeping := bk |} in
  FSMInteractor.dispatchRawEvent it what lx ly evt w = ((it, []), w, [])
  /\ FSMInteractor.pick it lx ly w = [].
Proof. split; reflexivity. Qed.

End DispatchFacts.

(** ** The dispatcher on the two overlapping regions *)

Lemma dispatch_order_witness :
  let f : @FSM recording_FSM := ([0; 1]%nat, []) in
  let it := {| FSMInteractor.fsm := Some f; FSMInteractor.x := 0;
               FSMInteractor.y := 0; FSMInteractor.parent := None;
               FSMInteractor.bookkeeping := [1; 0]%nat |} in
  let evt := {| offsetX := 12; offsetY := 12 |} in
  let cur := FSMInteractor.pick it 12 12 two_regions in
  let out := FSMInteractor.dispatchRawEvent it Press 12 12 evt two_regions in
  FSMInteractor.fsm it = Some f
  /\ reverse_draw_order f (FSMInteractor.bookkeeping it)
  /\ exists exitRegions enterRegions,
      (result out).2
      = calls_on exit None exitRegions
        ++ calls_on enter None enterRegions
        ++ kind_calls Press evt cur
      /\ (forall r, r ∈ exitRegions <->
            r ∈ FSMInteractor.bookkeeping it /\ r ∉ cur)
      /\ (forall r, r ∈ enterRegions <->
            r ∈ cur /\ r ∉ FSMInteractor.bookkeeping it)
      /\ reverse_draw_order f exitRegions
      /\ reverse_draw_order f enterRegions
      /\ reverse_draw_order f cur
      /\ FSMInteractor.fsm (result out).1
         = Some (result (feed (result out).2 f two_regions))
      /\ world_of out = world_of (feed (result out).2 f two_regions).
Proof.
  intros f it evt cur out.
  assert (Hf : FSMInteractor.fsm it = Some f) by reflexivity.
  assert (Hbk : reverse_draw_order f (FSMInteractor.bookkeeping it))
    by (vm_compute; repeat constructor).
  split; [exact Hf|]. split; [exact Hbk|].
  exact (@dispatch_order recording_FSM it f Press 12 12 evt two_regions Hf Hbk).
Defined.

(** On that input the recorded calls are: exit [A], then press [B]. *)
Example dispatch_two_regions_calls :
  let f : @FSM recording_FSM := ([0; 1]%nat, []) in
  let it := {| FSMInteractor.fsm := Some f; FSMInteractor.x := 0;
               FSMInteractor.y := 0; FSMInteractor.parent := None;
               FSMInteractor.bookkeeping := [1; 0]%nat |} in
  (result (FSMInteractor.dispatchRawEvent it Press 12 12
             {| offsetX := 12; offsetY := 12 |} two_regions)).2
  = [ {| call_type := exit; call_region := Some 0%nat; call_evt := None |};
      {| call_type := press; call_region := Some 1%nat; call_evt := None |} ].
Proof. vm_compute. reflexivity. Qed.

(** A press inside both regions on a fresh interactor: enter [B], enter
    [A], press [B], press [A]; the FSM double received them in that
    order. *)
Example dispatch_overlap_press :
  let f : @FSM recording_FSM := ([0; 1]%nat, []) in
  let it := FSMInteractor.new (Some f) 0 0 None in
  let out := FSMInteractor.dispatchRawEvent it Press 7 7
               {| offsetX := 7; offsetY := 7 |} two_regions in
  (result out).2
  = [ {| call_type := enter; call_region := Some 1%nat; call_evt := None |};
      {| call_type := enter; call_region := Some 0%nat; call_evt := None |};
      {| call_type := press; call_region := Some 1%nat; call_evt := None |};
      {| call_type := press; call_region := Some 0%nat; call_evt := None |} ]
  /\ FSMInteractor.fsm (result out).1 = Some ([0; 1]%nat, (result out).2)
  /\ FSMInteractor.bookkeeping (result out).1 = [1; 0]%nat.
Proof. vm_compute. repeat split; reflexivity. Qed.


(** ** [Action.bindRegion] *)

Lemma bindRegion_loop_first (a : Action.t) (pre post : list RegionRef)
    (r : RegionRef) (w : World) :
  _name (regionHeap w r) = Action._onRegionName a ->
  (forall q, q ∈ pre -> _name (regionHeap w q) <> Action._onRegionName a) ->
  Action.bindRegion_loop a (pre ++ r :: post) w = (Some r, w, []).
Proof.
  intros Hr. induction pre as [|q pre IH]; intros Hpre; simpl.
  - unfold mbind, M_bind, get_region.
    rewrite bool_decide_eq_true_2 by exact Hr. reflexivity.
  - unfold mbind, M_bind, get_region.
    rewrite bool_decide_eq_false_2 by (apply Hpre; left).
    fold (@mbind M _). unfold mbind, M_bind in IH. simpl in IH.
    rewrite IH by (intros q' Hq'; apply Hpre; right; exact Hq').
    reflexivity.
Qed.

Lemma bindRegion_loop_none (a : Action.t) (l : list RegionRef) (w : World) :
  (forall q, q ∈ l -> _name (regionHeap w q) <> Action._onRegionName a) ->
  Action.bindRegion_loop a l w = (None, w, []).
Proof.
  induction l as [|q l IH]; intros Hl; simpl; [reflexivity|].
  unfold mbind, M_bind, get_region.
  rewrite bool_decide_eq_false_2 by (apply Hl; left).
  rewrite IH by (intros q' Hq'; apply Hl; right; exact Hq').
  reflexivity.
Qed.

(** C8.  [bindRegion] binds the action to the first region of the list
    that bears the action's region name, without any report.  When no
    region bears that name, an action of type none, print or print_event is
    left unbound without any report; an action of another type is reported
    through [Err.emit] and [bindRegion] still returns, leaving the action's
    region as it was.  The regions themselves are never changed. *)
Theorem bindRegion_first_match (a : Action.t) (regionList : list RegionRef)
    (w : World) :
  let out := Action.bindRegion a regionList w in
  world_of out = w
  /\ Action._regionLs (result out) = regionList
  /\ (forall pre r post,
        regionList = pre ++ r :: post ->
        _name (regionHeap w r) = Action._onRegionName a ->
        (forall q, q ∈ pre -> _name (regionHeap w q) <> Action._onRegionName a) ->
        Action._onRegion (result out) = Some r /\ effects_of out = [])
  /\ ((forall q, q ∈ regionList ->
         _name (regionHeap w q) <> Action._onRegionName a) ->
      (region_optional (Action._actType a) ->
         Action._onRegion (result out) = None /\ effects_of out = [])
      /\ (~ region_optional (Action._actType a) ->
         Action._onRegion (result out) = Action._onRegion a
         /\ effects_of out
            = [ErrEmit ("Region '" +:+ Action._onRegionName a
                        +:+ "' in action does not match any region.")])).
Proof.
  intros out. subst out. unfold Action.bindRegion.
  assert (Hcases :
    (exists pre r post, regionList = pre ++ r :: post
       /\ _name (regionHeap w r) = Action._onRegionName a
       /\ (forall q, q ∈ pre -> _name (regionHeap w q) <> Action._onRegionName a))
    \/ (forall q, q ∈ regionList ->
          _name (regionHeap w q) <> Action._onRegionName a)).
  { clear. induction regionList as [|q l IH].
    - right. intros q Hq. inversion Hq.
    - destruct (decide (_name (regionHeap w q) = Action._onRegionName a)) as [Heq|Hne].
      + left. exists [], q, l. split; [reflexivity|]. split; [exact Heq|].
        intros q' Hq'. inversion Hq'.
      + destruct IH as [(pre & r & post & -> & Hr & Hpre)|Hnone].
        * left. exists (q :: pre), r, post. split; [reflexivity|].
          split; [exact Hr|]. intros q' Hq'.
          apply elem_of_cons in Hq' as [->|Hq']; [exact Hne|apply Hpre, Hq'].
        * right. intros q' Hq'.
          apply elem_of_cons in Hq' as [->|Hq']; [exact Hne|apply Hnone, Hq']. }
  rewrite run_bind. cbn [Action._onRegionName].
  destruct Hcases as [(pre & r & post & -> & Hr & Hpre)|Hnone].
  - rewrite (bindRegion_loop_first _ pre post r w) by assumption.
    unfold mret, M_ret.
    cbn [result world_of effects_of fst snd Action._onRegion Action._regionLs app].
    split; [reflexivity|]. split; [reflexivity|]. split.
    + intros pre' r' post' Heq Hr' Hpre'. split; [|reflexivity]. f_equal.
      clear - Heq Hr Hpre Hr' Hpre'.
      revert pre' Heq Hpre'. induction pre as [|q pre IH]; intros pre' Heq Hpre'.
      * destruct pre' as [|q' pre']; simpl in Heq; [congruence|].
        injection Heq as <- _. exfalso. apply (Hpre' r); [left|exact Hr].
      * destruct pre' as [|q' pre']; simpl in Heq.
        -- injection Heq as -> _. exfalso. apply (Hpre r'); [left|exact Hr'].
        -- injection Heq as <- Heq. apply (IH ltac:(intros; apply Hpre; right; assumption) pre' Heq).
           intros; apply Hpre'; right; assumption.
    + intros Hnone. exfalso. apply (Hnone r); [|exact Hr].
      apply elem_of_app. right. left.
  - rewrite (bindRegion_loop_none _ regionList w) by assumption.
    cbn [result world_of effects_of fst snd app].
    unfold region_optional.
    destruct (decide (Action._actType a = "none")) as [Hn|Hn];
      [|destruct (decide (Action._actType a = "print")) as [Hp|Hp];
        [|destruct (decide (Action._actType a = "print_event")) as [He|He]]].
    all: cbn [Action._actType].
    1: rewrite (bool_decide_eq_true_2 _ Hn).
    2: rewrite (bool_decide_eq_false_2 _ Hn), (bool_decide_eq_true_2 _ Hp).
    3: rewrite (bool_decide_eq_false_2 _ Hn), (bool_decide_eq_false_2 _ Hp),
         (bool_decide_eq_true_2 _ He).
    4: rewrite (bool_decide_eq_false_2 _ Hn), (bool_decide_eq_false_2 _ Hp),
         (bool_decide_eq_false_2 _ He).
    all: unfold mret, M_ret.
    all: cbn [orb result world_of effects_of fst snd Action._onRegion Action._regionLs].
    1-3: (split; [reflexivity|]; split; [reflexivity|]; split;
          [ intros pre r post -> Hr _; exfalso; apply (Hnone r); [|exact Hr];
            apply elem_of_app; right; left
          | intros _; split; [intros _; split; reflexivity|];
            intros Hno; exfalso; apply Hno;
            first [rewrite Hn|rewrite Hp|rewrite He]; set_solver ]).
    rewrite run_bind. unfold Err_emit, emit.
    cbn [result world_of effects_of fst snd Action._onRegion Action._regionLs
         Action._onRegionName app].
    split; [reflexivity|]. split; [reflexivity|]. split.
    + intros pre r post -> Hr _. exfalso. apply (Hnone r); [|exact Hr].
      apply elem_of_app. right. left.
    + intros _. split.
      * intros Hopt. exfalso.
        apply elem_of_cons in Hopt as [?|Hopt]; [contradiction|].
        apply elem_of_cons in Hopt as [?|Hopt]; [contradiction|].
        apply elem_of_cons in Hopt as [?|Hopt]; [contradiction|].
        inversion Hopt.
      * intros _. split; reflexivity.
Qed.

Lemma bindRegion_first_match_witness :
  let a := Action.new "set_image" "B" "./b.png" in
  let missing := Action.new "set_image" "C" "./c.png" in
  let out := Action.bindRegion a [0; 1]%nat two_regions in
  let out' := Action.bindRegion missing [0; 1]%nat two_regions in
  (Action._onRegion (result out) = Some 1%nat /\ effects_of out = [])
  /\ Action._onRegion (result out') = None
  /\ effects_of out'
     = [ErrEmit "Region 'C' in action does not match any region."].
Proof.
  intros a missing out out'. split.
  - destruct (bindRegion_first_match a [0; 1]%nat two_regions)
      as (_ & _ & Hfirst & _).
    apply (Hfirst [0%nat] 1%nat []); [reflexivity|reflexivity|].
    intros q Hq. apply list_elem_of_singleton in Hq as ->.
    vm_compute. discriminate.
  - destruct (bindRegion_first_match missing [0; 1]%nat two_regions)
      as (_ & _ & _ & Hnone).
    apply Hnone.
    + intros q Hq.
      apply elem_of_cons in Hq as [->|Hq]; [vm_compute; discriminate|].
      apply list_elem_of_singleton in Hq as ->. vm_compute. discriminate.
    + unfold region_optional. intros Hopt.
      apply elem_of_cons in Hopt as [Hopt|Hopt]; [discriminate|].
      apply elem_of_cons in Hopt as [Hopt|Hopt]; [discriminate|].
      apply list_elem_of_singleton in Hopt. discriminate.
Defined.

(** ** [Action.execute] *)

Lemma switch_default {A} (s : string) (cases : list (string * A)) (dflt : A) :
  s ∉ cases.*1 -> Action.switch s cases dflt = dflt.
Proof.
  induction cases as [|[label body] cases IH]; intros Hs; simpl.
  - reflexivity.
  - rewrite bool_decide_eq_false_2.
    + apply IH. intros Hin. apply Hs. right. exact Hin.
    + intros ->. apply Hs. left.
Qed.





(** No action makes [execute] of [Action.ts] throw. *)
Lemma execute_completes_normally (a : Action.t) (evtType : EventType)
    (evtReg : option RegionRef) (evt : option MouseEvent) (w : World) :
  result (Action.execute a evtType evtReg evt w) = Normal.
Proof.
  unfold Action.execute. destruct (bool_decide _); [reflexivity|].
  rewrite run_bind. cbn [result fst]. rewrite run_bind. cbn [result fst].
  rewrite run_bind. reflexivity.
Qed.

(** The compiled [Action.js] does throw, and not only for types outside
    its vocabulary: every type without a [case], such as
    ["select_lineBrush"], reaches its [default] clause. *)
Lemma execute_js_throws (a : Action.t) (evtType : EventType)
    (evtReg : option RegionRef) (evt : option MouseEvent) (w : World) :
  Action._actType a <> "none" ->
  Action._actType a ∉ (Action.execute_js_cases a evtType evtReg evt).*1 ->
  result (Action.execute_js a evtType evtReg evt w)
  = Throw ("Unknown action type: " +:+ Action._actType a).
Proof.
  intros Hnone Hnot. unfold Action.execute_js.
  rewrite bool_decide_eq_false_2 by exact Hnone.
  rewrite switch_default by exact Hnot.
  reflexivity.
Qed.

Example execute_js_select_lineBrush :
  result (Action.execute_js (Action.new "select_lineBrush" "A" "") press
            (Some 0%nat) None two_regions)
  = Throw "Unknown action type: select_lineBrush".
Proof. vm_compute. reflexivity. Qed.

(** ** The load flags of a region *)

Lemma keeps_ret {A} (a : A) : keeps (mret a : M A).
Proof. intros w Hw. exact Hw. Qed.

Lemma keeps_bind {A B} (m : M A) (k : A -> M B) :
  keeps m -> (forall a, keeps (k a)) -> keeps (m ≫= k).
Proof.
  intros Hm Hk w Hw. rewrite run_bind. cbn [world_of fst snd].
  apply Hk, Hm, Hw.
Qed.

Lemma keeps_emit (e : Effect) : keeps (emit e).
Proof. intros w Hw. exact Hw. Qed.

Lemma keeps_get_region (r : RegionRef) : keeps (get_region r).
Proof. intros w Hw. exact Hw. Qed.

Lemma keeps_get_image (i : ImageRef) : keeps (get_image i).
Proof. intros w Hw. exact Hw. Qed.

Lemma keeps_upd_image (i : ImageRef) (f : Image -> Image) : keeps (upd_image i f).
Proof. intros w Hw. exact Hw. Qed.

Lemma keeps_new_Image : keeps new_Image.
Proof. intros w Hw. exact Hw. Qed.

Lemma keeps_imageIsCached (loc : string) : keeps (Region._imageIsCached loc).
Proof. intros w Hw. exact Hw. Qed.

Lemma keeps_imageFromCache (loc : string) : keeps (Region._imageFromCache loc).
Proof. intros w Hw. exact Hw. Qed.

Lemma keeps_cacheImage (loc : string) (img : option ImageRef) :
  keeps (Region._cacheImage loc img).
Proof. intros w Hw. exact Hw. Qed.

(** An update of one region keeps the invariant when the new record
    satisfies it whenever the old one does. *)
Lemma keeps_upd_region (r : RegionRef) (f : Region -> Region) :
  (forall rg, (_loadError rg = true -> _loaded rg = true) ->
              _loadError (f rg) = true -> _loaded (f rg) = true) ->
  keeps (upd_region r f).
Proof.
  intros Hf w Hw r'. unfold upd_region, world_of, with_regionHeap.
  cbn [fst snd regionHeap].
  destruct (decide (r = r')) as [<-|Hne].
  - rewrite fn_lookup_insert. apply Hf, Hw.
  - rewrite fn_lookup_insert_ne by exact Hne. apply Hw.
Qed.

(** Two updates of one region in a row: only their composition has to
    respect the invariant. *)
Lemma keeps_upd_region_twice {A} (r : RegionRef) (f g : Region -> Region)
    (rest : M A) :
  (forall rg, _loadError (g (f rg)) = true -> _loaded (g (f rg)) = true) ->
  keeps rest ->
  keeps (upd_region r f;; upd_region r g;; rest).
Proof.
  intros Hgf Hrest w Hw. rewrite run_bind. cbn [world_of fst snd].
  rewrite run_bind. cbn [world_of fst snd].
  apply Hrest. intros r'.
  unfold upd_region, result, world_of, with_regionHeap.
  cbn [fst snd regionHeap].
  destruct (decide (r = r')) as [<-|Hne].
  - rewrite !fn_lookup_insert. apply Hgf.
  - rewrite !fn_lookup_insert_ne by exact Hne. apply Hw.
Qed.

Lemma keeps_alloc_Region (init : Region) :
  (_loadError init = true -> _loaded init = true) ->
  keeps (alloc_Region init).
Proof.
  intros Hinit w Hw r'. unfold alloc_Region, world_of.
  cbn [fst snd regionHeap].
  destruct (decide (nextRegion w = r')) as [<-|Hne].
  - rewrite fn_lookup_insert. exact Hinit.
  - rewrite fn_lookup_insert_ne by exact Hne. apply Hw.
Qed.

Lemma keeps_damage (r : RegionRef) : keeps (Region.damage r).
Proof.
  unfold Region.damage.
  apply keeps_bind; [apply keeps_emit|]. intros _.
  apply keeps_bind; [apply keeps_get_region|]. intros rg.
  destruct (_parent rg); [apply keeps_emit|apply keeps_ret].
Qed.

(** Every setter of a field other than the two flags. *)
Ltac keeps_setter :=
  apply keeps_bind; [apply keeps_get_region|]; intros ?;
  match goal with
  | |- keeps (if ?b then _ else _) => destruct b
  end;
  [apply keeps_ret
  |apply keeps_bind; [apply keeps_upd_region; intros ? Hok; exact Hok
                     |intros _; apply keeps_damage]].

Lemma keeps_set_x (r : RegionRef) (v : Z) : keeps (Region.set_x r v).
Proof. unfold Region.set_x. keeps_setter. Qed.

Lemma keeps_set_y (r : RegionRef) (v : Z) : keeps (Region.set_y r v).
Proof. unfold Region.set_y. keeps_setter. Qed.

Lemma keeps_set_w (r : RegionRef) (v : Z) : keeps (Region.set_w r v).
Proof. unfold Region.set_w. keeps_setter. Qed.

Lemma keeps_set_h (r : RegionRef) (v : Z) : keeps (Region.set_h r v).
Proof. unfold Region.set_h. keeps_setter. Qed.

Lemma keeps_set_parent (r : RegionRef) (v : option FSMRef) :
  keeps (Region.set_parent r v).
Proof. unfold Region.set_parent. keeps_setter. Qed.

Lemma keeps_set_size (r : RegionRef) (v : Z * Z) : keeps (Region.set_size r v).
Proof.
  unfold Region.set_size.
  apply keeps_bind; [apply keeps_get_region|]. intros rg.
  destruct (_ || _); [|apply keeps_ret].
  apply keeps_bind; [apply keeps_upd_region; intros ? Hok; exact Hok|]. intros _.
  apply keeps_bind; [apply keeps_upd_region; intros ? Hok; exact Hok|]. intros _.
  apply keeps_damage.
Qed.

Lemma keeps_resizeFromImage (r : RegionRef) : keeps (Region._resizeFromImage r).
Proof.
  unfold Region._resizeFromImage.
  apply keeps_bind; [apply keeps_get_region|]. intros rg.
  destruct (_image rg); [|apply keeps_ret].
  destruct (_ && _); [|apply keeps_ret].
  apply keeps_bind; [apply keeps_get_image|]. intros im.
  apply keeps_set_size.
Qed.

Lemma keeps_startImageLoad (r : RegionRef) : keeps (Region._startImageLoad r).
Proof.
  unfold Region._startImageLoad.
  apply keeps_bind; [apply keeps_get_region|]. intros rg.
  destruct (bool_decide (_imageLoc rg = "")).
  - apply keeps_bind; [apply keeps_upd_region; intros ? Hok; exact Hok|]. intros _.
    apply keeps_bind; [apply keeps_upd_region; intros ? _ _; reflexivity|]. intros _.
    apply keeps_bind; [apply keeps_upd_region; intros ? _; discriminate|]. intros _.
    apply keeps_bind; [apply keeps_resizeFromImage|]. intros _.
    apply keeps_damage.
  - apply keeps_bind; [apply keeps_imageIsCached|]. intros [].
    + apply keeps_bind; [apply keeps_imageFromCache|]. intros img.
      apply keeps_bind; [apply keeps_upd_region; intros ? Hok; exact Hok|]. intros _.
      apply keeps_bind; [apply keeps_upd_region; intros ? _ _; reflexivity|]. intros _.
      apply keeps_bind; [apply keeps_upd_region; intros ? _; discriminate|]. intros _.
      apply keeps_bind; [apply keeps_resizeFromImage|]. intros _.
      apply keeps_damage.
    + apply keeps_bind; [apply keeps_new_Image|]. intros i.
      apply keeps_bind; [apply keeps_upd_region; intros ? Hok; exact Hok|]. intros _.
      (* [_loaded = false] alone would break the invariant of a region
         whose earlier load failed; the next statement clears the error. *)
      apply keeps_upd_region_twice; [intros ?; discriminate|].
      apply keeps_bind; [apply keeps_upd_image|]. intros _.
      apply keeps_emit.
Qed.

Lemma keeps_set_imageLoc (r : RegionRef) (v : string) :
  keeps (Region.set_imageLoc r v).
Proof.
  unfold Region.set_imageLoc.
  apply keeps_bind; [apply keeps_get_region|]. intros rg.
  destruct (bool_decide _); [|apply keeps_ret].
  apply keeps_bind; [apply keeps_upd_region; intros ? Hok; exact Hok|]. intros _.
  apply keeps_startImageLoad.
Qed.

Lemma keeps_new name imageLoc x y w h parent :
  keeps (Region.new name imageLoc x y w h parent).
Proof.
  unfold Region.new.
  apply keeps_bind; [apply keeps_alloc_Region; discriminate|]. intros r.
  apply keeps_bind; [apply keeps_startImageLoad|]. intros _.
  apply keeps_ret.
Qed.

Lemma keeps_startDraw (r : RegionRef) (type : string) :
  keeps (Region.startDraw r type).
Proof.
  unfold Region.startDraw.
  apply keeps_bind; [apply keeps_get_region|]. intros rg.
  destruct (_setted rg); [apply keeps_ret|].
  apply keeps_bind; [apply keeps_upd_region; intros ? Hok; exact Hok|]. intros _.
  apply keeps_emit.
Qed.

Lemma keeps_removeListeners (r : RegionRef) : keeps (Region.removeListeners r).
Proof.
  unfold Region.removeListeners.
  apply keeps_bind; [apply keeps_emit|]. intros _.
  apply keeps_upd_region; intros ? Hok; exact Hok.
Qed.

Lemma keeps_img_onload (i : ImageRef) (nw nh : Z) :
  keeps (Region.img_onload i nw nh).
Proof.
  unfold Region.img_onload.
  apply keeps_bind; [apply keeps_get_image|]. intros im.
  destruct (img_loading im); [|apply keeps_ret].
  apply keeps_bind; [apply keeps_upd_image|]. intros _.
  destruct (img_listener im) as [r|]; [|apply keeps_ret].
  apply keeps_bind; [apply keeps_upd_region; intros ? _ _; reflexivity|]. intros _.
  apply keeps_bind; [apply keeps_resizeFromImage|]. intros _.
  unfold Region._startImageLoad_resume.
  apply keeps_bind; [apply keeps_get_region|]. intros rg.
  apply keeps_bind; [apply keeps_cacheImage|]. intros _.
  apply keeps_damage.
Qed.

Lemma keeps_img_onerror (i : ImageRef) : keeps (Region.img_onerror i).
Proof.
  unfold Region.img_onerror.
  apply keeps_bind; [apply keeps_get_image|]. intros im.
  destruct (img_loading im); [|apply keeps_ret].
  apply keeps_bind; [apply keeps_upd_image|]. intros _.
  destruct (img_listener im) as [r|]; [|apply keeps_ret].
  (* the error flag is raised one statement before [_loaded] *)
  apply keeps_upd_region_twice; [intros ? _; reflexivity|].
  apply keeps_bind; [apply keeps_get_region|]. intros rg.
  apply keeps_emit.
Qed.

Lemma keeps_on_region (a : Action.t) (m : RegionRef -> M unit) :
  (forall r, keeps (m r)) -> keeps (Action.on_region a m).
Proof.
  intros Hm. unfold Action.on_region.
  destruct (Action._onRegion a); [apply Hm|apply keeps_ret].
Qed.

Lemma keeps_switch {A} (s : string) (cases : list (string * M A)) (dflt : M A) :
  Forall (fun c => keeps c.2) cases -> keeps dflt ->
  keeps (Action.switch s cases dflt).
Proof.
  intros Hcases Hd. induction Hcases as [|[label body] cases Hc _ IH]; simpl.
  - exact Hd.
  - destruct (bool_decide (s = label)); [exact Hc|exact IH].
Qed.

Lemma keeps_execute (a : Action.t) (evtType : EventType)
    (evtReg : option RegionRef) (evt : option MouseEvent) :
  keeps (Action.execute a evtType evtReg evt).
Proof.
  unfold Action.execute. destruct (bool_decide _); [apply keeps_ret|].
  apply keeps_bind; [apply keeps_emit|]. intros _.
  apply keeps_bind; [apply keeps_emit|]. intros _.
  apply keeps_bind; [|intros _; apply keeps_ret].
  apply keeps_switch; [|apply keeps_ret].
  unfold Action.execute_cases, Action.log.
  repeat (constructor;
    [cbn [snd];
     first [ apply keeps_on_region; intros ?;
             first [apply keeps_set_imageLoc | apply keeps_startDraw
                   | apply keeps_removeListeners | apply keeps_emit]
           | apply keeps_emit
           | intros w Hw; exact Hw
           | apply keeps_bind; [apply keeps_emit|]; intros _;
             apply keeps_on_region; intros ?;
             first [apply keeps_startDraw | apply keeps_removeListeners] ]
    |]).
  constructor.
Qed.

Lemma keeps_step (op : Op) : keeps (step op).
Proof.
  destruct op; simpl.
  - apply keeps_bind; [apply keeps_new|intros _; apply keeps_ret].
  - apply keeps_set_x.
  - apply keeps_set_y.
  - apply keeps_set_w.
  - apply keeps_set_h.
  - apply keeps_set_size.
  - apply keeps_set_parent.
  - apply keeps_set_imageLoc.
  - apply keeps_startDraw.
  - apply keeps_removeListeners.
  - apply keeps_bind; [apply keeps_execute|intros _; apply keeps_ret].
  - apply keeps_img_onload.
  - apply keeps_img_onerror.
Qed.

Lemma keeps_run (ops : list Op) : keeps (run ops).
Proof.
  induction ops as [|op ops IH]; simpl.
  - apply keeps_ret.
  - apply keeps_bind; [apply keeps_step|intros _; exact IH].
Qed.

Lemma empty_World_flags_ok : load_flags_ok empty_World.
Proof. intros r. cbn. discriminate. Qed.

(** C9.  From the empty page, after any sequence of constructions, setter
    calls, action executions and image load outcomes, every region with
    [loadError] set has [loaded] set. *)
Theorem loadError_implies_loaded (ops : list Op) (r : RegionRef) :
  let w := world_of (run ops empty_World) in
  _loadError (regionHeap w r) = true -> _loaded (regionHeap w r) = true.
Proof.
  intros w. subst w. revert r.
  apply (keeps_run ops empty_World empty_World_flags_ok).
Qed.

Lemma loadError_implies_loaded_witness :
  let ops := [OpNew "A" "./missing.png" 0 0 10 10 None; OpImgError 0%nat] in
  let w := world_of (run ops empty_World) in
  _loadError (regionHeap w 0%nat) = true /\ _loaded (regionHeap w 0%nat) = true.
Proof.
  intros ops w.
  assert (Herr : _loadError (regionHeap w 0%nat) = true) by reflexivity.
  split; [exact Herr|].
  exact (loadError_implies_loaded ops 0%nat Herr).
Defined.


(** ** Reasoning along a method body *)

Lemma ends_ret {A} (a : A) (w : World) Q : Q a w [] -> ends (mret a : M A) w Q.
Proof. exact id. Qed.

Lemma ends_bind {A B} (m : M A) (k : A -> M B) (w : World) Q :
  ends m w (fun a w1 e1 => ends (k a) w1 (fun b w2 e2 => Q b w2 (e1 ++ e2))) ->
  ends (m ≫= k) w Q.
Proof. unfold ends. rewrite run_bind. exact id. Qed.

Lemma ends_use {A} (m : M A) (w : World) (P Q : A -> World -> list Effect -> Prop) :
  ends m w P -> (forall a w' es, P a w' es -> Q a w' es) -> ends m w Q.
Proof. unfold ends. intros HP HPQ. apply HPQ, HP. Qed.

Lemma ends_emit (e : Effect) (w : World) Q : Q tt w [e] -> ends (emit e) w Q.
Proof. exact id. Qed.

Lemma ends_get_region (r : RegionRef) (w : World) Q :
  Q (regionHeap w r) w [] -> ends (get_region r) w Q.
Proof. exact id. Qed.

Lemma ends_upd_region (r : RegionRef) (f : Region -> Region) (w : World) Q :
  Q tt (with_regionHeap (<[r := f (regionHeap w r)]> (regionHeap w)) w) [] ->
  ends (upd_region r f) w Q.
Proof. exact id. Qed.

Lemma ends_get_image (i : ImageRef) (w : World) Q :
  Q (imageHeap w i) w [] -> ends (get_image i) w Q.
Proof. exact id. Qed.

Lemma ends_upd_image (i : ImageRef) (f : Image -> Image) (w : World) Q :
  Q tt (with_imageHeap (<[i := f (imageHeap w i)]> (imageHeap w)) w) [] ->
  ends (upd_image i f) w Q.
Proof. exact id. Qed.

Lemma ends_damage (r : RegionRef) (w : World) Q :
  Q tt w (RegionDamage r :: parent_damage (_parent (regionHeap w r))) ->
  ends (Region.damage r) w Q.
Proof.
  intros HQ. unfold Region.damage.
  apply ends_bind, ends_emit, ends_bind, ends_get_region.
  destruct (_parent (regionHeap w r)); [apply ends_emit|apply ends_ret]; exact HQ.
Qed.

Lemma damage_calls_app (r : RegionRef) (es1 es2 : list Effect) :
  damage_calls r (es1 ++ es2) = (damage_calls r es1 + damage_calls r es2)%nat.
Proof. unfold damage_calls. rewrite List.filter_app, length_app. reflexivity. Qed.

Lemma image_requests_app (es1 es2 : list Effect) :
  image_requests (es1 ++ es2) = (image_requests es1 + image_requests es2)%nat.
Proof. unfold image_requests. rewrite List.filter_app, length_app. reflexivity. Qed.

Lemma damage_calls_damage (r : RegionRef) (p : option FSMRef) :
  damage_calls r (RegionDamage r :: parent_damage p) = 1%nat.
Proof.
  unfold damage_calls. cbn [List.filter is_RegionDamage].
  rewrite bool_decide_eq_true_2 by reflexivity. destruct p; reflexivity.
Qed.

Lemma image_requests_damage (r : RegionRef) (p : option FSMRef) :
  image_requests (RegionDamage r :: parent_damage p) = 0%nat.
Proof. destruct p; reflexivity. Qed.

Lemma set_size_only_resizes (r : RegionRef) (v : Z * Z) (w : World) :
  ends (Region.set_size r v) w (only_resized r w).
Proof.
  unfold Region.set_size. apply ends_bind, ends_get_region.
  destruct (_ || _).
  - apply ends_bind, ends_upd_region, ends_bind, ends_upd_region, ends_damage.
    unfold only_resized, with_regionHeap.
    cbn [regionHeap _imageCache nextImage app].
    rewrite !fn_lookup_insert.
    split; [apply image_requests_damage|]. repeat split.
  - apply ends_ret. repeat split.
Qed.

Lemma resizeFromImage_only_resizes (r : RegionRef) (w : World) :
  ends (Region._resizeFromImage r) w (only_resized r w).
Proof.
  unfold Region._resizeFromImage. apply ends_bind, ends_get_region.
  destruct (_image (regionHeap w r)) as [i|]; [|apply ends_ret; repeat split].
  destruct (_ && _); [|apply ends_ret; repeat split].
  apply ends_bind, ends_get_image.
  eapply ends_use; [apply set_size_only_resizes|].
  intros u w' es H. exact H.
Qed.

Lemma ends_imageIsCached (loc : string) (w : World) Q :
  Q (bool_decide (is_Some (_imageCache w !! loc))) w [] ->
  ends (Region._imageIsCached loc) w Q.
Proof. exact id. Qed.

Lemma ends_imageFromCache (loc : string) (w : World) Q :
  Q (default None (_imageCache w !! loc)) w [] ->
  ends (Region._imageFromCache loc) w Q.
Proof. exact id. Qed.

Lemma ends_new_Image (w : World) Q :
  Q (nextImage w)
    {| regionHeap := regionHeap w; nextRegion := nextRegion w;
       imageHeap := <[nextImage w := blank_Image]> (imageHeap w);
       nextImage := S (nextImage w); _imageCache := _imageCache w |} [] ->
  ends new_Image w Q.
Proof. exact id. Qed.

Lemma ends_alloc_Region (init : Region) (w : World) Q :
  Q (nextRegion w)
    {| regionHeap := <[nextRegion w := init]> (regionHeap w);
       nextRegion := S (nextRegion w);
       imageHeap := imageHeap w; nextImage := nextImage w;
       _imageCache := _imageCache w |} [] ->
  ends (alloc_Region init) w Q.
Proof. exact id. Qed.

(** ** [_startImageLoad], branch by branch *)

(** No image, or a location found in the cache: the load ends within the
    call, with [loaded] set, [loadError] clear and damage declared. *)
Lemma startImageLoad_sync (r : RegionRef) (w : World) :
  _imageLoc (regionHeap w r) = ""
  \/ is_Some (_imageCache w !! _imageLoc (regionHeap w r)) ->
  ends (Region._startImageLoad r) w (fun _ w' es =>
    _loaded (regionHeap w' r) = true
    /\ _loadError (regionHeap w' r) = false
    /\ _imageLoc (regionHeap w' r) = _imageLoc (regionHeap w r)
    /\ (1 <= damage_calls r es)%nat
    /\ image_requests es = 0%nat
    /\ _imageCache w' = _imageCache w).
Proof.
  intros Hsync. unfold Region._startImageLoad.
  apply ends_bind, ends_get_region.
  assert (Hend : forall img : option ImageRef,
    ends (upd_region r (with_image img);;
          upd_region r (with_loaded true);;
          upd_region r (with_loadError false);;
          Region._resizeFromImage r;; Region.damage r) w
      (fun _ w' es =>
         _loaded (regionHeap w' r) = true
         /\ _loadError (regionHeap w' r) = false
         /\ _imageLoc (regionHeap w' r) = _imageLoc (regionHeap w r)
         /\ (1 <= damage_calls r ([] ++ es))%nat
         /\ image_requests ([] ++ es) = 0%nat
         /\ _imageCache w' = _imageCache w)).
  { intros img.
    apply ends_bind, ends_upd_region, ends_bind, ends_upd_region,
      ends_bind, ends_upd_region, ends_bind.
    eapply ends_use; [apply resizeFromImage_only_resizes|].
    intros u w1 e1 (Hreq & Hls & Hc & _). apply ends_damage.
    unfold load_state, with_regionHeap in Hls. cbn [regionHeap] in Hls.
    rewrite !fn_lookup_insert in Hls. cbn in Hls.
    injection Hls as Hloc Hloaded Herr _ _.
    cbn [app]. split; [exact Hloaded|]. split; [exact Herr|].
    split; [exact Hloc|].
    rewrite damage_calls_app, damage_calls_damage.
    rewrite image_requests_app, image_requests_damage, Hreq.
    split; [lia|]. split; [reflexivity|]. exact Hc. }
  destruct (bool_decide (_imageLoc (regionHeap w r) = "")) eqn:Hempty.
  - apply Hend.
  - apply ends_bind, ends_imageIsCached.
    destruct Hsync as [Hloc|Hcached].
    + apply bool_decide_eq_false_1 in Hempty. contradiction.
    + rewrite (bool_decide_eq_true_2 _ Hcached).
      apply ends_bind, ends_imageFromCache. apply Hend.
Qed.

(** A location that is not in the cache: the call leaves the region not
    loaded, with a fresh image whose [src] has just been assigned; no
    damage is declared. *)
Lemma startImageLoad_uncached (r : RegionRef) (w : World) :
  _imageLoc (regionHeap w r) <> "" ->
  _imageCache w !! _imageLoc (regionHeap w r) = None ->
  ends (Region._startImageLoad r) w (fun _ w' es =>
    es = [ImageRequest (nextImage w) (_imageLoc (regionHeap w r))]
    /\ _loaded (regionHeap w' r) = false
    /\ _loadError (regionHeap w' r) = false
    /\ _imageLoc (regionHeap w' r) = _imageLoc (regionHeap w r)
    /\ _imageCache w' = _imageCache w
    /\ img_loading (imageHeap w' (nextImage w)) = true
    /\ img_listener (imageHeap w' (nextImage w)) = Some r).
Proof.
  intros Hloc Hmiss. unfold Region._startImageLoad.
  apply ends_bind, ends_get_region.
  rewrite (bool_decide_eq_false_2 _ Hloc).
  apply ends_bind, ends_imageIsCached.
  rewrite bool_decide_eq_false_2 by (rewrite Hmiss; apply is_Some_None).
  apply ends_bind, ends_new_Image, ends_bind, ends_upd_region,
    ends_bind, ends_upd_region, ends_bind, ends_upd_region,
    ends_bind, ends_upd_image, ends_emit.
  unfold with_regionHeap, with_imageHeap.
  cbn [regionHeap imageHeap _imageCache nextImage app].
  rewrite !fn_lookup_insert. repeat split.
Qed.

(** The load of image [i] fails while region [r] is listening: the region
    ends loaded with an error, the error is reported, and that is all: the
    cache is not written and no damage is declared. *)
Lemma img_onerror_listening (i : ImageRef) (r : RegionRef) (w : World) :
  img_loading (imageHeap w i) = true ->
  img_listener (imageHeap w i) = Some r ->
  ends (Region.img_onerror i) w (fun _ w' es =>
    es = [ErrEmit ("Load of image from " +:+ _imageLoc (regionHeap w r)
                   +:+ " failed")]
    /\ _loaded (regionHeap w' r) = true
    /\ _loadError (regionHeap w' r) = true
    /\ _imageCache w' = _imageCache w
    /\ nextImage w' = nextImage w).
Proof.
  intros Hloading Hlistener. unfold Region.img_onerror.
  apply ends_bind, ends_get_image. rewrite Hloading, Hlistener.
  apply ends_bind, ends_upd_image, ends_bind, ends_upd_region,
    ends_bind, ends_upd_region, ends_bind, ends_get_region.
  unfold Err_emit. apply ends_emit.
  unfold with_regionHeap, with_imageHeap.
  cbn [regionHeap imageHeap _imageCache nextImage app].
  rewrite !fn_lookup_insert. repeat split.
Qed.

Lemma ends_cacheImage (loc : string) (img : option ImageRef) (w : World) Q :
  Q tt
    {| regionHeap := regionHeap w; nextRegion := nextRegion w;
       imageHeap := imageHeap w; nextImage := nextImage w;
       _imageCache := <[loc := img]> (_imageCache w) |} [] ->
  ends (Region._cacheImage loc img) w Q.
Proof. exact id. Qed.


(** A region that finds the mark of a failed load in the cache (an absent
    image) reports no error. *)
Lemma startImageLoad_cached_failure (r : RegionRef) (w : World) :
  _imageLoc (regionHeap w r) <> "" ->
  _imageCache w !! _imageLoc (regionHeap w r) = Some None ->
  ends (Region._startImageLoad r) w (fun _ w' es =>
    _loaded (regionHeap w' r) = true /\ _loadError (regionHeap w' r) = false).
Proof.
  intros Hloc Hmark.
  eapply ends_use; [apply startImageLoad_sync|].
  - right. rewrite Hmark. eexists. reflexivity.
  - intros u w' es (Hl & He & _). split; assumption.
Qed.

(** ** The setters of [Region] *)


Lemma num_set_changed (fld : NumField) (r : RegionRef) (v : Z) (w : World) :
  num_get fld (regionHeap w r) <> v ->
  ends (num_set fld r v) w (fun _ w' es =>
    regionHeap w' r = num_with fld v (regionHeap w r)
    /\ (forall r', r' <> r -> regionHeap w' r' = regionHeap w r')
    /\ _imageCache w' = _imageCache w
    /\ es = RegionDamage r :: parent_damage (_parent (regionHeap w r))).
Proof.
  intros Hne.
  destruct fld; cbn [num_set num_get num_with] in *;
    unfold Region.set_x, Region.set_y, Region.set_w, Region.set_h;
    apply ends_bind, ends_get_region;
    rewrite (bool_decide_eq_false_2 _ Hne);
    apply ends_bind, ends_upd_region, ends_damage;
    unfold with_regionHeap; cbn [regionHeap _imageCache app];
    rewrite fn_lookup_insert;
    (split; [reflexivity|]; split; [|split; reflexivity]);
    intros r' Hr'; apply fn_lookup_insert_ne; congruence.
Qed.



Lemma set_imageLoc_same (r : RegionRef) (loc : string) (w : World) :
  _imageLoc (regionHeap w r) = loc -> Region.set_imageLoc r loc w = (tt, w, []).
Proof.
  intros <-. unfold Region.set_imageLoc, mbind, M_bind, get_region.
  rewrite bool_decide_eq_false_2 by (intros Hne; apply Hne; reflexivity).
  reflexivity.
Qed.

Lemma ends_set_imageLoc_changed (r : RegionRef) (loc : string) (w : World) Q :
  _imageLoc (regionHeap w r) <> loc ->
  ends (Region._startImageLoad r)
    (with_regionHeap
       (<[r := with_imageLoc loc (regionHeap w r)]> (regionHeap w)) w) Q ->
  ends (Region.set_imageLoc r loc) w Q.
Proof.
  intros Hne HQ. unfold Region.set_imageLoc.
  apply ends_bind, ends_get_region.
  rewrite bool_decide_eq_true_2 by congruence.
  apply ends_bind, ends_upd_region. exact HQ.
Qed.

Lemma set_imageLoc_changed (r : RegionRef) (loc : string) (w : World) :
  _imageLoc (regionHeap w r) <> loc ->
  ends (Region.set_imageLoc r loc) w (fun _ w' es =>
    _imageLoc (regionHeap w' r) = loc
    /\ (loc = "" \/ is_Some (_imageCache w !! loc) ->
          _loaded (regionHeap w' r) = true
          /\ (1 <= damage_calls r es)%nat
          /\ image_requests es = 0%nat)
    /\ (loc <> "" -> _imageCache w !! loc = None ->
          _loaded (regionHeap w' r) = false
          /\ damage_calls r es = 0%nat
          /\ es = [ImageRequest (nextImage w) loc])).
Proof.
  intros Hne. apply ends_set_imageLoc_changed; [exact Hne|].
  set (w1 := with_regionHeap
               (<[r := with_imageLoc loc (regionHeap w r)]> (regionHeap w)) w).
  assert (Hloc1 : _imageLoc (regionHeap w1 r) = loc).
  { unfold w1, with_regionHeap. cbn [regionHeap]. rewrite fn_lookup_insert.
    reflexivity. }
  destruct (decide (loc = "")) as [Hempty|Hfull];
    [|destruct (_imageCache w !! loc) as [img|] eqn:Hcache].
  - eapply ends_use; [apply startImageLoad_sync; left; congruence|].
    intros u w' es (Hl & _ & Hi & Hd & Hq & _).
    split; [congruence|]. split; [intros _; auto|]. intros Hc. contradiction.
  - eapply ends_use.
    + apply startImageLoad_sync. right. rewrite Hloc1.
      unfold w1. cbn. rewrite Hcache. eexists. reflexivity.
    + intros u w' es (Hl & _ & Hi & Hd & Hq & _).
      split; [congruence|]. split; [intros _; auto|]. intros _ Hc. discriminate.
  - eapply ends_use.
    + apply startImageLoad_uncached; rewrite Hloc1; [exact Hfull|exact Hcache].
    + intros u w' es (Hes & Hl & _ & Hi & _). rewrite Hloc1 in Hes, Hi.
      split; [exact Hi|]. split.
      * intros [Hc|Hc]; [contradiction|]. destruct Hc as [? Hc]. discriminate.
      * intros _ _. split; [exact Hl|]. rewrite Hes. split; reflexivity.
Qed.




(** ** A failed load and the cache *)

(** [onerror] never writes the image cache. *)
Lemma img_onerror_keeps_cache (i : ImageRef) (w : World) :
  _imageCache (world_of (Region.img_onerror i w)) = _imageCache w.
Proof.
  change (ends (Region.img_onerror i) w
            (fun _ w' _ => _imageCache w' = _imageCache w)).
  unfold Region.img_onerror.
  apply ends_bind, ends_get_image.
  destruct (img_loading (imageHeap w i)); [|apply ends_ret; reflexivity].
  apply ends_bind, ends_upd_image.
  destruct (img_listener (imageHeap w i)) as [r|]; [|apply ends_ret; reflexivity].
  apply ends_bind, ends_upd_region, ends_bind, ends_upd_region,
    ends_bind, ends_get_region.
  unfold Err_emit. apply ends_emit. reflexivity.
Qed.

(** C2 on the code.  After the first region's load of ["./missing.png"]
    has failed, that region is loaded with an error, but the cache has no
    entry for the location: the second region starts a load of its own
    and is left not loaded and without error. *)
Theorem failed_load_is_retried :
  let out := second_region_after_failure "./missing.png" empty_World in
  let w := world_of out in
  result out = (0%nat, 1%nat)
  /\ (_loaded (regionHeap w 0%nat), _loadError (regionHeap w 0%nat)) = (true, true)
  /\ _imageCache w !! "./missing.png" = None
  /\ (_loaded (regionHeap w 1%nat), _loadError (regionHeap w 1%nat)) = (false, false)
  /\ effects_of out
     = [ImageRequest 0%nat "./missing.png";
        ErrEmit "Load of image from ./missing.png failed";
        ImageRequest 1%nat "./missing.png"].
Proof. vm_compute. repeat split; reflexivity. Qed.

(** * Further properties *)

(** ** The setters of [FSMInteractor] *)

Section InteractorSetterFacts.
Context `{FSMClass}.

Lemma interactor_damage_eq (it : FSMInteractor.t) (w : World) :
  FSMInteractor.damage it w = (tt, w, root_damage (FSMInteractor.parent it)).
Proof.
  unfold FSMInteractor.damage, root_damage.
  destruct (FSMInteractor.parent it); reflexivity.
Qed.

Lemma interactor_set_x_eq (it : FSMInteractor.t) (v : Z) (w : World) :
  FSMInteractorSetters.set_x it v w
  = if bool_decide (FSMInteractor.x it = v) then (it, w, [])
    else ({| FSMInteractor.fsm := FSMInteractor.fsm it;
             FSMInteractor.x := v;
             FSMInteractor.y := FSMInteractor.y it;
             FSMInteractor.parent := FSMInteractor.parent it;
             FSMInteractor.bookkeeping := FSMInteractor.bookkeeping it |},
          w, root_damage (FSMInteractor.parent it)).
Proof.
  unfold FSMInteractorSetters.set_x. destruct (bool_decide _); [reflexivity|].
  unfold mbind, M_bind. rewrite interactor_damage_eq.
  cbn [FSMInteractor.parent]. unfold mret, M_ret. rewrite app_nil_r.
  reflexivity.
Qed.

Lemma interactor_set_y_eq (it : FSMInteractor.t) (v : Z) (w : World) :
  FSMInteractorSetters.set_y it v w
  = if bool_decide (FSMInteractor.y it = v) then (it, w, [])
    else ({| FSMInteractor.fsm := FSMInteractor.fsm it;
             FSMInteractor.x := FSMInteractor.x it;
             FSMInteractor.y := v;
             FSMInteractor.parent := FSMInteractor.parent it;
             FSMInteractor.bookkeeping := FSMInteractor.bookkeeping it |},
          w, root_damage (FSMInteractor.parent it)).
Proof.
  unfold FSMInteractorSetters.set_y. destruct (bool_decide _); [reflexivity|].
  unfold mbind, M_bind. rewrite interactor_damage_eq.
  cbn [FSMInteractor.parent]. unfold mret, M_ret. rewrite app_nil_r.
  reflexivity.
Qed.

(** X1.  Moving an interactor through [position] reaches the same object as
    assigning [x] and then [y], and neither touches the regions; but the
    parent hears of every coordinate changed through [x] and [y] and never
    of a change made through [position]. *)
Theorem position_setter_is_silent (it : FSMInteractor.t) (a b : Z) (w : World) :
  let byPosition := FSMInteractorSetters.set_position it (a, b) w in
  let byXY :=
    (it1 ← FSMInteractorSetters.set_x it a; FSMInteractorSetters.set_y it1 b) w in
  result byPosition = result byXY
  /\ FSMInteractor.x (result byPosition) = a
  /\ FSMInteractor.y (result byPosition) = b
  /\ world_of byPosition = w /\ world_of byXY = w
  /\ effects_of byPosition = []
  /\ effects_of byXY
     = (if bool_decide (FSMInteractor.x it = a) then []
        else root_damage (FSMInteractor.parent it))
       ++ (if bool_decide (FSMInteractor.y it = b) then []
           else root_damage (FSMInteractor.parent it)).
Proof.
  intros byPosition byXY. subst byPosition byXY.
  rewrite run_bind, interactor_set_x_eq.
  unfold FSMInteractorSetters.set_position.
  destruct it as [f x0 y0 p bk].
  cbn [FSMInteractor.x FSMInteractor.y FSMInteractor.parent
       FSMInteractor.fsm FSMInteractor.bookkeeping fst snd].
  destruct (decide (x0 = a)) as [Hx|Hx]; destruct (decide (y0 = b)) as [Hy|Hy].
  - rewrite (bool_decide_eq_true_2 _ Hx).
    cbn [result world_of effects_of fst snd]. rewrite interactor_set_y_eq.
    cbn [FSMInteractor.y]. rewrite (bool_decide_eq_true_2 _ Hy).
    rewrite (bool_decide_eq_false_2 (a ≠ x0)) by (intros Hn; congruence).
    rewrite (bool_decide_eq_false_2 (b ≠ y0)) by (intros Hn; congruence).
    subst. repeat split; reflexivity.
  - rewrite (bool_decide_eq_true_2 _ Hx).
    cbn [result world_of effects_of fst snd]. rewrite interactor_set_y_eq.
    cbn [FSMInteractor.y FSMInteractor.x FSMInteractor.parent
         FSMInteractor.fsm FSMInteractor.bookkeeping].
    rewrite (bool_decide_eq_false_2 _ Hy).
    rewrite (bool_decide_eq_true_2 (b ≠ y0)) by congruence.
    rewrite orb_true_r. subst. repeat split; reflexivity.
  - rewrite (bool_decide_eq_false_2 _ Hx).
    cbn [result world_of effects_of fst snd]. rewrite interactor_set_y_eq.
    cbn [FSMInteractor.y FSMInteractor.x FSMInteractor.parent
         FSMInteractor.fsm FSMInteractor.bookkeeping].
    rewrite (bool_decide_eq_true_2 _ Hy).
    rewrite (bool_decide_eq_true_2 (a ≠ x0)) by congruence.
    subst. cbn [orb]. repeat split; reflexivity.
  - rewrite (bool_decide_eq_false_2 _ Hx).
    cbn [result world_of effects_of fst snd]. rewrite interactor_set_y_eq.
    cbn [FSMInteractor.y FSMInteractor.x FSMInteractor.parent
         FSMInteractor.fsm FSMInteractor.bookkeeping].
    rewrite (bool_decide_eq_false_2 _ Hy).
    rewrite (bool_decide_eq_true_2 (a ≠ x0)) by congruence.
    cbn [orb]. repeat split; reflexivity.
Qed.

End InteractorSetterFacts.


(** ** More on [dispatchRawEvent] *)

Section DispatchMore.
Context `{FSMClass}.






Lemma filter_none {A} (P : A -> Prop) `{forall x, Decision (P x)} (l : list A) :
  (forall x, x ∈ l -> ~ P x) -> filter P l = [].
Proof.
  induction l as [|a l IH]; intros Hl; [reflexivity|].
  rewrite filter_cons_False by (apply Hl; left).
  apply IH. intros x Hx. apply Hl. right. exact Hx.
Qed.

(** While the pointer stays over the same regions, no enter and no exit
    event is sent: a dispatch whose pick result has the members of the
    bookkeeping sends the events of the raw event's kind and nothing
    else. *)
Lemma stationary_calls (it : FSMInteractor.t) (what : RawEvent)
    (evt : MouseEvent) (cur : list RegionRef) :
  (forall r, r ∈ FSMInteractor.bookkeeping it <-> r ∈ cur) ->
  all_calls it what evt cur = kind_calls what evt cur.
Proof.
  intros Hsame. unfold all_calls, exited, entered.
  rewrite (filter_none (fun y => y ∉ cur))
    by (intros r Hr Hn; apply Hn, Hsame, Hr).
  rewrite (filter_none (fun x => x ∉ FSMInteractor.bookkeeping it))
    by (intros r Hr Hn; apply Hn, Hsame, Hr).
  reflexivity.
Qed.

(** X3.  A dispatch stores the regions picked when it started, whatever
    [actOnEvent] did to them meanwhile, so a second dispatch that picks the
    same regions sends no enter and no exit event: only the events of its
    own kind. *)
Theorem second_dispatch_same_regions (it : FSMInteractor.t) (f : FSM)
    (what1 what2 : RawEvent) (lx1 ly1 lx2 ly2 : Z) (evt1 evt2 : MouseEvent)
    (w : World) :
  FSMInteractor.fsm it = Some f ->
  let out1 := FSMInteractor.dispatchRawEvent it what1 lx1 ly1 evt1 w in
  let it1 := (result out1).1 in
  FSMInteractor.pick it1 lx2 ly2 (world_of out1)
  = FSMInteractor.pick it lx1 ly1 w ->
  FSMInteractor.bookkeeping it1 = FSMInteractor.pick it lx1 ly1 w
  /\ (result (FSMInteractor.dispatchRawEvent it1 what2 lx2 ly2 evt2
                (world_of out1))).2
     = kind_calls what2 evt2 (FSMInteractor.pick it lx1 ly1 w).
Proof.
  intros Hf out1 it1 Hpick.
  assert (Hbk : FSMInteractor.bookkeeping it1 = FSMInteractor.pick it lx1 ly1 w).
  { subst it1 out1. rewrite (dispatch_eq it f what1 lx1 ly1 evt1 w Hf).
    reflexivity. }
  assert (Hf1 : exists f1, FSMInteractor.fsm it1 = Some f1).
  { subst it1 out1. rewrite (dispatch_eq it f what1 lx1 ly1 evt1 w Hf).
    cbv zeta. cbn [result fst snd FSMInteractor.fsm]. eexists. reflexivity. }
  destruct Hf1 as [f1 Hf1]. split; [exact Hbk|].
  rewrite (dispatch_eq it1 f1 what2 lx2 ly2 evt2 (world_of out1) Hf1).
  cbv zeta. cbn [result fst snd]. rewrite Hpick.
  apply stationary_calls. intros r. rewrite Hbk. reflexivity.
Qed.

(** X4.  Every dispatch on an interactor with an FSM ends by declaring damage
    to the parent, also when the picked regions are those of the frame
    before: the output is what the calls to [actOnEvent] produced followed
    by one damage notification; the position and the parent of the
    interactor are kept. *)
Theorem dispatch_always_declares_damage (it : FSMInteractor.t) (f : FSM)
    (what : RawEvent) (lx ly : Z) (evt : MouseEvent) (w : World) :
  FSMInteractor.fsm it = Some f ->
  let out := FSMInteractor.dispatchRawEvent it what lx ly evt w in
  effects_of out
  = effects_of (feed (result out).2 f w)
    ++ root_damage (FSMInteractor.parent it)
  /\ FSMInteractor.x (result out).1 = FSMInteractor.x it
  /\ FSMInteractor.y (result out).1 = FSMInteractor.y it
  /\ FSMInteractor.parent (result out).1 = FSMInteractor.parent it.
Proof.
  intros Hf out. subst out.
  rewrite (dispatch_eq it f what lx ly evt w Hf). cbv zeta.
  cbn [result effects_of fst snd FSMInteractor.x FSMInteractor.y
       FSMInteractor.parent].
  repeat split; reflexivity.
Qed.

End DispatchMore.


Lemma second_dispatch_same_regions_witness :
  let f : @FSM recording_FSM := ([0; 1]%nat, []) in
  let it := FSMInteractor.new (Some f) 0 0 None in
  let evt := {| offsetX := 7; offsetY := 7 |} in
  let out1 := FSMInteractor.dispatchRawEvent it Press 7 7 evt two_regions in
  let it1 := (result out1).1 in
  FSMInteractor.pick it1 8 8 (world_of out1) = FSMInteractor.pick it 7 7 two_regions
  /\ FSMInteractor.bookkeeping it1 = FSMInteractor.pick it 7 7 two_regions
  /\ (result (FSMInteractor.dispatchRawEvent it1 Move 8 8 evt (world_of out1))).2
     = kind_calls Move evt (FSMInteractor.pick it 7 7 two_regions).
Proof.
  intros f it evt out1 it1.
  assert (Hpick : FSMInteractor.pick it1 8 8 (world_of out1)
                  = FSMInteractor.pick it 7 7 two_regions) by reflexivity.
  split; [exact Hpick|].
  exact (@second_dispatch_same_regions recording_FSM it f Press Move 7 7 8 8
           evt evt two_regions eq_refl Hpick).
Defined.

Lemma dispatch_always_declares_damage_witness :
  let f : @FSM recording_FSM := ([0; 1]%nat, []) in
  let it := {| FSMInteractor.fsm := Some f; FSMInteractor.x := 3;
               FSMInteractor.y := 4; FSMInteractor.parent := Some 9%nat;
               FSMInteractor.bookkeeping := [] |} in
  let evt := {| offsetX := 40; offsetY := 40 |} in
  let out := FSMInteractor.dispatchRawEvent it Move 40 40 evt two_regions in
  (result out).2 = []
  /\ effects_of out = effects_of (feed (result out).2 f two_regions) ++ [RootDamage 9%nat]
  /\ FSMInteractor.x (result out).1 = 3
  /\ FSMInteractor.y (result out).1 = 4
  /\ FSMInteractor.parent (result out).1 = Some 9%nat.
Proof.
  intros f it evt out. split; [reflexivity|].
  exact (@dispatch_always_declares_damage recording_FSM it f Move 40 40 evt
           two_regions eq_refl).
Defined.

(** ** Footprints of the methods of [Region] *)

Lemma updated_refl (r : RegionRef) (w : World) : updated r (fun rg => rg) w w.
Proof. split; [reflexivity|]. intros; reflexivity. Qed.

Lemma updated_upd (r : RegionRef) (f : Region -> Region) (w : World) :
  updated r f w (with_regionHeap (<[r := f (regionHeap w r)]> (regionHeap w)) w).
Proof.
  unfold updated, with_regionHeap. cbn [regionHeap]. split.
  - apply fn_lookup_insert.
  - intros r' Hne. apply fn_lookup_insert_ne. congruence.
Qed.

Lemma updated_trans (r : RegionRef) (g h : Region -> Region) (w w1 w2 : World) :
  updated r g w w1 -> updated r h w1 w2 -> updated r (fun rg => h (g rg)) w w2.
Proof.
  intros [Hg Hg'] [Hh Hh']. split.
  - rewrite Hh, Hg. reflexivity.
  - intros r' Hne. rewrite Hh', Hg' by exact Hne. reflexivity.
Qed.

Lemma updated_ext (r : RegionRef) (g h : Region -> Region) (w w' : World) :
  updated r g w w' -> g (regionHeap w r) = h (regionHeap w r) -> updated r h w w'.
Proof. intros [Hg Hg'] Heq. split; [congruence|exact Hg']. Qed.

Lemma with_size_same (rg : Region) : with_size (_w rg, _h rg) rg = rg.
Proof. destruct rg. reflexivity. Qed.

(** [set size] *)
Lemma set_size_updates (r : RegionRef) (v : Z * Z) (w : World) :
  ends (Region.set_size r v) w (fun _ w' es =>
    updated r (with_size v) w w'
    /\ imageHeap w' = imageHeap w /\ nextImage w' = nextImage w
    /\ nextRegion w' = nextRegion w /\ _imageCache w' = _imageCache w
    /\ es = if bool_decide (v.1 ≠ _w (regionHeap w r))
               || bool_decide (v.2 ≠ _h (regionHeap w r))
            then RegionDamage r :: parent_damage (_parent (regionHeap w r))
            else []).
Proof.
  unfold Region.set_size. apply ends_bind, ends_get_region.
  destruct (bool_decide (v.1 ≠ _w (regionHeap w r))) eqn:Hw;
    [|destruct (bool_decide (v.2 ≠ _h (regionHeap w r))) eqn:Hh]; cbn [orb].
  1,2: apply ends_bind, ends_upd_region, ends_bind, ends_upd_region, ends_damage;
       (split; [|unfold with_regionHeap; cbn [regionHeap imageHeap nextImage
                   nextRegion _imageCache app]; rewrite !fn_lookup_insert;
                 repeat split]);
       eapply updated_ext;
         [eapply updated_trans; apply updated_upd|reflexivity].
  apply ends_ret. split; [|repeat split].
  apply bool_decide_eq_false_1 in Hw. apply bool_decide_eq_false_1 in Hh.
  eapply updated_ext; [apply updated_refl|].
  destruct v as [a b]. cbn [fst snd] in *.
  assert (a = _w (regionHeap w r)) by (destruct (decide (a = _w (regionHeap w r))); [assumption|contradiction]).
  assert (b = _h (regionHeap w r)) by (destruct (decide (b = _h (regionHeap w r))); [assumption|contradiction]).
  subst. symmetry. apply with_size_same.
Qed.

(** [_resizeFromImage] *)
Lemma resizeFromImage_updates (r : RegionRef) (w : World) :
  ends (Region._resizeFromImage r) w (fun _ w' es =>
    updated r (resize_to w) w w'
    /\ imageHeap w' = imageHeap w /\ nextImage w' = nextImage w
    /\ nextRegion w' = nextRegion w /\ _imageCache w' = _imageCache w
    /\ image_requests es = 0%nat).
Proof.
  unfold Region._resizeFromImage. apply ends_bind, ends_get_region.
  unfold resize_to.
  destruct (_image (regionHeap w r)) as [i|] eqn:Hi.
  - destruct (_resizedByImage (regionHeap w r) && _loaded (regionHeap w r)) eqn:Hc.
    + apply ends_bind, ends_get_image.
      eapply ends_use; [apply set_size_updates|].
      intros u w' es (Hu & Hih & Hni & Hnr & Hc' & Hes). cbn [app].
      split; [|repeat split; try assumption].
      * eapply updated_ext; [exact Hu|]. rewrite Hi, Hc. reflexivity.
      * rewrite Hes. destruct (_ || _); [apply image_requests_damage|reflexivity].
    + apply ends_ret. split; [|repeat split].
      eapply updated_ext; [apply updated_refl|]. rewrite Hi, Hc. reflexivity.
  - apply ends_ret. split; [|repeat split].
    eapply updated_ext; [apply updated_refl|]. rewrite Hi. reflexivity.
Qed.

(** X5.  Assigning a new size declares damage once; assigning the two sides one
    after the other reaches the same region and declares damage twice. *)
Theorem size_setter_declares_damage_once (r : RegionRef) (a b : Z) (w : World) :
  _w (regionHeap w r) <> a -> _h (regionHeap w r) <> b ->
  let bySize := Region.set_size r (a, b) w in
  let bySides := (Region.set_w r a;; Region.set_h r b) w in
  regionHeap (world_of bySize) r = with_h b (with_w a (regionHeap w r))
  /\ regionHeap (world_of bySides) r = with_h b (with_w a (regionHeap w r))
  /\ damage_calls r (effects_of bySize) = 1%nat
  /\ damage_calls r (effects_of bySides) = 2%nat.
Proof.
  intros Hw Hh bySize bySides. subst bySize bySides.
  destruct (set_size_updates r (a, b) w) as ([Hr _] & _ & _ & _ & _ & Hes).
  cbn [fst snd] in Hes.
  rewrite (bool_decide_eq_true_2 (a ≠ _w (regionHeap w r))) in Hes by congruence.
  cbn [orb] in Hes.
  split; [exact Hr|]. split; [|split].
  - change (ends (Region.set_w r a;; Region.set_h r b) w
              (fun _ w' _ => regionHeap w' r = with_h b (with_w a (regionHeap w r)))).
    apply ends_bind.
    eapply ends_use; [apply (num_set_changed Fw r a w Hw)|].
    intros u w1 e1 (H1 & _). cbn [num_with] in H1.
    eapply ends_use; [apply (num_set_changed Fh r b w1)|].
    + cbn [num_get]. rewrite H1. exact Hh.
    + intros u' w2 e2 (H2 & _). cbn [num_with] in H2. rewrite H2, H1. reflexivity.
  - rewrite Hes. apply damage_calls_damage.
  - change (ends (Region.set_w r a;; Region.set_h r b) w
              (fun _ _ es => damage_calls r es = 2%nat)).
    apply ends_bind.
    eapply ends_use; [apply (num_set_changed Fw r a w Hw)|].
    intros u w1 e1 (H1 & _ & _ & He1). cbn [num_with] in H1.
    eapply ends_use; [apply (num_set_changed Fh r b w1)|].
    + cbn [num_get]. rewrite H1. exact Hh.
    + intros u' w2 e2 (_ & _ & _ & He2).
      rewrite damage_calls_app, He1, He2, !damage_calls_damage. reflexivity.
Qed.

Lemma size_setter_declares_damage_once_witness :
  let bySize := Region.set_size 0%nat (20, 30) two_regions in
  let bySides := (Region.set_w 0%nat 20;; Region.set_h 0%nat 30) two_regions in
  (_w (regionHeap two_regions 0%nat) <> 20 /\ _h (regionHeap two_regions 0%nat) <> 30)
  /\ regionHeap (world_of bySize) 0%nat
     = with_h 30 (with_w 20 (regionHeap two_regions 0%nat))
  /\ regionHeap (world_of bySides) 0%nat
     = with_h 30 (with_w 20 (regionHeap two_regions 0%nat))
  /\ damage_calls 0%nat (effects_of bySize) = 1%nat
  /\ damage_calls 0%nat (effects_of bySides) = 2%nat.
Proof.
  intros bySize bySides.
  assert (Hw : _w (regionHeap two_regions 0%nat) <> 20) by (vm_compute; discriminate).
  assert (Hh : _h (regionHeap two_regions 0%nat) <> 30) by (vm_compute; discriminate).
  split; [split; assumption|].
  exact (size_setter_declares_damage_once 0%nat 20 30 two_regions Hw Hh).
Defined.

(** ** The image cache *)

(** [_startImageLoad] on the two branches that end within the call. *)
Lemma startImageLoad_adopts (r : RegionRef) (w : World) :
  let loc := _imageLoc (regionHeap w r) in
  loc = "" \/ is_Some (_imageCache w !! loc) ->
  ends (Region._startImageLoad r) w (fun _ w' es =>
    updated r
      (adopt w (if bool_decide (loc = "") then None
                else default None (_imageCache w !! loc))) w w'
    /\ imageHeap w' = imageHeap w /\ nextImage w' = nextImage w
    /\ nextRegion w' = nextRegion w /\ _imageCache w' = _imageCache w
    /\ image_requests es = 0%nat).
Proof.
  intros loc Hsync. subst loc. unfold Region._startImageLoad.
  apply ends_bind, ends_get_region.
  assert (Hend : forall img : option ImageRef,
    ends (upd_region r (with_image img);;
          upd_region r (with_loaded true);;
          upd_region r (with_loadError false);;
          Region._resizeFromImage r;; Region.damage r) w
      (fun _ w' es =>
         updated r (adopt w img) w w'
         /\ imageHeap w' = imageHeap w /\ nextImage w' = nextImage w
         /\ nextRegion w' = nextRegion w /\ _imageCache w' = _imageCache w
         /\ image_requests ([] ++ es) = 0%nat)).
  { intros img.
    apply ends_bind, ends_upd_region, ends_bind, ends_upd_region,
      ends_bind, ends_upd_region, ends_bind.
    eapply ends_use; [apply resizeFromImage_updates|].
    intros u w1 e1 (Hu & Hih & Hni & Hnr & Hc & Hreq). apply ends_damage.
    cbn [app]. split; [|split; [exact Hih|split; [exact Hni|split;
      [exact Hnr|split; [exact Hc|]]]]].
    - eapply updated_ext.
      + eapply updated_trans; [|exact Hu].
        eapply updated_trans; [|apply updated_upd].
        eapply updated_trans; apply updated_upd.
      + reflexivity.
    - rewrite image_requests_app, image_requests_damage, Hreq. reflexivity. }
  destruct (bool_decide (_imageLoc (regionHeap w r) = "")) eqn:Hempty.
  - apply Hend.
  - apply ends_bind, ends_imageIsCached.
    destruct Hsync as [Hloc|Hcached].
    + apply bool_decide_eq_false_1 in Hempty. contradiction.
    + rewrite (bool_decide_eq_true_2 _ Hcached).
      apply ends_bind, ends_imageFromCache. apply Hend.
Qed.

Lemma adopt_fields (w : World) (img : option ImageRef) (rg : Region) :
  let rg' := adopt w img rg in
  _image rg' = img /\ _loaded rg' = true /\ _loadError rg' = false
  /\ _imageLoc rg' = _imageLoc rg /\ _name rg' = _name rg
  /\ _parent rg' = _parent rg /\ _x rg' = _x rg /\ _y rg' = _y rg
  /\ (_w rg', _h rg')
     = match img with
       | Some i =>
           if _resizedByImage rg
           then (img_width (imageHeap w i), img_height (imageHeap w i))
           else (_w rg, _h rg)
       | None => (_w rg, _h rg)
       end.
Proof.
  unfold adopt, resize_to. cbn.
  destruct img as [i|]; [|repeat split].
  destruct (_resizedByImage rg); cbn; repeat split.
Qed.

Lemma set_imageLoc_cached (r : RegionRef) (loc : string)
    (img : option ImageRef) (w : World) :
  _imageLoc (regionHeap w r) <> loc ->
  loc <> "" ->
  _imageCache w !! loc = Some img ->
  ends (Region.set_imageLoc r loc) w (fun _ w' es =>
    (_imageLoc (regionHeap w' r) = loc /\ _image (regionHeap w' r) = img
     /\ _loaded (regionHeap w' r) = true /\ _loadError (regionHeap w' r) = false)
    /\ (_x (regionHeap w' r), _y (regionHeap w' r))
       = (_x (regionHeap w r), _y (regionHeap w r))
    /\ (_w (regionHeap w' r), _h (regionHeap w' r))
       = match img with
         | Some i =>
             if _resizedByImage (regionHeap w r)
             then (img_width (imageHeap w i), img_height (imageHeap w i))
             else (_w (regionHeap w r), _h (regionHeap w r))
         | None => (_w (regionHeap w r), _h (regionHeap w r))
         end
    /\ image_requests es = 0%nat
    /\ nextImage w' = nextImage w
    /\ _imageCache w' = _imageCache w
    /\ (forall r', r' <> r -> regionHeap w' r' = regionHeap w r')).
Proof.
  intros Hne Hloc Hcache.
  apply ends_set_imageLoc_changed; [exact Hne|].
  set (w1 := with_regionHeap
               (<[r := with_imageLoc loc (regionHeap w r)]> (regionHeap w)) w).
  assert (H1 : updated r (with_imageLoc loc) w w1) by apply updated_upd.
  assert (Hloc1 : _imageLoc (regionHeap w1 r) = loc)
    by (rewrite (proj1 H1); reflexivity).
  eapply ends_use.
  - apply startImageLoad_adopts. right. rewrite Hloc1.
    change (_imageCache w1) with (_imageCache w). rewrite Hcache. eexists; reflexivity.
  - intros u w' es (Hu & _ & Hni & _ & Hc & Hreq).
    rewrite Hloc1 in Hu. rewrite (bool_decide_eq_false_2 _ Hloc) in Hu.
    change (_imageCache w1) with (_imageCache w) in Hu. rewrite Hcache in Hu.
    cbn [default from_option] in Hu. unfold id in Hu.
    destruct Hu as [Hr Hothers].
    rewrite (proj1 H1) in Hr.
    destruct (adopt_fields w1 img (with_imageLoc loc (regionHeap w r)))
      as (Hi & Hl & He & Hil & _ & _ & Hx & Hy & Hsz).
    rewrite <- Hr in *. cbn in Hil, Hx, Hy, Hsz.
    split; [repeat split; assumption|]. split; [congruence|].
    split; [exact Hsz|]. split; [exact Hreq|]. split; [exact Hni|].
    split; [exact Hc|].
    intros r' Hr'. rewrite Hothers by exact Hr'. apply (proj2 H1), Hr'.
Qed.


(** X6.  Assigning a location that is in the cache takes the cached image at
    once: no image is created or requested, the cache is left as it is, the
    region is loaded without error and holds the cached entry, and a region
    that follows its image's size takes the size of the image.  The other
    regions are untouched. *)
Theorem cached_location_is_adopted (r : RegionRef) (loc : string)
    (img : option ImageRef) (w : World) :
  _imageLoc (regionHeap w r) <> loc ->
  loc <> "" ->
  _imageCache w !! loc = Some img ->
  let out := Region.set_imageLoc r loc w in
  let rg := regionHeap w r in
  let rg' := regionHeap (world_of out) r in
  (_imageLoc rg' = loc /\ _image rg' = img
   /\ _loaded rg' = true /\ _loadError rg' = false)
  /\ (_x rg', _y rg') = (_x rg, _y rg)
  /\ (_w rg', _h rg')
     = match img with
       | Some i =>
           if _resizedByImage rg
           then (img_width (imageHeap w i), img_height (imageHeap w i))
           else (_w rg, _h rg)
       | None => (_w rg, _h rg)
       end
  /\ image_requests (effects_of out) = 0%nat
  /\ nextImage (world_of out) = nextImage w
  /\ _imageCache (world_of out) = _imageCache w
  /\ (forall r', r' <> r -> regionHeap (world_of out) r' = regionHeap w r').
Proof.
  intros Hne Hloc Hcache. exact (set_imageLoc_cached r loc img w Hne Hloc Hcache).
Qed.

Lemma cached_location_is_adopted_witness :
  let out := Region.set_imageLoc 1%nat "./a.png" loaded_page in
  let rg' := regionHeap (world_of out) 1%nat in
  _imageCache loaded_page !! "./a.png" = Some (Some 0%nat)
  /\ (_imageLoc rg' = "./a.png" /\ _image rg' = Some 0%nat
      /\ _loaded rg' = true /\ _loadError rg' = false)
  /\ (_x rg', _y rg') = (5, 5)
  /\ (_w rg', _h rg') = (40, 50)
  /\ image_requests (effects_of out) = 0%nat.
Proof.
  intros out rg'.
  assert (Hcache : _imageCache loaded_page !! "./a.png" = Some (Some 0%nat))
    by (vm_compute; reflexivity).
  split; [exact Hcache|].
  assert (Hne : _imageLoc (regionHeap loaded_page 1%nat) <> "./a.png")
    by (vm_compute; discriminate).
  assert (Hloc : "./a.png" <> "") by discriminate.
  destruct (cached_location_is_adopted 1%nat "./a.png" (Some 0%nat) loaded_page
              Hne Hloc Hcache) as (Hflags & Hxy & Hsz & Hreq & _).
  split; [exact Hflags|]. split; [exact Hxy|]. split; [exact Hsz|]. exact Hreq.
Defined.

(** [onload], when a region listens to the image. *)
Lemma img_onload_updates (i : ImageRef) (nw nh : Z) (r : RegionRef) (w : World) :
  img_loading (imageHeap w i) = true ->
  img_listener (imageHeap w i) = Some r ->
  let images := <[i := loaded_Image nw nh (imageHeap w i)]> (imageHeap w) in
  ends (Region.img_onload i nw nh) w (fun _ w' es =>
    updated r (fun rg => resize_to (with_imageHeap images w) (with_loaded true rg))
      w w'
    /\ imageHeap w' = images
    /\ nextImage w' = nextImage w /\ nextRegion w' = nextRegion w
    /\ _imageCache w'
       = <[_imageLoc (regionHeap w r) :=
             if _loadError (regionHeap w r) then None
             else _image (regionHeap w r)]> (_imageCache w)
    /\ image_requests es = 0%nat
    /\ (1 <= damage_calls r es)%nat).
Proof.
  intros Hloading Hlistener images. unfold Region.img_onload.
  apply ends_bind, ends_get_image. rewrite Hloading, Hlistener.
  apply ends_bind, ends_upd_image, ends_bind, ends_upd_region, ends_bind.
  eapply ends_use; [apply resizeFromImage_updates|].
  intros u w1 e1 (Hu & Hih & Hni & Hnr & Hc & Hreq).
  unfold Region._startImageLoad_resume.
  apply ends_bind, ends_get_region, ends_bind, ends_cacheImage, ends_damage.
  cbn [regionHeap imageHeap nextImage nextRegion _imageCache app].
  assert (Hu' : updated r
    (fun rg => resize_to (with_imageHeap images w) (with_loaded true rg)) w w1).
  { destruct Hu as [Hr Ho]. split.
    - rewrite Hr. unfold with_regionHeap, with_imageHeap. cbn [regionHeap].
      rewrite fn_lookup_insert. reflexivity.
    - intros r' Hne. rewrite Ho by exact Hne.
      unfold with_regionHeap, with_imageHeap. cbn [regionHeap].
      apply fn_lookup_insert_ne. congruence. }
  assert (Hkeep : _imageLoc (regionHeap w1 r) = _imageLoc (regionHeap w r)
                  /\ _loadError (regionHeap w1 r) = _loadError (regionHeap w r)
                  /\ _image (regionHeap w1 r) = _image (regionHeap w r)).
  { rewrite (proj1 Hu'). unfold resize_to. generalize (regionHeap w r).
    intros [n p l x y ww hh ld le rb [j|] st tl dl cx cy];
      [destruct rb|]; cbn; repeat split. }
  destruct Hkeep as (Hk1 & Hk2 & Hk3).
  split; [exact Hu'|]. split; [exact Hih|]. split; [exact Hni|].
  split; [exact Hnr|]. split; [rewrite Hk1, Hk2, Hk3, Hc; reflexivity|].
  rewrite image_requests_app, image_requests_damage, Hreq.
  rewrite damage_calls_app, damage_calls_damage. split; [reflexivity|lia].
Qed.

(** [onerror], when a region listens to the image. *)
Lemma img_onerror_updates (i : ImageRef) (r : RegionRef) (w : World) :
  img_loading (imageHeap w i) = true ->
  img_listener (imageHeap w i) = Some r ->
  ends (Region.img_onerror i) w (fun _ w' es =>
    updated r (fun rg => with_loaded true (with_loadError true rg)) w w'
    /\ imageHeap w' = <[i := failed_Image (imageHeap w i)]> (imageHeap w)
    /\ nextImage w' = nextImage w /\ nextRegion w' = nextRegion w
    /\ _imageCache w' = _imageCache w
    /\ es = [ErrEmit ("Load of image from " +:+ _imageLoc (regionHeap w r)
                      +:+ " failed")]).
Proof.
  intros Hloading Hlistener. unfold Region.img_onerror.
  apply ends_bind, ends_get_image. rewrite Hloading, Hlistener.
  apply ends_bind, ends_upd_image, ends_bind, ends_upd_region,
    ends_bind, ends_upd_region, ends_bind, ends_get_region.
  unfold Err_emit. apply ends_emit.
  split; [|unfold with_regionHeap, with_imageHeap;
           cbn [regionHeap imageHeap nextImage nextRegion _imageCache app];
           rewrite !fn_lookup_insert; repeat split].
  split.
  - unfold with_regionHeap, with_imageHeap. cbn [regionHeap].
    rewrite !fn_lookup_insert. reflexivity.
  - intros r' Hne. unfold with_regionHeap, with_imageHeap. cbn [regionHeap].
    rewrite !fn_lookup_insert_ne by congruence. reflexivity.
Qed.

(** X7.  When the load of a region's image succeeds, the region is loaded, a
    region that follows its image's size takes the natural size of the
    image, and the image is stored in the cache under the region's
    location; the other regions are untouched. *)
Theorem successful_load_is_cached (i : ImageRef) (nw nh : Z) (r : RegionRef)
    (w : World) :
  img_loading (imageHeap w i) = true ->
  img_listener (imageHeap w i) = Some r ->
  _image (regionHeap w r) = Some i ->
  _loadError (regionHeap w r) = false ->
  let out := Region.img_onload i nw nh w in
  let rg := regionHeap w r in
  let rg' := regionHeap (world_of out) r in
  _loaded rg' = true /\ _loadError rg' = false /\ _image rg' = Some i
  /\ (_w rg', _h rg') = (if _resizedByImage rg then (nw, nh) else (_w rg, _h rg))
  /\ _imageCache (world_of out) = <[_imageLoc rg := Some i]> (_imageCache w)
  /\ (img_width (imageHeap (world_of out) i),
      img_height (imageHeap (world_of out) i)) = (nw, nh)
  /\ (1 <= damage_calls r (effects_of out))%nat
  /\ (forall r', r' <> r -> regionHeap (world_of out) r' = regionHeap w r').
Proof.
  intros Hloading Hlistener Himg Herr out rg rg'. subst out rg rg'.
  destruct (img_onload_updates i nw nh r w Hloading Hlistener)
    as ([Hr Hothers] & Hih & _ & _ & Hc & _ & Hd).
  rewrite Himg, Herr in Hc.
  fold (world_of (Region.img_onload i nw nh w)) in *.
  fold (effects_of (Region.img_onload i nw nh w)) in *.
  rewrite Hr, Hih. unfold resize_to, with_imageHeap.
  cbn [_image with_loaded imageHeap _resizedByImage _loaded].
  rewrite Himg, andb_true_r, !fn_lookup_insert.
  destruct (_resizedByImage (regionHeap w r)); cbn;
    (split; [reflexivity|]; split; [exact Herr|]; split; [exact Himg|];
     split; [reflexivity|]; split; [exact Hc|]; split; [reflexivity|];
     split; [exact Hd|exact Hothers]).
Qed.

Lemma successful_load_is_cached_witness :
  let out := Region.img_onload 0%nat 40 50 pending_page in
  let rg' := regionHeap (world_of out) 0%nat in
  (img_loading (imageHeap pending_page 0%nat) = true
   /\ img_listener (imageHeap pending_page 0%nat) = Some 0%nat
   /\ _resizedByImage (regionHeap pending_page 0%nat) = true)
  /\ _loaded rg' = true /\ _loadError rg' = false /\ _image rg' = Some 0%nat
  /\ (_w rg', _h rg') = (40, 50)
  /\ _imageCache (world_of out) !! "./a.png" = Some (Some 0%nat).
Proof.
  intros out rg'. split; [repeat split|].
  destruct (successful_load_is_cached 0%nat 40 50 0%nat pending_page
              eq_refl eq_refl eq_refl eq_refl)
    as (Hl & He & Hi & Hsz & Hc & _).
  split; [exact Hl|]. split; [exact He|]. split; [exact Hi|].
  split; [exact Hsz|]. subst out. rewrite Hc. apply lookup_insert_eq.
Defined.

Lemma resize_to_load_state (w : World) (rg : Region) :
  load_state (resize_to w rg) = load_state rg
  /\ _name (resize_to w rg) = _name rg
  /\ _resizedByImage (resize_to w rg) = _resizedByImage rg
  /\ (_x (resize_to w rg), _y (resize_to w rg)) = (_x rg, _y rg).
Proof.
  unfold resize_to. destruct (_image rg); [|repeat split].
  destruct (_ && _); repeat split.
Qed.

(** X8.  Once a region has loaded its image, a second region that is given the
    same location takes the same image from the cache: no image is created
    or requested, it is loaded at once, and it takes the natural size of
    the image when it follows its image's size. *)
Theorem loaded_image_is_shared (i : ImageRef) (nw nh : Z) (r r2 : RegionRef)
    (w : World) :
  img_loading (imageHeap w i) = true ->
  img_listener (imageHeap w i) = Some r ->
  _image (regionHeap w r) = Some i ->
  _loadError (regionHeap w r) = false ->
  _imageLoc (regionHeap w r) <> "" ->
  r2 <> r ->
  _imageLoc (regionHeap w r2) <> _imageLoc (regionHeap w r) ->
  let w1 := world_of (Region.img_onload i nw nh w) in
  let out := Region.set_imageLoc r2 (_imageLoc (regionHeap w r)) w1 in
  let rg2 := regionHeap (world_of out) r2 in
  _image rg2 = Some i /\ _loaded rg2 = true /\ _loadError rg2 = false
  /\ (_w rg2, _h rg2)
     = (if _resizedByImage (regionHeap w r2) then (nw, nh)
        else (_w (regionHeap w r2), _h (regionHeap w r2)))
  /\ image_requests (effects_of out) = 0%nat
  /\ nextImage (world_of out) = nextImage w.
Proof.
  intros Hloading Hlistener Himg Herr Hloc Hr2 Hne w1 out rg2.
  destruct (img_onload_updates i nw nh r w Hloading Hlistener)
    as ([_ Hothers] & Hih & Hni & _ & Hc & _ & _).
  fold (world_of (Region.img_onload i nw nh w)) in *. fold w1 in Hothers, Hih, Hni, Hc.
  rewrite Himg, Herr in Hc.
  assert (Hcache : _imageCache w1 !! _imageLoc (regionHeap w r) = Some (Some i))
    by (rewrite Hc; apply lookup_insert_eq).
  assert (H2 : regionHeap w1 r2 = regionHeap w r2) by (apply Hothers, Hr2).
  assert (Hne1 : _imageLoc (regionHeap w1 r2) <> _imageLoc (regionHeap w r))
    by (rewrite H2; exact Hne).
  destruct (set_imageLoc_cached r2 _ (Some i) w1 Hne1 Hloc Hcache)
    as ((_ & Hi2 & Hl2 & He2) & _ & Hsz & Hreq & Hni2 & _).
  subst out rg2.
  split; [exact Hi2|]. split; [exact Hl2|]. split; [exact He2|].
  split; [|split; [exact Hreq|rewrite Hni2; exact Hni]].
  rewrite Hsz, H2, Hih, fn_lookup_insert. reflexivity.
Qed.

Lemma loaded_image_is_shared_witness :
  let w := world_of ((Region.new "A" "./a.png" 0 0 (-1) (-1) None;;
                      Region.new "B" "" 5 5 (-1) (-1) None) empty_World) in
  let w1 := world_of (Region.img_onload 0%nat 40 50 w) in
  let out := Region.set_imageLoc 1%nat "./a.png" w1 in
  let rg2 := regionHeap (world_of out) 1%nat in
  _imageLoc (regionHeap w 0%nat) = "./a.png"
  /\ _image rg2 = Some 0%nat /\ _loaded rg2 = true /\ _loadError rg2 = false
  /\ (_w rg2, _h rg2) = (40, 50)
  /\ image_requests (effects_of out) = 0%nat
  /\ nextImage (world_of out) = nextImage w.
Proof.
  intros w w1 out rg2. split; [reflexivity|].
  assert (Hloc : _imageLoc (regionHeap w 0%nat) <> "") by (vm_compute; discriminate).
  assert (Hr2 : 1%nat <> 0%nat) by discriminate.
  assert (Hne : _imageLoc (regionHeap w 1%nat) <> _imageLoc (regionHeap w 0%nat))
    by (vm_compute; discriminate).
  exact (loaded_image_is_shared 0%nat 40 50 0%nat 1%nat w
           eq_refl eq_refl eq_refl eq_refl Hloc Hr2 Hne).
Defined.

(** X9.  When an abandoned load of a region fails before the load of its
    current image succeeds, the success does not clear the error: the
    region ends loaded with [loadError] set although its image has loaded,
    and the cache records the current location as failed. *)
Theorem stale_failure_outlives_success (i1 i2 : ImageRef) (nw nh : Z)
    (r : RegionRef) (w : World) :
  i1 <> i2 ->
  img_loading (imageHeap w i1) = true ->
  img_listener (imageHeap w i1) = Some r ->
  img_loading (imageHeap w i2) = true ->
  img_listener (imageHeap w i2) = Some r ->
  _image (regionHeap w r) = Some i2 ->
  let out := (Region.img_onerror i1;; Region.img_onload i2 nw nh) w in
  let rg' := regionHeap (world_of out) r in
  _loaded rg' = true /\ _loadError rg' = true /\ _image rg' = Some i2
  /\ _imageCache (world_of out) !! _imageLoc (regionHeap w r) = Some None.
Proof.
  intros Hi Hl1 Hs1 Hl2 Hs2 Himg out rg'. subst rg' out.
  change (ends (Region.img_onerror i1;; Region.img_onload i2 nw nh) w
    (fun _ w' _ =>
       _loaded (regionHeap w' r) = true /\ _loadError (regionHeap w' r) = true
       /\ _image (regionHeap w' r) = Some i2
       /\ _imageCache w' !! _imageLoc (regionHeap w r) = Some None)).
  apply ends_bind.
  eapply ends_use; [apply (img_onerror_updates i1 r w Hl1 Hs1)|].
  intros u w1 e1 ([Hr1 _] & Hih1 & _ & _ & Hc1 & _).
  assert (Him2 : imageHeap w1 i2 = imageHeap w i2)
    by (rewrite Hih1; apply fn_lookup_insert_ne; exact Hi).
  eapply ends_use.
  - apply (img_onload_updates i2 nw nh r w1); rewrite Him2; assumption.
  - intros u' w2 e2 ([Hr2 _] & _ & _ & _ & Hc2 & _).
    rewrite Hr1 in Hr2, Hc2. cbn in Hc2.
    destruct (resize_to_load_state
                (with_imageHeap
                   (<[i2 := loaded_Image nw nh (imageHeap w1 i2)]> (imageHeap w1)) w1)
                (with_loaded true (with_loaded true (with_loadError true (regionHeap w r)))))
      as (Hls & _).
    rewrite <- Hr2 in Hls. unfold load_state in Hls. cbn in Hls.
    injection Hls as _ Hloaded Herr Himage _.
    split; [exact Hloaded|]. split; [exact Herr|]. split; [congruence|].
    rewrite Hc2. apply lookup_insert_eq.
Qed.

Lemma stale_failure_outlives_success_witness :
  let w := world_of ((Region.new "A" "./a.png" 0 0 10 10 None;;
                      Region.set_imageLoc 0%nat "./b.png") empty_World) in
  let out := (Region.img_onerror 0%nat;; Region.img_onload 1%nat 40 50) w in
  let rg' := regionHeap (world_of out) 0%nat in
  (_imageLoc (regionHeap w 0%nat) = "./b.png"
   /\ _image (regionHeap w 0%nat) = Some 1%nat)
  /\ _loaded rg' = true /\ _loadError rg' = true /\ _image rg' = Some 1%nat
  /\ _imageCache (world_of out) !! "./b.png" = Some None.
Proof.
  intros w out rg'. split; [split; reflexivity|].
  assert (Hi : 0%nat <> 1%nat) by discriminate.
  exact (stale_failure_outlives_success 0%nat 1%nat 40 50 0%nat w Hi
           eq_refl eq_refl eq_refl eq_refl eq_refl).
Defined.

(** ** The constructor of [Region] *)

(** [_startImageLoad] on the branch that waits for the browser. *)
Lemma startImageLoad_requests (r : RegionRef) (w : World) :
  _imageLoc (regionHeap w r) <> "" ->
  _imageCache w !! _imageLoc (regionHeap w r) = None ->
  ends (Region._startImageLoad r) w (fun _ w' es =>
    updated r (fun rg => with_loadError false (with_loaded false
                           (with_image (Some (nextImage w)) rg))) w w'
    /\ imageHeap w'
       = <[nextImage w :=
             {| img_src := _imageLoc (regionHeap w r); img_width := 0;
                img_height := 0; img_listener := Some r;
                img_loading := true |}]>
           (<[nextImage w := blank_Image]> (imageHeap w))
    /\ nextImage w' = S (nextImage w) /\ nextRegion w' = nextRegion w
    /\ _imageCache w' = _imageCache w
    /\ es = [ImageRequest (nextImage w) (_imageLoc (regionHeap w r))]).
Proof.
  intros Hloc Hmiss. unfold Region._startImageLoad.
  apply ends_bind, ends_get_region.
  rewrite (bool_decide_eq_false_2 _ Hloc).
  apply ends_bind, ends_imageIsCached.
  rewrite bool_decide_eq_false_2 by (rewrite Hmiss; apply is_Some_None).
  apply ends_bind, ends_new_Image, ends_bind, ends_upd_region,
    ends_bind, ends_upd_region, ends_bind, ends_upd_region,
    ends_bind, ends_upd_image, ends_emit.
  unfold with_regionHeap, with_imageHeap.
  cbn [regionHeap imageHeap _imageCache nextImage nextRegion app].
  rewrite !fn_lookup_insert.
  split; [|repeat split].
  split.
  - cbn [regionHeap]. rewrite !fn_lookup_insert. reflexivity.
  - intros r' Hne. cbn [regionHeap].
    rewrite !fn_lookup_insert_ne by congruence. reflexivity.
Qed.

(** The region a constructor call leaves behind. *)
Lemma new_region_ends (name loc : string) (x y w h : Z)
    (parent : option FSMRef) (W : World) :
  let init :=
    {| _name := name; _parent := parent; _imageLoc := loc;
       _x := x; _y := y; _w := Z.max 0 w; _h := Z.max 0 h;
       _loaded := false; _loadError := false;
       _resizedByImage := (w <? 0) || (h <? 0); _image := None;
       _setted := false; _tool := ""; _drawingLine := false;
       _cursorX := -1; _cursorY := -1 |} in
  ends (Region.new name loc x y w h parent) W (fun r W' es =>
    r = nextRegion W
    /\ nextRegion W' = S (nextRegion W)
    /\ (forall r', r' <> r -> regionHeap W' r' = regionHeap W r')
    /\ _imageCache W' = _imageCache W
    /\ if bool_decide (loc = "")
       then regionHeap W' r = adopt W None init
            /\ nextImage W' = nextImage W /\ image_requests es = 0%nat
       else match _imageCache W !! loc with
            | Some img =>
                regionHeap W' r = adopt W img init
                /\ nextImage W' = nextImage W /\ image_requests es = 0%nat
            | None =>
                regionHeap W' r
                = with_loadError false (with_loaded false
                    (with_image (Some (nextImage W)) init))
                /\ nextImage W' = S (nextImage W)
                /\ es = [ImageRequest (nextImage W) loc]
            end).
Proof.
  intros init. unfold Region.new.
  replace (if w <? 0 then 0 else w) with (Z.max 0 w)
    by (destruct (Z.ltb_spec w 0); lia).
  replace (if h <? 0 then 0 else h) with (Z.max 0 h)
    by (destruct (Z.ltb_spec h 0); lia).
  fold init. apply ends_bind, ends_alloc_Region.
  set (W1 := {| regionHeap := <[nextRegion W := init]> (regionHeap W);
                nextRegion := S (nextRegion W); imageHeap := imageHeap W;
                nextImage := nextImage W; _imageCache := _imageCache W |}).
  assert (Hr1 : regionHeap W1 (nextRegion W) = init) by apply fn_lookup_insert.
  assert (Ho1 : forall r', r' <> nextRegion W -> regionHeap W1 r' = regionHeap W r')
    by (intros r' Hne; apply fn_lookup_insert_ne; congruence).
  assert (Ha1 : forall img rg, adopt W1 img rg = adopt W img rg) by reflexivity.
  apply ends_bind.
  destruct (decide (loc = "")) as [Hempty|Hfull];
    [|destruct (_imageCache W !! loc) as [img|] eqn:Hcache].
  - eapply ends_use.
    + apply startImageLoad_adopts. left. rewrite Hr1. exact Hempty.
    + intros u W' es ([Hr Ho] & _ & Hni & Hnr & Hc & Hreq). apply ends_ret.
      rewrite Hr1, Ha1 in Hr. change (_imageLoc init) with loc in Hr.
      rewrite (bool_decide_eq_true_2 _ Hempty) in *.
      cbn [app]. rewrite app_nil_r.
      split; [reflexivity|]. split; [exact Hnr|].
      split; [intros r' Hne; rewrite Ho by exact Hne; apply Ho1, Hne|].
      split; [exact Hc|]. split; [exact Hr|]. split; [exact Hni|exact Hreq].
  - eapply ends_use.
    + apply startImageLoad_adopts. right. rewrite Hr1.
      change (is_Some (_imageCache W !! loc)). rewrite Hcache.
      eexists; reflexivity.
    + intros u W' es ([Hr Ho] & _ & Hni & Hnr & Hc & Hreq). apply ends_ret.
      rewrite Hr1, Ha1 in Hr. change (_imageLoc init) with loc in Hr.
      rewrite (bool_decide_eq_false_2 _ Hfull) in *.
      change (_imageCache W1) with (_imageCache W) in Hr. rewrite Hcache in Hr.
      cbn [default from_option] in Hr. unfold id in Hr.
      cbn [app]. rewrite app_nil_r.
      split; [reflexivity|]. split; [exact Hnr|].
      split; [intros r' Hne; rewrite Ho by exact Hne; apply Ho1, Hne|].
      split; [exact Hc|]. split; [exact Hr|]. split; [exact Hni|exact Hreq].
  - eapply ends_use.
    + apply startImageLoad_requests; rewrite Hr1; [exact Hfull|exact Hcache].
    + intros u W' es ([Hr Ho] & _ & Hni & Hnr & Hc & Hes). apply ends_ret.
      rewrite Hr1 in Hr, Hes. rewrite (bool_decide_eq_false_2 _ Hfull).
      cbn [app]. rewrite app_nil_r.
      split; [reflexivity|]. split; [exact Hnr|].
      split; [intros r' Hne; rewrite Ho by exact Hne; apply Ho1, Hne|].
      split; [exact Hc|]. split; [exact Hr|]. split; [exact Hni|exact Hes].
Qed.

(** X10.  A region comes out of its constructor at a fresh reference, with the
    given name, parent, location and position, and never in error; it
    follows the size of its image exactly when a side was given negative;
    it is loaded exactly when its location is empty or in the cache;
    unless it found an image in the cache its sides are the given ones,
    with 0 for a negative one.  The regions that existed are untouched. *)
Theorem constructed_region (name loc : string) (x y w h : Z)
    (parent : option FSMRef) (W : World) :
  let out := Region.new name loc x y w h parent W in
  let rg := regionHeap (world_of out) (result out) in
  result out = nextRegion W
  /\ (_name rg, _parent rg, _imageLoc rg, _x rg, _y rg)
     = (name, parent, loc, x, y)
  /\ _resizedByImage rg = (w <? 0) || (h <? 0)
  /\ _loadError rg = false
  /\ (_loaded rg = true <-> loc = "" \/ is_Some (_imageCache W !! loc))
  /\ (loc = "" \/ _imageCache W !! loc = None \/ _imageCache W !! loc = Some None ->
        (_w rg, _h rg) = (Z.max 0 w, Z.max 0 h))
  /\ (forall r', r' <> result out ->
        regionHeap (world_of out) r' = regionHeap W r').
Proof.
  intros out rg. subst rg out.
  destruct (new_region_ends name loc x y w h parent W)
    as (Hres & _ & Ho & _ & Hcase).
  cbv zeta in Hcase.
  set (init := {| _name := name; _parent := parent; _imageLoc := loc;
       _x := x; _y := y; _w := Z.max 0 w; _h := Z.max 0 h;
       _loaded := false; _loadError := false;
       _resizedByImage := (w <? 0) || (h <? 0); _image := None;
       _setted := false; _tool := ""; _drawingLine := false;
       _cursorX := -1; _cursorY := -1 |}) in *.
  split; [exact Hres|].
  assert (Hadopt : forall img,
    regionHeap (world_of (Region.new name loc x y w h parent W))
      (result (Region.new name loc x y w h parent W)) = adopt W img init ->
    let rg := regionHeap (world_of (Region.new name loc x y w h parent W))
                (result (Region.new name loc x y w h parent W)) in
    (_name rg, _parent rg, _imageLoc rg, _x rg, _y rg) = (name, parent, loc, x, y)
    /\ _resizedByImage rg = (w <? 0) || (h <? 0)
    /\ _loadError rg = false /\ _loaded rg = true
    /\ (img = None -> (_w rg, _h rg) = (Z.max 0 w, Z.max 0 h))).
  { intros img Hr rg. subst rg. rewrite Hr.
    destruct (adopt_fields W img init)
      as (_ & Hl & He & Hil & Hn & Hp & Hx & Hy & Hsz).
    split; [rewrite Hn, Hp, Hil, Hx, Hy; reflexivity|].
    split; [|split; [exact He|split; [exact Hl|]]].
    - unfold adopt.
      destruct (resize_to_load_state W
                  (with_loadError false (with_loaded true (with_image img init))))
        as (_ & _ & Hrb & _).
      rewrite Hrb. reflexivity.
    - intros ->. exact Hsz. }
  destruct (decide (loc = "")) as [Hempty|Hfull].
  - rewrite (bool_decide_eq_true_2 _ Hempty) in Hcase.
    destruct Hcase as (Hr & _).
    destruct (Hadopt None Hr) as (H1 & H2 & H3 & H4 & H5).
    split; [exact H1|]. split; [exact H2|]. split; [exact H3|].
    split; [split; [intros _; left; exact Hempty|intros _; exact H4]|].
    split; [intros _; apply H5; reflexivity|exact Ho].
  - rewrite (bool_decide_eq_false_2 _ Hfull) in Hcase.
    destruct (_imageCache W !! loc) as [img|] eqn:Hcache.
    + destruct Hcase as (Hr & _).
      destruct (Hadopt img Hr) as (H1 & H2 & H3 & H4 & H5).
      split; [exact H1|]. split; [exact H2|]. split; [exact H3|].
      split; [split; [intros _; right; eexists; reflexivity|intros _; exact H4]|].
      split; [|exact Ho].
      intros [Hc|[Hc|Hc]]; [contradiction|discriminate|].
      apply H5. congruence.
    + destruct Hcase as (Hr & _). rewrite Hr. cbn.
      split; [reflexivity|]. split; [reflexivity|]. split; [reflexivity|].
      split; [|split; [intros _; reflexivity|exact Ho]].
      split; [discriminate|].
      intros [Hc|[? Hc]]; [contradiction|discriminate].
Qed.

(** X11.  As long as a location is not in the cache, every region constructed
    with it starts a load of its own: two constructions request the image
    twice, and each region waits for its own image element. *)
Theorem uncached_location_is_requested_again (n1 n2 loc : string)
    (x1 y1 w1 h1 x2 y2 w2 h2 : Z) (p1 p2 : option FSMRef) (W : World) :
  loc <> "" ->
  _imageCache W !! loc = None ->
  let out := (r1 ← Region.new n1 loc x1 y1 w1 h1 p1;
              r2 ← Region.new n2 loc x2 y2 w2 h2 p2;
              mret (r1, r2)) W in
  let rg1 := regionHeap (world_of out) (result out).1 in
  let rg2 := regionHeap (world_of out) (result out).2 in
  effects_of out
  = [ImageRequest (nextImage W) loc; ImageRequest (S (nextImage W)) loc]
  /\ (_image rg1, _loaded rg1) = (Some (nextImage W), false)
  /\ (_image rg2, _loaded rg2) = (Some (S (nextImage W)), false)
  /\ _imageCache (world_of out) !! loc = None.
Proof.
  intros Hloc Hmiss out rg1 rg2. subst rg1 rg2 out.
  change (ends (r1 ← Region.new n1 loc x1 y1 w1 h1 p1;
                r2 ← Region.new n2 loc x2 y2 w2 h2 p2;
                mret (r1, r2)) W
    (fun rs W' es =>
       es = [ImageRequest (nextImage W) loc; ImageRequest (S (nextImage W)) loc]
       /\ (_image (regionHeap W' rs.1), _loaded (regionHeap W' rs.1))
          = (Some (nextImage W), false)
       /\ (_image (regionHeap W' rs.2), _loaded (regionHeap W' rs.2))
          = (Some (S (nextImage W)), false)
       /\ _imageCache W' !! loc = None)).
  apply ends_bind.
  eapply ends_use; [apply new_region_ends|].
  intros r1 W1 e1 (Hr1 & Hn1 & _ & Hc1 & Hcase1).
  rewrite (bool_decide_eq_false_2 _ Hloc), Hmiss in Hcase1.
  destruct Hcase1 as (Hrg1 & Hni1 & He1).
  apply ends_bind.
  eapply ends_use; [apply new_region_ends|].
  intros r2 W2 e2 (Hr2 & _ & Ho2 & Hc2 & Hcase2). apply ends_ret.
  rewrite (bool_decide_eq_false_2 _ Hloc), Hc1, Hmiss in Hcase2.
  destruct Hcase2 as (Hrg2 & _ & He2).
  cbn [fst snd]. rewrite He1, He2, Hni1, app_nil_r.
  split; [reflexivity|].
  assert (Hne : r1 <> r2) by (rewrite Hr1, Hr2, Hn1; lia).
  rewrite (Ho2 r1 Hne), Hrg1, Hrg2, Hc2, Hc1, Hni1.
  repeat split. exact Hmiss.
Qed.

Lemma uncached_location_is_requested_again_witness :
  let out := (r1 ← Region.new "A" "./a.png" 0 0 10 10 None;
              r2 ← Region.new "B" "./a.png" 5 5 10 10 None;
              mret (r1, r2)) empty_World in
  let rg1 := regionHeap (world_of out) (result out).1 in
  let rg2 := regionHeap (world_of out) (result out).2 in
  _imageCache empty_World !! "./a.png" = None
  /\ effects_of out = [ImageRequest 0%nat "./a.png"; ImageRequest 1%nat "./a.png"]
  /\ (_image rg1, _loaded rg1) = (Some 0%nat, false)
  /\ (_image rg2, _loaded rg2) = (Some 1%nat, false)
  /\ _imageCache (world_of out) !! "./a.png" = None.
Proof.
  intros out rg1 rg2.
  assert (Hmiss : _imageCache empty_World !! "./a.png" = None) by reflexivity.
  split; [exact Hmiss|].
  assert (Hloc : "./a.png" <> "") by discriminate.
  exact (uncached_location_is_requested_again "A" "B" "./a.png"
           0 0 10 10 5 5 10 10 None None empty_World Hloc Hmiss).
Defined.

Lemma constructed_region_witness :
  let out := Region.new "C" "./a.png" 3 4 (-1) 25 (Some 2%nat) loaded_page in
  let rg := regionHeap (world_of out) (result out) in
  result out = 2%nat
  /\ (_name rg, _parent rg, _imageLoc rg, _x rg, _y rg)
     = ("C", Some 2%nat, "./a.png", 3, 4)
  /\ _resizedByImage rg = true
  /\ _loadError rg = false
  /\ _loaded rg = true.
Proof.
  intros out rg.
  destruct (constructed_region "C" "./a.png" 3 4 (-1) 25 (Some 2%nat) loaded_page)
    as (Hres & Hfields & Hflag & Herr & Hloaded & _).
  split; [exact Hres|]. split; [exact Hfields|]. split; [exact Hflag|].
  split; [exact Herr|].
  apply Hloaded. right. vm_compute. eexists. reflexivity.
Defined.

(** X12.  A load that ends after its region has moved on to another location is
    booked on the new one: when the earlier image arrives while the later
    one is still on its way, the region counts as loaded, and the later
    image, not yet loaded, is put into the cache under the new location
    (and gives the region its size if the region follows its image). *)
Theorem stale_success_caches_pending_image (i1 i2 : ImageRef) (nw nh : Z)
    (r : RegionRef) (w : World) :
  i1 <> i2 ->
  img_loading (imageHeap w i1) = true ->
  img_listener (imageHeap w i1) = Some r ->
  img_loading (imageHeap w i2) = true ->
  _image (regionHeap w r) = Some i2 ->
  _loadError (regionHeap w r) = false ->
  let out := Region.img_onload i1 nw nh w in
  let rg' := regionHeap (world_of out) r in
  _loaded rg' = true /\ _image rg' = Some i2
  /\ img_loading (imageHeap (world_of out) i2) = true
  /\ _imageCache (world_of out) !! _imageLoc (regionHeap w r) = Some (Some i2)
  /\ (_resizedByImage (regionHeap w r) = true ->
        (_w rg', _h rg')
        = (img_width (imageHeap w i2), img_height (imageHeap w i2))).
Proof.
  intros Hi Hl1 Hs1 Hl2 Himg Herr out rg'. subst rg' out.
  destruct (img_onload_updates i1 nw nh r w Hl1 Hs1)
    as ([Hr _] & Hih & _ & _ & Hc & _).
  rewrite Hr, Hih, Hc, Herr, Himg.
  rewrite fn_lookup_insert_ne by exact Hi.
  unfold resize_to, with_imageHeap. cbn [_image with_loaded imageHeap].
  rewrite Himg. cbn [_resizedByImage _loaded with_loaded].
  rewrite fn_lookup_insert_ne by exact Hi.
  destruct (_resizedByImage (regionHeap w r)) eqn:Hrb; cbn [andb].
  - cbn. rewrite Himg. repeat split; try assumption. apply lookup_insert_eq.
  - cbn. rewrite Himg. repeat split; try assumption; [apply lookup_insert_eq|].
    discriminate.
Qed.

Lemma stale_success_caches_pending_image_witness :
  let w := world_of ((Region.new "A" "./a.png" 0 0 (-1) (-1) None;;
                      Region.set_imageLoc 0%nat "./b.png") empty_World) in
  let out := Region.img_onload 0%nat 40 50 w in
  let rg' := regionHeap (world_of out) 0%nat in
  (_imageLoc (regionHeap w 0%nat) = "./b.png"
   /\ _image (regionHeap w 0%nat) = Some 1%nat)
  /\ _loaded rg' = true /\ _image rg' = Some 1%nat
  /\ img_loading (imageHeap (world_of out) 1%nat) = true
  /\ _imageCache (world_of out) !! "./b.png" = Some (Some 1%nat)
  /\ (_w rg', _h rg') = (0, 0).
Proof.
  intros w out rg'. split; [split; reflexivity|].
  assert (Hi : 0%nat <> 1%nat) by discriminate.
  destruct (stale_success_caches_pending_image 0%nat 1%nat 40 50 0%nat w Hi
              eq_refl eq_refl eq_refl eq_refl eq_refl)
    as (H1 & H2 & H3 & H4 & H5).
  split; [exact H1|]. split; [exact H2|]. split; [exact H3|].
  split; [exact H4|]. exact (H5 eq_refl).
Defined.

(** ** The drawing tools *)

Lemma startDraw_set (r : RegionRef) (type : string) (w : World) :
  _setted (regionHeap w r) = true -> Region.startDraw r type w = (tt, w, []).
Proof.
  intros Hset. unfold Region.startDraw, mbind, M_bind, get_region.
  rewrite Hset. reflexivity.
Qed.

Lemma startDraw_unset (r : RegionRef) (type : string) (w : World) :
  _setted (regionHeap w r) = false ->
  Region.startDraw r type w
  = (tt,
     with_regionHeap
       (<[r := with_drawing true type (_drawingLine (regionHeap w r))
                 (_cursorX (regionHeap w r), _cursorY (regionHeap w r))
                 (regionHeap w r)]> (regionHeap w)) w,
     [AddListeners r type]).
Proof.
  intros Hset. unfold Region.startDraw, mbind, M_bind, get_region.
  rewrite Hset. reflexivity.
Qed.

Lemma removeListeners_eq (r : RegionRef) (w : World) :
  Region.removeListeners r w
  = (tt,
     with_regionHeap
       (<[r := with_drawing false "" false (-1, -1) (regionHeap w r)]>
          (regionHeap w)) w,
     [RemoveListeners r]).
Proof. reflexivity. Qed.

(** X13.  A region keeps the tool it was given first: after [startDraw] a second
    [startDraw] changes nothing and installs nothing, whatever tool it
    names.  The tool changes only by way of [removeListeners], after which
    the region is back to no tool, no stroke and no cursor, and the next
    [startDraw] is obeyed. *)
Theorem tool_kept_until_removed (r : RegionRef) (t1 t2 : string) (w : World) :
  let first := Region.startDraw r t1 w in
  let again := (Region.startDraw r t1;; Region.startDraw r t2) w in
  let stopped := (Region.startDraw r t1;; Region.removeListeners r) w in
  let swapped := (Region.startDraw r t1;; Region.removeListeners r;;
                  Region.startDraw r t2) w in
  again = first
  /\ _setted (regionHeap (world_of first) r) = true
  /\ (_setted (regionHeap w r) = false ->
        _tool (regionHeap (world_of first) r) = t1)
  /\ regionHeap (world_of stopped) r
     = with_drawing false "" false (-1, -1) (regionHeap w r)
  /\ regionHeap (world_of swapped) r
     = with_drawing true t2 false (-1, -1) (regionHeap w r)
  /\ effects_of swapped
     = effects_of first ++ [RemoveListeners r; AddListeners r t2].
Proof.
  intros first again stopped swapped. subst first again stopped swapped.
  rewrite !run_bind, !removeListeners_eq.
  destruct (_setted (regionHeap w r)) eqn:Hset.
  - rewrite !(startDraw_set r t1 w Hset).
    cbn [result world_of effects_of fst snd app].
    rewrite (startDraw_set r t2 w Hset).
    rewrite startDraw_unset
      by (cbn [with_regionHeap regionHeap]; rewrite fn_lookup_insert; reflexivity).
    cbn [result world_of effects_of fst snd app with_regionHeap regionHeap].
    rewrite !fn_lookup_insert.
    repeat split; try assumption. discriminate.
  - rewrite !(startDraw_unset r t1 w Hset).
    cbn [result world_of effects_of fst snd app].
    rewrite startDraw_set
      by (cbn [with_regionHeap regionHeap]; rewrite fn_lookup_insert; reflexivity).
    rewrite startDraw_unset
      by (cbn [with_regionHeap regionHeap]; rewrite fn_lookup_insert; reflexivity).
    cbn [result world_of effects_of fst snd app with_regionHeap regionHeap].
    rewrite !fn_lookup_insert.
    repeat split.
Qed.

(** ** What the operations leave as it was *)

Section AlwaysFacts.
Context (R : World -> World -> Prop) (allowed : RegionRef -> Prop).
Hypothesis R_refl : forall w, R w w.
Hypothesis R_trans : forall w1 w2 w3, R w1 w2 -> R w2 w3 -> R w1 w3.
Hypothesis R_upd_region :
  forall r f, allowed r -> inert f -> always R (upd_region r f).
Hypothesis R_request :
  forall r loc, allowed r -> always R (request_image r loc).

Lemma always_ret {A} (a : A) : always R (mret a : M A).
Proof. intros w. apply R_refl. Qed.

Lemma always_bind {A B} (m : M A) (k : A -> M B) :
  always R m -> (forall a, always R (k a)) -> always R (m ≫= k).
Proof.
  intros Hm Hk w. rewrite run_bind. cbn [world_of fst snd].
  eapply R_trans; [apply Hm|apply Hk].
Qed.

Lemma always_emit (e : Effect) : always R (emit e).
Proof. intros w. apply R_refl. Qed.

Lemma always_get_region (r : RegionRef) : always R (get_region r).
Proof. intros w. apply R_refl. Qed.

Lemma always_get_image (i : ImageRef) : always R (get_image i).
Proof. intros w. apply R_refl. Qed.

Lemma always_imageIsCached (loc : string) : always R (Region._imageIsCached loc).
Proof. intros w. apply R_refl. Qed.

Lemma always_imageFromCache (loc : string) : always R (Region._imageFromCache loc).
Proof. intros w. apply R_refl. Qed.

Lemma always_damage (r : RegionRef) : always R (Region.damage r).
Proof.
  unfold Region.damage.
  apply always_bind; [apply always_emit|]. intros _.
  apply always_bind; [apply always_get_region|]. intros rg.
  destruct (_parent rg); [apply always_emit|apply always_ret].
Qed.

Lemma always_set_size (r : RegionRef) (v : Z * Z) :
  allowed r -> always R (Region.set_size r v).
Proof.
  intros Hr. unfold Region.set_size.
  apply always_bind; [apply always_get_region|]. intros rg.
  destruct (_ || _); [|apply always_ret].
  apply always_bind; [apply R_upd_region; [exact Hr|intros ?; reflexivity]|].
  intros _.
  apply always_bind; [apply R_upd_region; [exact Hr|intros ?; reflexivity]|].
  intros _. apply always_damage.
Qed.

Lemma always_resizeFromImage (r : RegionRef) :
  allowed r -> always R (Region._resizeFromImage r).
Proof.
  intros Hr. unfold Region._resizeFromImage.
  apply always_bind; [apply always_get_region|]. intros rg.
  destruct (_image rg); [|apply always_ret].
  destruct (_ && _); [|apply always_ret].
  apply always_bind; [apply always_get_image|]. intros im.
  apply always_set_size, Hr.
Qed.

Lemma always_startImageLoad (r : RegionRef) :
  allowed r -> always R (Region._startImageLoad r).
Proof.
  intros Hr. unfold Region._startImageLoad.
  apply always_bind; [apply always_get_region|]. intros rg.
  assert (Hend : forall img : option ImageRef,
    always R (upd_region r (with_image img);;
              upd_region r (with_loaded true);;
              upd_region r (with_loadError false);;
              Region._resizeFromImage r;; Region.damage r)).
  { intros img.
    do 3 (apply always_bind;
            [apply R_upd_region; [exact Hr|intros ?; reflexivity]|]; intros _).
    apply always_bind; [apply always_resizeFromImage, Hr|]. intros _.
    apply always_damage. }
  destruct (bool_decide (_imageLoc rg = "")); [apply Hend|].
  apply always_bind; [apply always_imageIsCached|]. intros [].
  - apply always_bind; [apply always_imageFromCache|]. intros img. apply Hend.
  - apply (R_request r (_imageLoc rg) Hr).
Qed.

Lemma always_set_imageLoc (r : RegionRef) (v : string) :
  allowed r -> always R (Region.set_imageLoc r v).
Proof.
  intros Hr. unfold Region.set_imageLoc.
  apply always_bind; [apply always_get_region|]. intros rg.
  destruct (bool_decide _); [|apply always_ret].
  apply always_bind; [apply R_upd_region; [exact Hr|intros ?; reflexivity]|].
  intros _. apply always_startImageLoad, Hr.
Qed.

Lemma always_startDraw (r : RegionRef) (type : string) :
  allowed r -> always R (Region.startDraw r type).
Proof.
  intros Hr. unfold Region.startDraw.
  apply always_bind; [apply always_get_region|]. intros rg.
  destruct (_setted rg); [apply always_ret|].
  apply always_bind; [apply R_upd_region; [exact Hr|intros ?; reflexivity]|].
  intros _. apply always_emit.
Qed.

Lemma always_removeListeners (r : RegionRef) :
  allowed r -> always R (Region.removeListeners r).
Proof.
  intros Hr. unfold Region.removeListeners.
  apply always_bind; [apply always_emit|]. intros _.
  apply R_upd_region; [exact Hr|intros ?; reflexivity].
Qed.

Lemma always_on_region (a : Action.t) (m : RegionRef -> M unit) :
  (forall r, Action._onRegion a = Some r -> always R (m r)) ->
  always R (Action.on_region a m).
Proof.
  intros Hm. unfold Action.on_region.
  destruct (Action._onRegion a) as [r|]; [apply Hm; reflexivity|apply always_ret].
Qed.

Lemma always_switch {A} (s : string) (cases : list (string * M A)) (dflt : M A) :
  Forall (fun c => always R c.2) cases -> always R dflt ->
  always R (Action.switch s cases dflt).
Proof.
  intros Hcases Hd. induction Hcases as [|[label body] cases Hc _ IH]; simpl.
  - exact Hd.
  - destruct (bool_decide (s = label)); [exact Hc|exact IH].
Qed.

Lemma always_execute (a : Action.t) (evtType : EventType)
    (evtReg : option RegionRef) (evt : option MouseEvent) :
  (forall r, Action._onRegion a = Some r -> allowed r) ->
  always R (Action.execute a evtType evtReg evt).
Proof.
  intros Hr. unfold Action.execute. destruct (bool_decide _); [apply always_ret|].
  apply always_bind; [apply always_emit|]. intros _.
  apply always_bind; [apply always_emit|]. intros _.
  apply always_bind; [|intros _; apply always_ret].
  apply always_switch; [|apply always_ret].
  unfold Action.execute_cases, Action.log.
  repeat (constructor;
    [cbn [snd];
     first [ apply always_on_region; intros r Hbound; apply Hr in Hbound;
             first [apply always_set_imageLoc, Hbound
                   | apply always_startDraw, Hbound
                   | apply always_removeListeners, Hbound
                   | apply always_emit]
           | apply always_emit
           | intros w; apply R_refl
           | apply always_bind; [apply always_emit|]; intros _;
             apply always_on_region; intros r Hbound; apply Hr in Hbound;
             first [apply always_startDraw, Hbound
                   | apply always_removeListeners, Hbound] ]
    |]).
  constructor.
Qed.

End AlwaysFacts.

(** *** Within the bound region *)

Lemma within_refl (b : option RegionRef) (w : World) : within b w w.
Proof. repeat split. Qed.

Lemma within_trans (b : option RegionRef) (w1 w2 w3 : World) :
  within b w1 w2 -> within b w2 w3 -> within b w1 w3.
Proof.
  intros (Hc1 & Hn1 & H1) (Hc2 & Hn2 & H2).
  split; [congruence|]. split; [congruence|]. intros r.
  destruct (H1 r) as [Ho1 Hf1]. destruct (H2 r) as [Ho2 Hf2].
  split; [intros Hne; rewrite Ho2, Ho1 by exact Hne; reflexivity|congruence].
Qed.

Lemma within_upd_region (b : option RegionRef) (r : RegionRef)
    (f : Region -> Region) :
  Some r = b -> inert f -> always (within b) (upd_region r f).
Proof.
  intros <- Hf w. unfold upd_region, world_of, with_regionHeap.
  cbn [fst snd]. split; [reflexivity|]. split; [reflexivity|].
  intros r'. cbn [regionHeap].
  destruct (decide (r = r')) as [<-|Hne].
  - rewrite fn_lookup_insert. split; [intros []; reflexivity|apply Hf].
  - rewrite fn_lookup_insert_ne by exact Hne. split; reflexivity.
Qed.

Lemma within_request (b : option RegionRef) (r : RegionRef) (loc : string) :
  Some r = b -> always (within b) (request_image r loc).
Proof.
  intros <- w.
  unfold request_image, world_of, mbind, M_bind, new_Image, upd_region,
    upd_image, emit, with_regionHeap, with_imageHeap.
  cbn [fst snd regionHeap imageHeap _imageCache nextRegion nextImage].
  split; [reflexivity|]. split; [reflexivity|].
  intros r'. cbn [regionHeap]. destruct (decide (r = r')) as [<-|Hne].
  - rewrite !fn_lookup_insert. split; [intros []; reflexivity|reflexivity].
  - rewrite !fn_lookup_insert_ne by exact Hne. split; reflexivity.
Qed.

Lemma execute_within (a : Action.t) (evtType : EventType)
    (evtReg : option RegionRef) (evt : option MouseEvent) :
  always (within (Action._onRegion a)) (Action.execute a evtType evtReg evt).
Proof.
  apply (always_execute (within (Action._onRegion a))
           (fun r => Some r = Action._onRegion a)).
  - apply within_refl.
  - apply within_trans.
  - intros r f. apply within_upd_region.
  - intros r loc. apply within_request.
  - intros r Hbound. symmetry. exact Hbound.
Qed.

(** X14.  Whatever its type, an action has, when [execute] returns, changed
    no region but the one it is bound to, and of that one neither the name,
    the parent, the position nor the way it takes its size; it has created
    no region and left the image cache as it was.  (What [move_menu] and
    [select_color] install acts on later events.) *)
Theorem execute_stays_within_bound_region (a : Action.t) (evtType : EventType)
    (evtReg : option RegionRef) (evt : option MouseEvent) (w : World) :
  within (Action._onRegion a) w
    (world_of (Action.execute a evtType evtReg evt w)).
Proof. apply execute_within. Qed.

(** *** Actions without a region *)

Lemma only_logs_ret {A} (a : A) : only_logs (mret a : M A).
Proof. intros w. split; reflexivity. Qed.

Lemma only_logs_bind {A B} (m : M A) (k : A -> M B) :
  only_logs m -> (forall a, only_logs (k a)) -> only_logs (m ≫= k).
Proof.
  intros Hm Hk w. rewrite run_bind. cbn [world_of effects_of fst snd].
  destruct (Hm w) as [Hw He]. rewrite Hw.
  destruct (Hk (result (m w)) w) as [Hw' He'].
  split; [exact Hw'|]. rewrite forallb_app, He, He'. reflexivity.
Qed.

Lemma only_logs_log (args : list LogArg) : only_logs (Action.log args).
Proof. intros w. split; reflexivity. Qed.

Lemma only_logs_unbound (a : Action.t) (m : RegionRef -> M unit) :
  Action._onRegion a = None -> only_logs (Action.on_region a m).
Proof. intros Hnone. unfold Action.on_region. rewrite Hnone. apply only_logs_ret. Qed.

Lemma only_logs_switch {A} (s : string) (cases : list (string * M A)) (dflt : M A) :
  Forall (fun c => only_logs c.2) cases -> only_logs dflt ->
  only_logs (Action.switch s cases dflt).
Proof.
  intros Hcases Hd. induction Hcases as [|[label body] cases Hc _ IH]; simpl.
  - exact Hd.
  - destruct (bool_decide (s = label)); [exact Hc|exact IH].
Qed.

Lemma execute_unbound (a : Action.t) (evtType : EventType)
    (evtReg : option RegionRef) (evt : option MouseEvent) :
  Action._onRegion a = None ->
  only_logs (Action.execute a evtType evtReg evt).
Proof.
  intros Hnone. unfold Action.execute.
  destruct (bool_decide _); [apply only_logs_ret|].
  apply only_logs_bind; [apply only_logs_log|]. intros _.
  apply only_logs_bind; [apply only_logs_log|]. intros _.
  apply only_logs_bind; [|intros _; apply only_logs_ret].
  apply only_logs_switch; [|apply only_logs_ret].
  unfold Action.execute_cases.
  repeat (constructor;
    [cbn [snd];
     first [ apply only_logs_unbound, Hnone
           | apply only_logs_log
           | intros w; split; reflexivity
           | apply only_logs_bind; [apply only_logs_log|]; intros _;
             apply only_logs_unbound, Hnone ]
    |]).
  constructor.
Qed.

(** X15.  An action that is bound to no region changes nothing when it is
    executed, whatever its type: it returns normally and all it does is
    write on the console. *)
Theorem unbound_action_only_logs (a : Action.t) (evtType : EventType)
    (evtReg : option RegionRef) (evt : option MouseEvent) (w : World) :
  Action._onRegion a = None ->
  let out := Action.execute a evtType evtReg evt w in
  result out = Normal /\ world_of out = w
  /\ forallb is_ConsoleLog (effects_of out) = true.
Proof.
  intros Hnone out. subst out.
  split; [apply execute_completes_normally|].
  apply execute_unbound, Hnone.
Qed.

Lemma unbound_action_only_logs_witness :
  let a := Action.new "set_image" "nowhere" "./a.png" in
  let out := Action.execute a press (Some 0%nat) None two_regions in
  effects_of out
  = [ConsoleLog [LogStr "evtType:"; LogStr (EventType_str press)];
     ConsoleLog [LogStr "actType:"; LogStr "set_image"]]
  /\ result out = Normal /\ world_of out = two_regions
  /\ forallb is_ConsoleLog (effects_of out) = true.
Proof.
  intros a out. split; [reflexivity|].
  exact (unbound_action_only_logs a press (Some 0%nat) None two_regions eq_refl).
Defined.

(** *** From binding to execution *)

Lemma set_imageLoc_sets (r : RegionRef) (loc : string) (w : World) :
  _imageLoc (regionHeap (world_of (Region.set_imageLoc r loc w)) r) = loc.
Proof.
  destruct (decide (_imageLoc (regionHeap w r) = loc)) as [Heq|Hne].
  - rewrite set_imageLoc_same by exact Heq. exact Heq.
  - destruct (set_imageLoc_changed r loc w Hne) as [Hloc _]. exact Hloc.
Qed.

Lemma execute_set_image (a : Action.t) (r : RegionRef) (evtType : EventType)
    (evtReg : option RegionRef) (evt : option MouseEvent) (w : World) :
  Action._actType a = "set_image" ->
  Action._onRegion a = Some r ->
  world_of (Action.execute a evtType evtReg evt w)
  = world_of (Region.set_imageLoc r (Action._param a) w).
Proof.
  intros Htype Hbound. unfold Action.execute, Action.execute_cases.
  rewrite Htype.
  rewrite bool_decide_eq_false_2 by discriminate.
  cbn [Action.switch].
  rewrite bool_decide_eq_true_2 by reflexivity.
  unfold Action.on_region. rewrite Hbound.
  rewrite !run_bind. reflexivity.
Qed.

(** X16.  A [set_image] action that names a region of the list it is bound with
    sets that region's image location to its parameter when it is executed
    (the first region of that name, if several bear it), and leaves every
    other region as it was. *)
Theorem set_image_reaches_named_region (name param : string)
    (pre post : list RegionRef) (r : RegionRef) (evtType : EventType)
    (evtReg : option RegionRef) (evt : option MouseEvent) (w : World) :
  _name (regionHeap w r) = name ->
  (forall q, q ∈ pre -> _name (regionHeap w q) <> name) ->
  let out := (a ← Action.bindRegion (Action.new "set_image" name param)
                    (pre ++ r :: post);
              Action.execute a evtType evtReg evt) w in
  result out = Normal
  /\ _imageLoc (regionHeap (world_of out) r) = param
  /\ (forall q, q <> r -> regionHeap (world_of out) q = regionHeap w q).
Proof.
  intros Hr Hpre out. subst out.
  rewrite run_bind. cbn [result world_of fst snd].
  assert (Hbind :
    Action.bindRegion (Action.new "set_image" name param) (pre ++ r :: post) w
    = ({| Action._actType := "set_image"; Action._onRegionName := name;
          Action._param := param; Action._onRegion := Some r;
          Action._regionLs := pre ++ r :: post |}, w, [])).
  { unfold Action.bindRegion, mbind, M_bind.
    cbn [Action._actType Action._onRegionName Action._param Action._onRegion
         Action._regionLs Action.new].
    rewrite bindRegion_loop_first by (cbn; assumption).
    reflexivity. }
  rewrite Hbind. cbn [result world_of fst snd].
  split; [apply execute_completes_normally|].
  split.
  - rewrite (execute_set_image _ r) by reflexivity. apply set_imageLoc_sets.
  - intros q Hq.
    destruct (execute_within
                {| Action._actType := "set_image"; Action._onRegionName := name;
                   Action._param := param; Action._onRegion := Some r;
                   Action._regionLs := pre ++ r :: post |} evtType evtReg evt w)
      as (_ & _ & Hframe).
    apply Hframe. cbn. congruence.
Qed.

Lemma set_image_reaches_named_region_witness :
  let out := (a ← Action.bindRegion (Action.new "set_image" "B" "./b.png")
                    [0%nat; 1%nat];
              Action.execute a press None None) loaded_page in
  _name (regionHeap loaded_page 1%nat) = "B"
  /\ result out = Normal
  /\ _imageLoc (regionHeap (world_of out) 1%nat) = "./b.png"
  /\ (forall q, q <> 1%nat ->
        regionHeap (world_of out) q = regionHeap loaded_page q).
Proof.
  intros out.
  assert (Hname : _name (regionHeap loaded_page 1%nat) = "B") by reflexivity.
  split; [exact Hname|].
  refine (set_image_reaches_named_region "B" "./b.png" [0%nat] [] 1%nat
            press None None loaded_page Hname _).
  intros q Hq. apply list_elem_of_singleton in Hq. subst q.
  vm_compute. discriminate.
Defined.

(** *** What no operation undoes *)

Lemma lasting_refl (w : World) : lasting w w.
Proof.
  split; [lia|]. split; [lia|]. split; [intros r _; split; reflexivity|].
  split; [intros i _; repeat split|]. intros loc Hloc. exact Hloc.
Qed.

Lemma lasting_trans (w1 w2 w3 : World) :
  lasting w1 w2 -> lasting w2 w3 -> lasting w1 w3.
Proof.
  intros (Hr1 & Hi1 & Hn1 & Him1 & Hc1) (Hr2 & Hi2 & Hn2 & Him2 & Hc2).
  split; [lia|]. split; [lia|]. split; [|split].
  - intros r Hlt. destruct (Hn1 r Hlt) as [Ha Hb].
    destruct (Hn2 r ltac:(lia)) as [Ha' Hb']. split; congruence.
  - intros i Hlt. destruct (Him1 i Hlt) as (Ha & Hb & Hc).
    destruct (Him2 i ltac:(lia)) as (Ha' & Hb' & Hc').
    split; [congruence|]. split; [congruence|].
    intros Hdone. rewrite Hc'; [apply Hc, Hdone|].
    rewrite Hc by exact Hdone. exact Hdone.
  - intros loc Hloc. apply Hc2, Hc1, Hloc.
Qed.

Lemma lasting_upd_region (r : RegionRef) (f : Region -> Region) :
  (forall rg, _name (f rg) = _name rg
              /\ _resizedByImage (f rg) = _resizedByImage rg) ->
  always lasting (upd_region r f).
Proof.
  intros Hf w. unfold upd_region, world_of, with_regionHeap. cbn [fst snd].
  split; [reflexivity|]. split; [reflexivity|]. split; [|split].
  - intros r' _. cbn [regionHeap].
    destruct (decide (r = r')) as [<-|Hne].
    + rewrite fn_lookup_insert. apply Hf.
    + rewrite fn_lookup_insert_ne by exact Hne. split; reflexivity.
  - intros i _. repeat split.
  - intros loc Hloc. exact Hloc.
Qed.

Lemma lasting_upd_inert (r : RegionRef) (f : Region -> Region) :
  True -> inert f -> always lasting (upd_region r f).
Proof.
  intros _ Hf. apply lasting_upd_region. intros rg.
  specialize (Hf rg). injection Hf as Hn _ _ _ Hrb. split; assumption.
Qed.

Lemma lasting_request (r : RegionRef) (loc : string) :
  True -> always lasting (request_image r loc).
Proof.
  intros _ w.
  unfold request_image, world_of, mbind, M_bind, new_Image, upd_region,
    upd_image, emit, with_regionHeap, with_imageHeap.
  cbn [fst snd regionHeap imageHeap _imageCache nextRegion nextImage].
  split; [reflexivity|]. split; [cbn [nextImage]; lia|]. split; [|split].
  - intros r' _. cbn [regionHeap].
    destruct (decide (r = r')) as [<-|Hne].
    + rewrite !fn_lookup_insert. split; reflexivity.
    + rewrite !fn_lookup_insert_ne by exact Hne. split; reflexivity.
  - intros i Hlt. cbn [imageHeap].
    rewrite !fn_lookup_insert_ne by lia. repeat split.
  - intros loc' Hloc. exact Hloc.
Qed.

Lemma lasting_alloc_Region (init : Region) : always lasting (alloc_Region init).
Proof.
  intros w. unfold alloc_Region, world_of. cbn [fst snd].
  split; [cbn; lia|]. split; [reflexivity|]. split; [|split].
  - intros r Hlt. cbn [regionHeap].
    rewrite fn_lookup_insert_ne by lia. split; reflexivity.
  - intros i _. repeat split.
  - intros loc Hloc. exact Hloc.
Qed.

Lemma lasting_cacheImage (loc : string) (img : option ImageRef) :
  always lasting (Region._cacheImage loc img).
Proof.
  intros w. unfold Region._cacheImage, world_of. cbn [fst snd].
  split; [reflexivity|]. split; [reflexivity|].
  split; [intros r _; split; reflexivity|].
  split; [intros i _; repeat split|].
  intros loc' Hloc. cbn [_imageCache].
  destruct (decide (loc = loc')) as [<-|Hne].
  - rewrite lookup_insert_eq. eexists; reflexivity.
  - rewrite lookup_insert_ne by exact Hne. exact Hloc.
Qed.

(** The end of a load: the element that was loading gets its outcome. *)
Lemma lasting_end_of_load (i : ImageRef) (f : Image -> Image) (w : World) :
  img_loading (imageHeap w i) = true ->
  (forall im, img_src (f im) = img_src im
              /\ img_listener (f im) = img_listener im) ->
  lasting w (world_of (upd_image i f w)).
Proof.
  intros Hl Hf. unfold upd_image, world_of, with_imageHeap. cbn [fst snd].
  split; [reflexivity|]. split; [reflexivity|].
  split; [intros r _; split; reflexivity|]. split.
  - intros i' _. cbn [imageHeap].
    destruct (decide (i = i')) as [<-|Hne].
    + rewrite fn_lookup_insert. destruct (Hf (imageHeap w i)) as [Hs Hli].
      split; [exact Hs|]. split; [exact Hli|]. congruence.
    + rewrite fn_lookup_insert_ne by exact Hne. repeat split.
  - intros loc Hloc. exact Hloc.
Qed.

Lemma lasts_ret {A} (a : A) : always lasting (mret a : M A).
Proof. apply always_ret, lasting_refl. Qed.

Lemma lasts_bind {A B} (m : M A) (k : A -> M B) :
  always lasting m -> (forall a, always lasting (k a)) ->
  always lasting (m ≫= k).
Proof. apply always_bind, lasting_trans. Qed.

Lemma lasts_get_region (r : RegionRef) : always lasting (get_region r).
Proof. apply always_get_region, lasting_refl. Qed.

Lemma lasts_damage (r : RegionRef) : always lasting (Region.damage r).
Proof. apply always_damage; [apply lasting_refl|apply lasting_trans]. Qed.

(** Every setter of one field. *)
Ltac lasts_setter :=
  apply lasts_bind; [apply lasts_get_region|]; intros ?;
  match goal with
  | |- always lasting (if ?b then _ else _) => destruct b
  end;
  [apply lasts_ret
  |apply lasts_bind; [apply lasting_upd_region; intros ?; split; reflexivity
                     |intros _; apply lasts_damage]].

Lemma lasts_set_x (r : RegionRef) (v : Z) : always lasting (Region.set_x r v).
Proof. unfold Region.set_x. lasts_setter. Qed.

Lemma lasts_set_y (r : RegionRef) (v : Z) : always lasting (Region.set_y r v).
Proof. unfold Region.set_y. lasts_setter. Qed.

Lemma lasts_set_w (r : RegionRef) (v : Z) : always lasting (Region.set_w r v).
Proof. unfold Region.set_w. lasts_setter. Qed.

Lemma lasts_set_h (r : RegionRef) (v : Z) : always lasting (Region.set_h r v).
Proof. unfold Region.set_h. lasts_setter. Qed.

Lemma lasts_set_parent (r : RegionRef) (v : option FSMRef) :
  always lasting (Region.set_parent r v).
Proof. unfold Region.set_parent. lasts_setter. Qed.

Lemma lasts_set_size (r : RegionRef) (v : Z * Z) :
  always lasting (Region.set_size r v).
Proof.
  apply (always_set_size lasting (fun _ => True));
    [apply lasting_refl|apply lasting_trans|apply lasting_upd_inert|exact I].
Qed.

Lemma lasts_resizeFromImage (r : RegionRef) :
  always lasting (Region._resizeFromImage r).
Proof.
  apply (always_resizeFromImage lasting (fun _ => True));
    [apply lasting_refl|apply lasting_trans|apply lasting_upd_inert|exact I].
Qed.

Lemma lasts_startImageLoad (r : RegionRef) :
  always lasting (Region._startImageLoad r).
Proof.
  apply (always_startImageLoad lasting (fun _ => True));
    [apply lasting_refl|apply lasting_trans|apply lasting_upd_inert
    |apply lasting_request|exact I].
Qed.

Lemma lasts_set_imageLoc (r : RegionRef) (v : string) :
  always lasting (Region.set_imageLoc r v).
Proof.
  apply (always_set_imageLoc lasting (fun _ => True));
    [apply lasting_refl|apply lasting_trans|apply lasting_upd_inert
    |apply lasting_request|exact I].
Qed.

Lemma lasts_startDraw (r : RegionRef) (type : string) :
  always lasting (Region.startDraw r type).
Proof.
  apply (always_startDraw lasting (fun _ => True));
    [apply lasting_refl|apply lasting_trans|apply lasting_upd_inert|exact I].
Qed.

Lemma lasts_removeListeners (r : RegionRef) :
  always lasting (Region.removeListeners r).
Proof.
  apply (always_removeListeners lasting (fun _ => True));
    [apply lasting_refl|apply lasting_trans|apply lasting_upd_inert|exact I].
Qed.

Lemma lasts_execute (a : Action.t) (evtType : EventType)
    (evtReg : option RegionRef) (evt : option MouseEvent) :
  always lasting (Action.execute a evtType evtReg evt).
Proof.
  apply (always_execute lasting (fun _ => True));
    [apply lasting_refl|apply lasting_trans|apply lasting_upd_inert
    |apply lasting_request|intros; exact I].
Qed.

Lemma lasts_new name imageLoc x y w h parent :
  always lasting (Region.new name imageLoc x y w h parent).
Proof.
  unfold Region.new.
  apply lasts_bind; [apply lasting_alloc_Region|]. intros r.
  apply lasts_bind; [apply lasts_startImageLoad|]. intros _.
  apply lasts_ret.
Qed.

Lemma lasts_img_onload (i : ImageRef) (nw nh : Z) :
  always lasting (Region.img_onload i nw nh).
Proof.
  intros w.
  change (ends (Region.img_onload i nw nh) w (fun _ w' _ => lasting w w')).
  unfold Region.img_onload. apply ends_bind, ends_get_image.
  destruct (img_loading (imageHeap w i)) eqn:Hl; [|apply ends_ret, lasting_refl].
  apply ends_bind, ends_upd_image.
  assert (Hrest : always lasting
    (match img_listener (imageHeap w i) with
     | Some r =>
         upd_region r (with_loaded true);;
         Region._resizeFromImage r;;
         Region._startImageLoad_resume r
     | None => mret tt
     end)).
  { destruct (img_listener (imageHeap w i)) as [r|]; [|apply lasts_ret].
    apply lasts_bind; [apply lasting_upd_region; intros ?; split; reflexivity|].
    intros _. apply lasts_bind; [apply lasts_resizeFromImage|]. intros _.
    unfold Region._startImageLoad_resume.
    apply lasts_bind; [apply lasts_get_region|]. intros rg.
    apply lasts_bind; [apply lasting_cacheImage|]. intros _.
    apply lasts_damage. }
  unfold ends. eapply lasting_trans;
    [apply (lasting_end_of_load i (loaded_Image nw nh) w Hl);
     intros im; split; reflexivity|].
  exact (Hrest _).
Qed.

Lemma lasts_img_onerror (i : ImageRef) : always lasting (Region.img_onerror i).
Proof.
  intros w.
  change (ends (Region.img_onerror i) w (fun _ w' _ => lasting w w')).
  unfold Region.img_onerror. apply ends_bind, ends_get_image.
  destruct (img_loading (imageHeap w i)) eqn:Hl; [|apply ends_ret, lasting_refl].
  apply ends_bind, ends_upd_image.
  assert (Hrest : always lasting
    (match img_listener (imageHeap w i) with
     | Some r =>
         upd_region r (with_loadError true);;
         upd_region r (with_loaded true);;
         rg ← get_region r;
         Err_emit ("Load of image from " +:+ _imageLoc rg +:+ " failed")
     | None => mret tt
     end)).
  { destruct (img_listener (imageHeap w i)) as [r|]; [|apply lasts_ret].
    apply lasts_bind; [apply lasting_upd_region; intros ?; split; reflexivity|].
    intros _.
    apply lasts_bind; [apply lasting_upd_region; intros ?; split; reflexivity|].
    intros _. apply lasts_bind; [apply lasts_get_region|]. intros rg.
    apply always_emit, lasting_refl. }
  unfold ends. eapply lasting_trans;
    [apply (lasting_end_of_load i failed_Image w Hl);
     intros im; split; reflexivity|].
  exact (Hrest _).
Qed.

Lemma lasts_step (op : Op) : always lasting (step op).
Proof.
  destruct op; simpl.
  - apply lasts_bind; [apply lasts_new|intros _; apply lasts_ret].
  - apply lasts_set_x.
  - apply lasts_set_y.
  - apply lasts_set_w.
  - apply lasts_set_h.
  - apply lasts_set_size.
  - apply lasts_set_parent.
  - apply lasts_set_imageLoc.
  - apply lasts_startDraw.
  - apply lasts_removeListeners.
  - apply lasts_bind; [apply lasts_execute|intros _; apply lasts_ret].
  - apply lasts_img_onload.
  - apply lasts_img_onerror.
Qed.

(** X17.  Whatever is done to the regions of a page, in whatever order
    (construction, the setters, the drawing tools, actions, loads that end
    well or badly), no region and no image element disappears; a region
    keeps its name and the way it takes its size; an image element keeps
    its source and the region it notifies, and is not touched again once
    its load has ended; and a location that is in the cache stays in it. *)
Theorem nothing_is_undone (ops : list Op) (w : World) :
  lasting w (world_of (run ops w)).
Proof.
  revert w. induction ops as [|op ops IH]; intros w; simpl.
  - apply lasting_refl.
  - apply (lasts_bind (step op) (fun _ => run ops)); [apply lasts_step|].
    intros _. exact IH.
Qed.

(** ** Drawing by hand *)

Lemma gesture_app (tool : string) (ms1 ms2 : list Mouse) (rg : Region) :
  gesture tool (ms1 ++ ms2) rg
  = ((gesture tool ms2 (gesture tool ms1 rg).1).1,
     (gesture tool ms1 rg).2 ++ (gesture tool ms2 (gesture tool ms1 rg).1).2).
Proof.
  revert rg. induction ms1 as [|m ms1 IH]; intros rg; simpl.
  - destruct (gesture tool ms2 rg); reflexivity.
  - destruct (handle tool m rg) as [rg1 ps]. rewrite IH.
    destruct (gesture tool ms1 rg1) as [rg2 qs]. simpl.
    destruct (gesture tool ms2 rg2) as [rg3 rs]. simpl.
    rewrite app_assoc. reflexivity.
Qed.

Lemma kept_app (ps qs : list Paint) : kept (ps ++ qs) = kept ps ++ kept qs.
Proof. apply List.filter_app. Qed.

Ltac closed_strings :=
  repeat first [ rewrite bool_decide_eq_true_2 by reflexivity
               | rewrite bool_decide_eq_false_2 by discriminate ].

Lemma figure_tools (tool : string) :
  tool ∈ ["line"; "rect"; "circle"] ->
  tool = "line" \/ tool = "rect" \/ tool = "circle".
Proof.
  intros Ht. repeat (apply elem_of_cons in Ht as [Ht|Ht]; [tauto|]).
  apply elem_of_nil in Ht. contradiction.
Qed.

(** While a figure is being drawn, a move only shows it on the screen. *)
Lemma figure_move (tool : string) (x0 y0 : Z) (evt : MouseEvent) (rg : Region) :
  tool ∈ ["line"; "rect"; "circle"] -> x0 <> -1 ->
  mid_stroke tool x0 y0 rg ->
  (RegionDrawing._onMouseMove evt tool rg).1 = rg
  /\ kept (RegionDrawing._onMouseMove evt tool rg).2 = [].
Proof.
  intros Ht Hx (Htool & Hdraw & Hcx & Hcy).
  unfold RegionDrawing._onMouseMove.
  rewrite (bool_decide_eq_false_2 (_cursorX rg = -1)) by congruence.
  rewrite Hdraw, Htool. cbn [negb orb].
  apply figure_tools in Ht as [-> | [-> | ->]]; closed_strings; cbn [orb];
    unfold RegionDrawing.drawTools; rewrite Htool; cbn [Action.switch];
    closed_strings; split; reflexivity.
Qed.

Lemma figure_moves (tool : string) (x0 y0 : Z) (evts : list MouseEvent)
    (rg : Region) :
  tool ∈ ["line"; "rect"; "circle"] -> x0 <> -1 ->
  mid_stroke tool x0 y0 rg ->
  (gesture tool (MouseMove <$> evts) rg).1 = rg
  /\ kept (gesture tool (MouseMove <$> evts) rg).2 = [].
Proof.
  intros Ht Hx Hmid. induction evts as [|evt evts IH]; [split; reflexivity|].
  cbn [fmap list_fmap gesture handle].
  destruct (figure_move tool x0 y0 evt rg Ht Hx Hmid) as [Hrg Hps].
  destruct (RegionDrawing._onMouseMove evt tool rg) as [rg1 ps].
  cbn [fst snd] in Hrg, Hps. subst rg1.
  destruct IH as [Hrg' Hqs].
  change (list_fmap MouseEvent Mouse MouseMove evts) with (MouseMove <$> evts).
  destruct (gesture tool (MouseMove <$> evts) rg) as [rg2 qs].
  cbn [fst snd] in *. split; [exact Hrg'|].
  rewrite kept_app, Hps, Hqs. reflexivity.
Qed.

(** Between two strokes a move paints nothing. *)
Lemma idle_move (tool : string) (evt : MouseEvent) (rg : Region) :
  _drawingLine rg = false -> _cursorX rg <> -1 ->
  RegionDrawing._onMouseMove evt tool rg
  = (rg, [Say "mouse move:" None (offsetX evt) (offsetY evt)]).
Proof.
  intros Hdraw Hx. unfold RegionDrawing._onMouseMove.
  rewrite (bool_decide_eq_false_2 (_cursorX rg = -1)) by exact Hx.
  rewrite Hdraw. reflexivity.
Qed.

Lemma idle_moves (tool : string) (evts : list MouseEvent) (rg : Region) :
  _drawingLine rg = false -> _cursorX rg <> -1 ->
  (gesture tool (MouseMove <$> evts) rg).1 = rg
  /\ kept (gesture tool (MouseMove <$> evts) rg).2 = [].
Proof.
  intros Hdraw Hx. induction evts as [|evt evts IH]; [split; reflexivity|].
  cbn [fmap list_fmap gesture handle].
  rewrite (idle_move tool evt rg Hdraw Hx).
  change (list_fmap MouseEvent Mouse MouseMove evts) with (MouseMove <$> evts).
  destruct IH as [Hrg Hqs].
  destruct (gesture tool (MouseMove <$> evts) rg) as [rg2 qs].
  cbn [fst snd app] in *. split; [exact Hrg|].
  exact Hqs.
Qed.

Lemma figure_release (tool : string) (p0 p1 : MouseEvent) (rg : Region) :
  tool ∈ ["line"; "rect"; "circle"] ->
  mid_stroke tool (offsetX p0) (offsetY p0) rg ->
  (RegionDrawing._onMouseUp p1 rg).1
  = RegionDrawing.with_stroke false (offsetX p0, offsetY p0) rg
  /\ kept (RegionDrawing._onMouseUp p1 rg).2 = [figure tool p0 p1].
Proof.
  intros Ht (Htool & Hdraw & Hcx & Hcy).
  unfold RegionDrawing._onMouseUp, RegionDrawing.drawTools, figure.
  cbn [_tool _cursorX _cursorY RegionDrawing.with_stroke with_drawing fst snd].
  rewrite Htool, Hcx, Hcy.
  apply figure_tools in Ht as [-> | [-> | ->]]; cbn [Action.switch];
    closed_strings; cbn [fst snd kept List.filter on_buffer];
    (split; [reflexivity|]); try reflexivity.
  f_equal. f_equal; [destruct (Z.ltb_spec (offsetX p1 - offsetX p0) 0)
                    |destruct (Z.ltb_spec (offsetY p1 - offsetY p0) 0)]; lia.
Qed.

(** X18.  With the line, the rectangle or the ellipse tool, one stroke leaves
    one figure in the drawing: the one that spans from the point of the
    press to the point of the release.  The moves in between only show it
    on the screen, and the moves after the release paint nothing.  (The
    press must not be at offset -1, which the listeners take for `no
    stroke begun'.) *)
Theorem stroke_commits_one_figure (tool : string) (p0 p1 : MouseEvent)
    (during after : list MouseEvent) (rg : Region) :
  tool ∈ ["line"; "rect"; "circle"] ->
  _tool rg = tool ->
  offsetX p0 <> -1 ->
  let out := gesture tool (MouseDown p0 :: (MouseMove <$> during)
                           ++ MouseUp p1 :: (MouseMove <$> after)) rg in
  kept out.2 = [figure tool p0 p1]
  /\ out.1 = RegionDrawing.with_stroke false (offsetX p0, offsetY p0) rg.
Proof.
  intros Ht Htool Hx out. subst out.
  change (MouseDown p0 :: (MouseMove <$> during)
          ++ MouseUp p1 :: (MouseMove <$> after))
    with ([MouseDown p0] ++ (MouseMove <$> during)
          ++ [MouseUp p1] ++ (MouseMove <$> after)).
  rewrite !gesture_app. cbn [fst snd].
  set (rg0 := RegionDrawing.with_stroke true (offsetX p0, offsetY p0) rg).
  assert (Hdown : gesture tool [MouseDown p0] rg
                  = (rg0, [Say "mouse down:" (Some tool) (offsetX p0) (offsetY p0)]))
    by reflexivity.
  rewrite Hdown. cbn [fst snd].
  assert (Hmid : mid_stroke tool (offsetX p0) (offsetY p0) rg0)
    by (repeat split; exact Htool).
  destruct (figure_moves tool _ _ during rg0 Ht Hx Hmid) as [Hrg1 Hps1].
  rewrite Hrg1.
  destruct (figure_release tool p0 p1 rg0 Ht Hmid) as [Hrg2 Hps2].
  assert (Hup : gesture tool [MouseUp p1] rg0
                = ((RegionDrawing._onMouseUp p1 rg0).1,
                   (RegionDrawing._onMouseUp p1 rg0).2 ++ [])).
  { cbn [gesture handle]. destruct (RegionDrawing._onMouseUp p1 rg0). reflexivity. }
  rewrite Hup. cbn [fst snd]. rewrite Hrg2.
  set (rg2 := RegionDrawing.with_stroke false (offsetX p0, offsetY p0) rg0).
  destruct (idle_moves tool after rg2) as [Hrg3 Hps3];
    [reflexivity|exact Hx|].
  rewrite Hrg3. rewrite !kept_app, Hps1, Hps2, Hps3.
  split; reflexivity.
Qed.

Lemma stroke_commits_one_figure_witness :
  let p x y := {| offsetX := x; offsetY := y |} in
  let rg := regionHeap (world_of (Region.startDraw 0%nat "rect" two_regions)) 0%nat in
  let out := gesture "rect" [MouseDown (p 10 10); MouseMove (p 15 12);
                             MouseMove (p 30 5); MouseUp (p 20 40);
                             MouseMove (p 50 50)] rg in
  _tool rg = "rect"
  /\ kept out.2 = [Rectangle Buffer 10 10 10 30]
  /\ out.1 = RegionDrawing.with_stroke false (10, 10) rg.
Proof.
  intros p rg out.
  assert (Htool : _tool rg = "rect") by reflexivity.
  split; [exact Htool|].
  assert (Ht : "rect" ∈ ["line"; "rect"; "circle"])
    by (apply elem_of_cons; right; apply elem_of_cons; left; reflexivity).
  assert (Hx : offsetX (p 10 10) <> -1) by discriminate.
  exact (stroke_commits_one_figure "rect" (p 10 10) (p 20 40)
           [p 15 12; p 30 5] [p 50 50] rg Ht Htool Hx).
Defined.

Lemma freehand_tools (tool : string) :
  tool ∈ ["free"; "erase"] -> tool = "free" \/ tool = "erase".
Proof.
  intros Ht. repeat (apply elem_of_cons in Ht as [Ht|Ht]; [tauto|]).
  apply elem_of_nil in Ht. contradiction.
Qed.

(** With the pen or the eraser every move goes into the drawing at once,
    and the stroke goes on from where the move ended. *)
Lemma freehand_move (tool : string) (x0 y0 : Z) (evt : MouseEvent) (rg : Region) :
  tool ∈ ["free"; "erase"] -> x0 <> -1 ->
  mid_stroke tool x0 y0 rg ->
  mid_stroke tool (offsetX evt) (offsetY evt)
    (RegionDrawing._onMouseMove evt tool rg).1
  /\ kept (RegionDrawing._onMouseMove evt tool rg).2
     = [Segment Buffer (bool_decide (tool = "erase")) x0 y0
          (offsetX evt) (offsetY evt)].
Proof.
  intros Ht Hx (Htool & Hdraw & Hcx & Hcy).
  unfold RegionDrawing._onMouseMove.
  rewrite (bool_decide_eq_false_2 (_cursorX rg = -1)) by congruence.
  rewrite Hdraw, Htool. cbn [negb orb].
  apply freehand_tools in Ht as [-> | ->]; closed_strings; cbn [orb];
    unfold RegionDrawing.drawTools; rewrite Htool, Hdraw, Hcx, Hcy;
    cbn [Action.switch]; closed_strings;
    (split; [repeat split; exact Htool|reflexivity]).
Qed.

Lemma last_cons {A} (a d : A) (l : list A) :
  List.last (a :: l) d = List.last l a.
Proof.
  revert a d. induction l as [|b l IH]; intros a d; [reflexivity|].
  change (List.last (a :: b :: l) d) with (List.last (b :: l) d).
  rewrite !IH. reflexivity.
Qed.

Lemma freehand_moves (tool : string) (p : MouseEvent) (evts : list MouseEvent)
    (rg : Region) :
  tool ∈ ["free"; "erase"] ->
  Forall (fun q => offsetX q <> -1) (p :: evts) ->
  mid_stroke tool (offsetX p) (offsetY p) rg ->
  mid_stroke tool (offsetX (List.last evts p)) (offsetY (List.last evts p))
    (gesture tool (MouseMove <$> evts) rg).1
  /\ kept (gesture tool (MouseMove <$> evts) rg).2
     = polyline (bool_decide (tool = "erase")) p evts.
Proof.
  intros Ht. revert p rg.
  induction evts as [|evt evts IH]; intros p rg Hpts Hmid.
  - split; [exact Hmid|reflexivity].
  - cbn [fmap list_fmap gesture handle].
    change (list_fmap MouseEvent Mouse MouseMove evts) with (MouseMove <$> evts).
    inversion Hpts as [|? ? Hp Hrest]; subst.
    destruct (freehand_move tool _ _ evt rg Ht Hp Hmid) as [Hmid1 Hps].
    destruct (RegionDrawing._onMouseMove evt tool rg) as [rg1 ps].
    cbn [fst snd] in Hmid1, Hps.
    destruct (IH evt rg1 Hrest Hmid1) as [Hmid2 Hqs].
    destruct (gesture tool (MouseMove <$> evts) rg1) as [rg2 qs].
    cbn [fst snd] in *. split.
    + rewrite last_cons. exact Hmid2.
    + rewrite kept_app, Hps, Hqs. reflexivity.
Qed.

Lemma freehand_release (tool : string) (x0 y0 : Z) (p1 : MouseEvent)
    (rg : Region) :
  tool ∈ ["free"; "erase"] ->
  mid_stroke tool x0 y0 rg ->
  (RegionDrawing._onMouseUp p1 rg).1
  = RegionDrawing.with_stroke false (offsetX p1, offsetY p1) rg
  /\ kept (RegionDrawing._onMouseUp p1 rg).2
     = [Segment Buffer (bool_decide (tool = "erase")) x0 y0
          (offsetX p1) (offsetY p1)].
Proof.
  intros Ht (Htool & Hdraw & Hcx & Hcy).
  unfold RegionDrawing._onMouseUp, RegionDrawing.drawTools.
  cbn [_tool _cursorX _cursorY _drawingLine RegionDrawing.with_stroke
       with_drawing fst snd].
  rewrite Htool, Hcx, Hcy.
  apply freehand_tools in Ht as [-> | ->]; cbn [Action.switch];
    closed_strings; split; reflexivity.
Qed.

Lemma polyline_snoc (white : bool) (p q : MouseEvent) (l : list MouseEvent) :
  polyline white p (l ++ [q])
  = polyline white p l
    ++ [Segment Buffer white (offsetX (List.last l p)) (offsetY (List.last l p))
          (offsetX q) (offsetY q)].
Proof.
  revert p. induction l as [|a l IH]; intros p; [reflexivity|].
  cbn [app polyline]. rewrite IH, last_cons. reflexivity.
Qed.

(** X19.  With the pen and with the eraser a stroke goes into the drawing as the
    broken line through the points of the press, of the moves and of the
    release, in white for the eraser; afterwards the cursor of the region
    is at the point of the release.  (No point may be at offset -1, which
    the listeners take for `no stroke begun'.) *)
Theorem freehand_stroke_is_a_polyline (tool : string) (p0 p1 : MouseEvent)
    (during : list MouseEvent) (rg : Region) :
  tool ∈ ["free"; "erase"] ->
  _tool rg = tool ->
  Forall (fun q => offsetX q <> -1) (p0 :: during) ->
  let out := gesture tool (MouseDown p0 :: (MouseMove <$> during)
                           ++ [MouseUp p1]) rg in
  kept out.2 = polyline (bool_decide (tool = "erase")) p0 (during ++ [p1])
  /\ _drawingLine out.1 = false
  /\ (_cursorX out.1, _cursorY out.1) = (offsetX p1, offsetY p1).
Proof.
  intros Ht Htool Hpts out. subst out.
  change (MouseDown p0 :: (MouseMove <$> during) ++ [MouseUp p1])
    with ([MouseDown p0] ++ (MouseMove <$> during) ++ [MouseUp p1]).
  rewrite !gesture_app. cbn [fst snd].
  set (rg0 := RegionDrawing.with_stroke true (offsetX p0, offsetY p0) rg).
  assert (Hdown : gesture tool [MouseDown p0] rg
                  = (rg0, [Say "mouse down:" (Some tool) (offsetX p0) (offsetY p0)]))
    by reflexivity.
  rewrite Hdown. cbn [fst snd].
  assert (Hmid : mid_stroke tool (offsetX p0) (offsetY p0) rg0)
    by (repeat split; exact Htool).
  destruct (freehand_moves tool p0 during rg0 Ht Hpts Hmid) as [Hmid1 Hps1].
  set (rg1 := (gesture tool (MouseMove <$> during) rg0).1) in *.
  destruct (freehand_release tool _ _ p1 rg1 Ht Hmid1) as [Hrg2 Hps2].
  assert (Hup : gesture tool [MouseUp p1] rg1
                = ((RegionDrawing._onMouseUp p1 rg1).1,
                   (RegionDrawing._onMouseUp p1 rg1).2 ++ [])).
  { cbn [gesture handle]. destruct (RegionDrawing._onMouseUp p1 rg1). reflexivity. }
  rewrite Hup. cbn [fst snd]. rewrite Hrg2.
  rewrite !kept_app, Hps1, Hps2, polyline_snoc.
  split; [reflexivity|]. split; reflexivity.
Qed.

Lemma freehand_stroke_is_a_polyline_witness :
  let p x y := {| offsetX := x; offsetY := y |} in
  let rg := regionHeap (world_of (Region.startDraw 0%nat "erase" two_regions)) 0%nat in
  let out := gesture "erase" [MouseDown (p 10 10); MouseMove (p 15 12);
                              MouseMove (p 30 5); MouseUp (p 20 40)] rg in
  _tool rg = "erase"
  /\ kept out.2 = [Segment Buffer true 10 10 15 12;
                   Segment Buffer true 15 12 30 5;
                   Segment Buffer true 30 5 20 40]
  /\ _drawingLine out.1 = false
  /\ (_cursorX out.1, _cursorY out.1) = (20, 40).
Proof.
  intros p rg out.
  assert (Htool : _tool rg = "erase") by reflexivity.
  split; [exact Htool|].
  assert (Ht : "erase" ∈ ["free"; "erase"])
    by (apply elem_of_cons; right; apply elem_of_cons; left; reflexivity).
  assert (Hpts : Forall (fun q => offsetX q <> -1) [p 10 10; p 15 12; p 30 5])
    by (repeat constructor; discriminate).
  exact (freehand_stroke_is_a_polyline "erase" (p 10 10) (p 20 40)
           [p 15 12; p 30 5] rg Ht Htool Hpts).
Defined.

(** X20.  A move that arrives while the cursor of the region is at -1, as it is
    from the choice of a tool to the first stroke, is taken for the press:
    the stroke begins at its point, and the listeners go on exactly as if
    the button had been pressed there first. *)
Theorem move_before_press_begins_stroke (tool : string) (evt : MouseEvent)
    (rest : list Mouse) (rg : Region) :
  _cursorX rg = -1 ->
  gesture tool (MouseDown evt :: MouseMove evt :: rest) rg
  = ((gesture tool (MouseMove evt :: rest) rg).1,
     Say "mouse down:" (Some tool) (offsetX evt) (offsetY evt)
     :: (gesture tool (MouseMove evt :: rest) rg).2).
Proof.
  intros Hcx.
  assert (Hsame :
    RegionDrawing._onMouseMove evt tool
      (RegionDrawing.with_stroke true (offsetX evt, offsetY evt) rg)
    = RegionDrawing._onMouseMove evt tool rg).
  { unfold RegionDrawing._onMouseMove.
    rewrite (bool_decide_eq_true_2 (_cursorX rg = -1)) by exact Hcx.
    destruct (bool_decide
                (_cursorX (RegionDrawing.with_stroke true
                             (offsetX evt, offsetY evt) rg) = -1));
      reflexivity. }
  cbn [gesture handle]. unfold RegionDrawing._onMouseDown.
  rewrite Hsame.
  destruct (RegionDrawing._onMouseMove evt tool rg) as [rg1 ps].
  destruct (gesture tool rest rg1) as [rg2 qs]. reflexivity.
Qed.

Lemma move_before_press_begins_stroke_witness :
  let p x y := {| offsetX := x; offsetY := y |} in
  let rg := regionHeap (world_of (Region.startDraw 0%nat "line" two_regions)) 0%nat in
  _cursorX rg = -1
  /\ kept (gesture "line" [MouseMove (p 10 10); MouseUp (p 20 40)] rg).2
     = [Segment Buffer false 10 10 20 40]
  /\ gesture "line" [MouseDown (p 10 10); MouseMove (p 10 10); MouseUp (p 20 40)] rg
     = ((gesture "line" [MouseMove (p 10 10); MouseUp (p 20 40)] rg).1,
        Say "mouse down:" (Some "line") 10 10
        :: (gesture "line" [MouseMove (p 10 10); MouseUp (p 20 40)] rg).2).
Proof.
  intros p rg.
  assert (Hcx : _cursorX rg = -1) by reflexivity.
  split; [exact Hcx|]. split; [reflexivity|].
  exact (move_before_press_begins_stroke "line" (p 10 10) [MouseUp (p 20 40)]
           rg Hcx).
Defined.

(** ** Dragging the menu *)

Lemma record_positions_entries (heap : RegionRef -> Region)
    (regionLs : list RegionRef) :
  Forall (fun e => e = (e.1.1, _x (heap e.1.1), _y (heap e.1.1)))
    (MoveMenu.record_positions heap regionLs).
Proof.
  induction regionLs as [|r l IH]; simpl; [constructor|].
  destruct (bool_decide _); [exact IH|]. constructor; [reflexivity|exact IH].
Qed.

Lemma record_positions_regions (heap : RegionRef -> Region)
    (regionLs : list RegionRef) (r : RegionRef) :
  r ∈ (MoveMenu.record_positions heap regionLs).*1.*1
  <-> r ∈ regionLs /\ _name (heap r) <> "canvas".
Proof.
  induction regionLs as [|q l IH]; simpl.
  - split; [intros H; apply elem_of_nil in H; contradiction|].
    intros [H _]. apply elem_of_nil in H. contradiction.
  - destruct (bool_decide (_name (heap q) = "canvas")) eqn:Hq.
    + apply bool_decide_eq_true_1 in Hq. rewrite IH, elem_of_cons.
      split; [intros [Hin Hn]; split; [right; exact Hin|exact Hn]|].
      intros [[->|Hin] Hn]; [contradiction|split; assumption].
    + apply bool_decide_eq_false_1 in Hq. cbn [fmap list_fmap fst].
      rewrite !elem_of_cons.
      change (list_fmap _ _ fst (list_fmap _ _ fst (MoveMenu.record_positions heap l)))
        with ((MoveMenu.record_positions heap l).*1.*1).
      rewrite IH.
      split.
      * intros [->|[Hin Hn]]; [split; [left; reflexivity|exact Hq]|].
        split; [right; exact Hin|exact Hn].
      * intros [[->|Hin] Hn]; [left; reflexivity|right; split; assumption].
Qed.

(** The loop of [onMouseMove] puts each recorded region at its recorded
    position plus the offset and touches no other region. *)
Lemma place_spec (X Y : RegionRef -> Z) (dx dy : Z)
    (entries : list (RegionRef * Z * Z)) (heap : RegionRef -> Region)
    (r : RegionRef) :
  Forall (fun e => e = (e.1.1, X e.1.1, Y e.1.1)) entries ->
  (r ∈ entries.*1.*1 ->
     MoveMenu.place dx dy entries heap r = moved_to (X r + dx) (Y r + dy) (heap r))
  /\ (r ∉ entries.*1.*1 -> MoveMenu.place dx dy entries heap r = heap r).
Proof.
  intros Hentries. revert heap.
  induction Hentries as [|[[q x] y] entries He _ IH]; intros heap.
  - split; [intros H; apply elem_of_nil in H; contradiction|reflexivity].
  - cbn [fst snd] in He. injection He as Hx Hy.
    cbn [MoveMenu.place fmap list_fmap fst].
    change (list_fmap _ _ fst (list_fmap _ _ fst entries)) with (entries.*1.*1).
    set (heap1 := <[q := with_y (y + dy) (with_x (x + dx) (heap q))]> heap).
    destruct (IH heap1) as [Hin Hout].
    destruct (decide (r = q)) as [->|Hne].
    + assert (H1 : heap1 q = moved_to (X q + dx) (Y q + dy) (heap q)).
      { unfold heap1. rewrite fn_lookup_insert, Hx, Hy. reflexivity. }
      split; [|intros Hnot; exfalso; apply Hnot; left].
      intros _. destruct (decide (q ∈ entries.*1.*1)) as [Hq|Hq].
      * rewrite Hin by exact Hq. rewrite H1. reflexivity.
      * rewrite Hout by exact Hq. exact H1.
    + assert (H1 : heap1 r = heap r)
        by (unfold heap1; apply fn_lookup_insert_ne; congruence).
      split.
      * intros Hr. apply elem_of_cons in Hr as [Hr|Hr]; [contradiction|].
        rewrite Hin by exact Hr. rewrite H1. reflexivity.
      * intros Hr. rewrite Hout; [exact H1|].
        intros Hr'. apply Hr. right. exact Hr'.
Qed.

Lemma deliver_all_app (regionLs : list RegionRef) (es1 es2 : list DragEvent)
    (d : Drag) (w : World) :
  (MoveMenu.deliver_all regionLs (es1 ++ es2) d w).1
  = (MoveMenu.deliver_all regionLs es2
       (MoveMenu.deliver_all regionLs es1 d w).1.1
       (MoveMenu.deliver_all regionLs es1 d w).1.2).1.
Proof.
  revert d w. induction es1 as [|e es1 IH]; intros d w; simpl.
  - reflexivity.
  - destruct (MoveMenu.deliver regionLs e d w) as [[d1 w1] o1].
    specialize (IH d1 w1).
    destruct (MoveMenu.deliver_all regionLs es1 d1 w1) as [[d2 w2] o2].
    destruct (MoveMenu.deliver_all regionLs (es1 ++ es2) d1 w1) as [[d3 w3] o3].
    cbn [fst snd] in *. exact IH.
Qed.

(** Once the release has detached the closures nothing is delivered. *)
Lemma detached_ignores (regionLs : list RegionRef) (es : list DragEvent)
    (d : Drag) (w : World) :
  attached d = false -> MoveMenu.deliver_all regionLs es d w = (d, w, []).
Proof.
  intros Hd. induction es as [|e es IH]; simpl; [reflexivity|].
  unfold MoveMenu.deliver. rewrite Hd, IH. reflexivity.
Qed.

Lemma shifted_zero (w0 : World) (regionLs : list RegionRef) :
  shifted w0 regionLs 0 0 w0.
Proof.
  intros r. split; [|reflexivity]. intros _.
  unfold moved_to. rewrite !Z.add_0_r. destruct (regionHeap w0 r); reflexivity.
Qed.

(** A move during a drag puts the regions at their first positions plus
    the displacement of the pointer since the press, wherever earlier
    moves had put them. *)
Lemma move_from_shifted (w0 w1 : World) (regionLs : list RegionRef)
    (p0 evt : Pointer) (dx dy : Z) :
  shifted w0 regionLs dx dy w1 ->
  let d := {| startX := clientX p0; startY := clientY p0; dragging := true;
              initialPositions :=
                MoveMenu.record_positions (regionHeap w0) regionLs;
              attached := true |} in
  (MoveMenu.deliver regionLs (DragMove evt) d w1).1.1 = d
  /\ shifted w0 regionLs (clientX evt - clientX p0) (clientY evt - clientY p0)
       (MoveMenu.deliver regionLs (DragMove evt) d w1).1.2.
Proof.
  intros Hw1 d. split; [reflexivity|].
  intros r. cbn [MoveMenu.deliver MoveMenu.onMouseMove attached dragging negb
                 fst snd startX startY initialPositions d].
  unfold with_regionHeap. cbn [regionHeap].
  destruct (place_spec (fun q => _x (regionHeap w0 q)) (fun q => _y (regionHeap w0 q))
              (clientX evt - clientX p0) (clientY evt - clientY p0)
              (MoveMenu.record_positions (regionHeap w0) regionLs)
              (regionHeap w1) r (record_positions_entries _ _))
    as [Hin Hout].
  rewrite record_positions_regions in Hin, Hout.
  destruct (Hw1 r) as [Hdr Hnot].
  split.
  - intros Hr. rewrite Hin by exact Hr. rewrite (Hdr Hr). reflexivity.
  - intros Hr. rewrite Hout by exact Hr. apply Hnot, Hr.
Qed.

Lemma moves_from_shifted (w0 w1 : World) (regionLs : list RegionRef)
    (p0 : Pointer) (evts : list Pointer) (dx dy : Z) :
  shifted w0 regionLs dx dy w1 ->
  let d := {| startX := clientX p0; startY := clientY p0; dragging := true;
              initialPositions :=
                MoveMenu.record_positions (regionHeap w0) regionLs;
              attached := true |} in
  (MoveMenu.deliver_all regionLs (DragMove <$> evts) d w1).1.1 = d
  /\ exists dx' dy',
       shifted w0 regionLs dx' dy'
         (MoveMenu.deliver_all regionLs (DragMove <$> evts) d w1).1.2.
Proof.
  intros Hw1 d. revert w1 dx dy Hw1.
  induction evts as [|evt evts IH]; intros w1 dx dy Hw1.
  - split; [reflexivity|]. exists dx, dy. exact Hw1.
  - cbn [fmap list_fmap MoveMenu.deliver_all].
    change (list_fmap Pointer DragEvent DragMove evts) with (DragMove <$> evts).
    destruct (move_from_shifted w0 w1 regionLs p0 evt dx dy Hw1) as [Hd Hw2].
    fold d in Hd, Hw2.
    destruct (MoveMenu.deliver regionLs (DragMove evt) d w1) as [[d1 w2] o1].
    cbn [fst snd] in Hd, Hw2. subst d1.
    destruct (IH w2 _ _ Hw2) as [Hd' Hw3].
    destruct (MoveMenu.deliver_all regionLs (DragMove <$> evts) d w2)
      as [[d2 w3] o2].
    cbn [fst snd] in *. split; assumption.
Qed.

(** X21.  A drag of the menu: from the press (not on an input element) to the
    release, every region of the list that is not named canvas follows the
    pointer; when the button is released it is at the position it had at
    the press, shifted by the way of the pointer from the press to the
    last move, whatever the moves in between were.  Nothing else about any
    region changes, and what the mouse does after the release changes
    nothing: the release has detached the closures. *)
Theorem drag_shifts_menu (regionLs : list RegionRef) (p0 m : Pointer)
    (between : list Pointer) (later : list DragEvent) (w : World) :
  onInput p0 = false ->
  let out := MoveMenu.deliver_all regionLs
               (DragDown p0 :: (DragMove <$> between)
                ++ DragMove m :: DragUp :: later) MoveMenu.begin w in
  (forall r, dragged w regionLs r ->
     regionHeap out.1.2 r
     = moved_to (_x (regionHeap w r) + (clientX m - clientX p0))
         (_y (regionHeap w r) + (clientY m - clientY p0)) (regionHeap w r))
  /\ (forall r, ~ dragged w regionLs r ->
        regionHeap out.1.2 r = regionHeap w r)
  /\ attached out.1.1 = false.
Proof.
  intros Hp0 out.
  set (d := {| startX := clientX p0; startY := clientY p0; dragging := true;
               initialPositions :=
                 MoveMenu.record_positions (regionHeap w) regionLs;
               attached := true |}).
  assert (Hout : out.1
    = (MoveMenu.deliver_all regionLs
         ((DragMove <$> between) ++ [DragMove m] ++ DragUp :: later) d w).1).
  { subst out. cbn [MoveMenu.deliver_all MoveMenu.deliver MoveMenu.begin attached].
    unfold MoveMenu.onMouseDown. rewrite Hp0.
    change (attached MoveMenu.begin) with true. fold d.
    change ((DragMove <$> between) ++ [DragMove m] ++ DragUp :: later)
      with ((DragMove <$> between) ++ DragMove m :: DragUp :: later).
    destruct (MoveMenu.deliver_all regionLs
                ((DragMove <$> between) ++ DragMove m :: DragUp :: later) d w)
      as [[d2 w2] o2].
    reflexivity. }
  rewrite !deliver_all_app in Hout.
  destruct (moves_from_shifted w w regionLs p0 between 0 0 (shifted_zero w regionLs))
    as [Hd1 (dx & dy & Hw1)].
  fold d in Hd1, Hw1. rewrite Hd1 in Hout.
  set (w1 := (MoveMenu.deliver_all regionLs (DragMove <$> between) d w).1.2) in *.
  destruct (move_from_shifted w w1 regionLs p0 m dx dy Hw1) as [Hd2 Hw2].
  fold d in Hd2, Hw2.
  assert (Hone : (MoveMenu.deliver_all regionLs [DragMove m] d w1).1
                 = (MoveMenu.deliver regionLs (DragMove m) d w1).1).
  { cbn [MoveMenu.deliver_all].
    destruct (MoveMenu.deliver regionLs (DragMove m) d w1) as [[d2 w2] o2].
    reflexivity. }
  rewrite Hone, Hd2 in Hout.
  set (w2 := (MoveMenu.deliver regionLs (DragMove m) d w1).1.2) in *.
  cbn [MoveMenu.deliver_all MoveMenu.deliver MoveMenu.onMouseUp attached d] in Hout.
  rewrite detached_ignores in Hout by reflexivity.
  cbn [fst snd] in Hout. rewrite Hout. cbn [fst snd attached].
  split; [intros r Hr; apply (Hw2 r), Hr|].
  split; [intros r Hr; apply (Hw2 r), Hr|reflexivity].
Qed.

Lemma drag_shifts_menu_witness :
  let at_ x y := {| clientX := x; clientY := y; onInput := false |} in
  let out := MoveMenu.deliver_all [0%nat; 1%nat]
               [DragDown (at_ 100 100); DragMove (at_ 103 90);
                DragMove (at_ 120 130); DragUp; DragMove (at_ 0 0)]
               MoveMenu.begin loaded_page in
  (_x (regionHeap out.1.2 1%nat), _y (regionHeap out.1.2 1%nat))
  = (_x (regionHeap loaded_page 1%nat) + 20,
     _y (regionHeap loaded_page 1%nat) + 30)
  /\ attached out.1.1 = false.
Proof.
  intros at_ out.
  destruct (drag_shifts_menu [0%nat; 1%nat] (at_ 100 100) (at_ 120 130)
              [at_ 103 90] [DragMove (at_ 0 0)] loaded_page eq_refl)
    as (Hmoved & _ & Hoff).
  split; [|exact Hoff].
  assert (Hr : dragged loaded_page [0%nat; 1%nat] 1%nat).
  { split; [apply elem_of_cons; right; apply elem_of_cons; left; reflexivity|].
    vm_compute. discriminate. }
  change (regionHeap out.1.2 1%nat) with
    (regionHeap (MoveMenu.deliver_all [0%nat; 1%nat]
       (DragDown (at_ 100 100) :: (DragMove <$> [at_ 103 90])
        ++ DragMove (at_ 120 130) :: DragUp :: [DragMove (at_ 0 0)])
       MoveMenu.begin loaded_page).1.2 1%nat).
  rewrite (Hmoved 1%nat Hr). reflexivity.
Defined.

(** ** The debugging display of an action *)

Lemma append_nonempty (a b : string) :
  b <> EmptyString -> a +:+ b <> EmptyString.
Proof. intros Hb. destruct a; [exact Hb|discriminate]. Qed.

Lemma last_char_app (a b : string) :
  b <> EmptyString -> last_char (a +:+ b) = last_char b.
Proof.
  intros Hb. induction a as [|c a IH]; [reflexivity|].
  change (String c a +:+ b) with (String c (a +:+ b)).
  destruct (a +:+ b) as [|c' s'] eqn:Hab.
  - apply append_nonempty in Hab; [contradiction|exact Hb].
  - rewrite <- IH. reflexivity.
Qed.

Lemma bindRegion_loop_silent (a : Action.t) (l : list RegionRef) (w : World) :
  world_of (Action.bindRegion_loop a l w) = w
  /\ effects_of (Action.bindRegion_loop a l w) = [].
Proof.
  induction l as [|q l IH]; [split; reflexivity|].
  cbn [Action.bindRegion_loop]. rewrite run_bind.
  cbn [get_region result world_of effects_of fst snd app].
  destruct (bool_decide _); [split; reflexivity|exact IH].
Qed.

(** X22.  The display of an action that has gone through [bindRegion] right
    after its construction ends with the warning `unbound' exactly when
    [bindRegion] reported the action through [Err.emit]. *)
Theorem display_marks_what_binding_reports (actType name param : string)
    (regionList : list RegionRef) (indent : nat) (w : World) :
  let out := Action.bindRegion (Action.new actType name param) regionList w in
  ends_with " unbound" (ActionDebug.debugString (result out) indent)
  <-> effects_of out <> [].
Proof.
  intros out. subst out.
  unfold Action.bindRegion, mbind, M_bind.
  cbn [Action._actType Action._onRegionName Action._param Action._onRegion
       Action._regionLs Action.new].
  set (a := {| Action._actType := actType; Action._onRegionName := name;
               Action._param := param; Action._onRegion := None;
               Action._regionLs := regionList |}).
  destruct (bindRegion_loop_silent a regionList w) as [_ He].
  destruct (Action.bindRegion_loop a regionList w) as [[found w1] es].
  cbn [effects_of snd] in He. subst es.
  assert (Hplain : forall b : Action.t,
    ~ ends_with " unbound"
        (ActionDebug.indented indent ""
         +:+ (Action._actType b +:+ " " +:+ Action._onRegionName b +:+ " "
              +:+ dquote +:+ Action._param b +:+ dquote))).
  { intros b [pre Heq]. apply (f_equal last_char) in Heq.
    rewrite !last_char_app in Heq
      by (repeat first [discriminate | apply append_nonempty]).
    vm_compute in Heq. discriminate. }
  subst a. destruct found as [r|].
  - cbn [result effects_of fst snd app M_ret mret].
    unfold ActionDebug.debugString. cbn [Action._onRegion Action._actType
      Action._onRegionName Action._param].
    rewrite (bool_decide_eq_true_2 (is_Some (Some r))) by (eexists; reflexivity).
    cbn [negb andb].
    split; [intros Hm; exfalso; revert Hm;
            apply (Hplain (Action.new actType name param))
           |intros Hne; contradiction].
  - unfold Err_emit, emit.
    destruct (bool_decide (actType = "none")) eqn:H1;
      [|destruct (bool_decide (actType = "print")) eqn:H2;
        [|destruct (bool_decide (actType = "print_event")) eqn:H3]];
      cbn [orb result effects_of fst snd app M_ret mret];
      unfold ActionDebug.debugString;
      cbn [Action._onRegion Action._actType Action._onRegionName Action._param];
      rewrite ?H1, ?H2, ?H3;
      rewrite (bool_decide_eq_false_2 (is_Some None))
        by (intros [? Hx]; discriminate);
      cbn [negb andb].
    1-3: split; [intros Hm; exfalso; revert Hm;
                 apply (Hplain (Action.new actType name param))
                |intros Hne; contradiction].
    split; [intros _; discriminate|].
    intros _. eexists. reflexivity.
Qed.
